(** * geoscreenshot: the acquisition-and-sampling pipeline of [src/cli.ts]
      and [src/browser.ts], embedded in Rocq.

    - JavaScript numbers that carry measurements (sizes, angles,
      coordinates, the scale hint) are IEEE-754 binary64 values, modelled
      with the Standard Library's executable [spec_float] (NaN, the
      infinities and the two zeros included); so are the target [count],
      the values of [Math.random] and the products the shuffle takes with
      them.  Numbers that only ever hold array indices and counters
      ([i], [idx], [successes]) are modelled as [nat] and enter the
      arithmetic of doubles through [Num.of_nat].
    - Asynchronous code runs sequentially (every call is awaited), so it is
      modelled in a state-and-outcome monad: the state is the history of
      the calls made to the outside world, the outcome tells a returned
      value from a thrown error and from [process.exit].
    - The outside world (network, file system, clock, random source,
      browser, image library) is a parameter, the class [World]; the
      conversions between strings and numbers are a parameter too, the
      class [Host], with the instance [js_host] to run the embedding. *)

From Stdlib Require Import ZArith QArith Qround Bool Ascii String.
From Stdlib Require Import Floats.SpecFloat.
From stdpp Require Import base tactics option list pretty.
From stdpp Require Import gmap.

Local Open Scope Z_scope.

(* ===================================================================== *)
(** ** JavaScript numbers *)
(* ===================================================================== *)

Module Num.

Definition prec : Z := 53.
Definition emax : Z := 1024.

Definition number : Type := spec_float.

Definition NaN : number := S754_nan.
Definition Infinity : number := S754_infinity false.

(** The double nearest to an integer (exact below 2^53). *)
Definition of_Z (z : Z) : number := binary_normalize prec emax z 0 false.
Definition of_nat (n : nat) : number := of_Z (Z.of_nat n).

Definition neg_zero : number := S754_zero true.

Definition mul : number -> number -> number := SFmul prec emax.
Definition div : number -> number -> number := SFdiv prec emax.

(** [x > y], [x >= y], [x === y]; every comparison with NaN is false,
    and the two zeros compare equal. *)
Definition gt (x y : number) : bool := SFltb y x.
Definition ge (x y : number) : bool := SFleb y x.
Definition strict_eq (x y : number) : bool := SFeqb x y.

(** [Number.isFinite] *)
Definition isFinite (x : number) : bool :=
  match x with
  | S754_zero _ | S754_finite _ _ _ => true
  | S754_infinity _ | S754_nan => false
  end.

(** [Math.floor]: NaN, the infinities and both zeros are returned as they
    are; a finite value with a fractional part is rounded towards minus
    infinity (so a positive fraction gives +0 and a negative one -1). *)
Definition floor (x : number) : number :=
  match x with
  | S754_finite s m e =>
      if 0 <=? e then x
      else binary_normalize prec emax
             (cond_Zopp s (Zpos m) / 2 ^ (- e)) 0 false
  | _ => x
  end.

(** A double in the interval [0, 1): what [Math.random] returns.  A
    finite double has a mantissa and an exponent in canonical form. *)
Definition unit_interval (x : number) : bool :=
  valid_binary prec emax x && SFleb (of_Z 0) x && SFltb x (of_Z 1).

(** [Math.min] and [Math.max] of two arguments: NaN is contagious and
    -0 is smaller than +0. *)
Definition min (x y : number) : number :=
  match x, y with
  | S754_nan, _ | _, S754_nan => S754_nan
  | S754_zero sx, S754_zero sy => S754_zero (sx || sy)
  | _, _ => if SFltb y x then y else x
  end.

Definition max (x y : number) : number :=
  match x, y with
  | S754_nan, _ | _, S754_nan => S754_nan
  | S754_zero sx, S754_zero sy => S754_zero (sx && sy)
  | _, _ => if SFltb x y then y else x
  end.

End Num.

Abbreviation number := Num.number.

Declare Scope js_scope.
Delimit Scope js_scope with js.
Infix "*" := Num.mul : js_scope.
Infix "/" := Num.div : js_scope.
Infix ">" := Num.gt : js_scope.
Infix ">=" := Num.ge : js_scope.
Infix "<" := (fun x y => Num.gt y x) (only parsing) : js_scope.
Infix "===" := Num.strict_eq (at level 70, no associativity) : js_scope.

(** Numeric literals of the source. *)
Definition n0 : number := Num.of_Z 0.
Definition n1 : number := Num.of_Z 1.
Definition n2 : number := Num.of_Z 2.
Definition n640 : number := Num.of_Z 640.

(* ===================================================================== *)
(** ** SizeResolver: [computeEffectiveScale] and [computeLogicalSize] *)
(* ===================================================================== *)

Record RequestedImageSize : Type := mkSize { width : number; height : number }.

(** The literal type [1 | 2]. *)
Inductive Scale : Type := Scale1 | Scale2.

Definition scale_number (s : Scale) : number :=
  match s with Scale1 => n1 | Scale2 => n2 end.

(** [computeEffectiveScale(requested, scaleArg)]; [scaleArg] is
    [number | undefined]. *)
Definition computeEffectiveScale
    (requested : RequestedImageSize) (scaleArg : option number) : Scale :=
  let candidate : number :=
    match scaleArg with
    | Some s =>
        if Num.isFinite s then s
        else if (width requested > n640)%js || (height requested > n640)%js
             then n2 else n1
    | None =>
        if (width requested > n640)%js || (height requested > n640)%js
        then n2 else n1
    end in
  if (candidate === n1)%js then Scale1 else Scale2.

(** The two logical dimensions before the cap is applied. *)
Definition logicalBeforeCap
    (requested : RequestedImageSize) (scale : Scale) : number * number :=
  (Num.floor (width requested / scale_number scale)%js,
   Num.floor (height requested / scale_number scale)%js).

(** [Math.min(cap / logicalWidth, cap / logicalHeight)] *)
Definition capRatio (cap logicalWidth logicalHeight : number) : number :=
  Num.min (cap / logicalWidth)%js (cap / logicalHeight)%js.

(** [computeLogicalSize(requested, scale, cap = 640)] *)
Definition computeLogicalSize
    (requested : RequestedImageSize) (scale : Scale) (cap : option number)
  : RequestedImageSize :=
  let cap := default n640 cap in
  let '(logicalWidth, logicalHeight) := logicalBeforeCap requested scale in
  let '(logicalWidth, logicalHeight) :=
    if (logicalWidth > cap)%js || (logicalHeight > cap)%js then
      let ratio := capRatio cap logicalWidth logicalHeight in
      (Num.floor (logicalWidth * ratio)%js,
       Num.floor (logicalHeight * ratio)%js)
    else (logicalWidth, logicalHeight) in
  {| width := Num.max n1 logicalWidth; height := Num.max n1 logicalHeight |}.


(* ===================================================================== *)
(** ** Strings and the conversions between strings and numbers *)
(* ===================================================================== *)

Local Open Scope string_scope.
Local Open Scope Z_scope.

(** The double-quote character, for the selectors that contain it. *)
Definition dq : string := String (ascii_of_nat 34) EmptyString.

Module Str.

(** [s.split(c)] for a one-character separator: always at least one
    piece, empty pieces are kept. *)
Fixpoint split (c : ascii) (s : string) : list string :=
  match s with
  | EmptyString => [EmptyString]
  | String a s' =>
      if Ascii.eqb a c then EmptyString :: split c s'
      else match split c s' with
           | piece :: rest => String a piece :: rest
           | [] => [String a EmptyString]
           end
  end.

Definition is_space (a : ascii) : bool :=
  let n := nat_of_ascii a in
  ((9 <=? n) && (n <=? 13))%nat || (n =? 32)%nat.

Fixpoint trim_start (s : string) : string :=
  match s with
  | String a s' => if is_space a then trim_start s' else s
  | EmptyString => s
  end.

Fixpoint trim_end (s : string) : string :=
  match s with
  | EmptyString => EmptyString
  | String a s' =>
      match trim_end s' with
      | EmptyString => if is_space a then EmptyString else String a EmptyString
      | t => String a t
      end
  end.

(** [s.trim()] on ASCII white space. *)
Definition trim (s : string) : string := trim_end (trim_start s).

Definition lower (a : ascii) : ascii :=
  let n := nat_of_ascii a in
  if ((65 <=? n) && (n <=? 90))%nat then ascii_of_nat (n + 32) else a.

Fixpoint lowercase (s : string) : string :=
  match s with
  | EmptyString => EmptyString
  | String a s' => String (lower a) (lowercase s')
  end.

(** [contains p s]: [p] occurs in [s] as a substring. *)
Fixpoint contains (p s : string) : bool :=
  String.prefix p s ||
  match s with
  | EmptyString => false
  | String _ s' => contains p s'
  end.

(** A string is truthy when it is not empty. *)
Definition truthy (s : string) : bool :=
  match s with EmptyString => false | _ => true end.

End Str.

(** [Number(s)]: the conversion of a string to a number (ECMAScript
    StringToNumber), on ASCII strings: white space is trimmed, the empty
    string is 0, then a signed decimal literal, [Infinity], or an unsigned
    hexadecimal, octal or binary literal; everything else is NaN.  The
    decimal value is rounded once, to the nearest double. *)
Module Parse.

Definition digit_of (a : ascii) : option Z :=
  let n := nat_of_ascii a in
  if ((48 <=? n) && (n <=? 57))%nat then Some (Z.of_nat n - 48) else None.

Definition hex_digit_of (a : ascii) : option Z :=
  let n := nat_of_ascii (Str.lower a) in
  if ((48 <=? n) && (n <=? 57))%nat then Some (Z.of_nat n - 48)
  else if ((97 <=? n) && (n <=? 102))%nat then Some (Z.of_nat n - 87)
  else None.

(** Reads the longest run of digits in base [base]: its value, how many
    digits were read, and the rest of the string. *)
Fixpoint digits (dig : ascii -> option Z) (base : Z) (acc : Z) (count : Z)
    (s : string) : Z * Z * string :=
  match s with
  | String a s' =>
      match dig a with
      | Some d => if d <? base then digits dig base (acc * base + d) (count + 1) s'
                  else (acc, count, s)
      | None => (acc, count, s)
      end
  | EmptyString => (acc, count, s)
  end.

Definition sign_of (s : string) : bool * string :=
  match s with
  | String "+" s' => (false, s')
  | String "-" s' => (true, s')
  | _ => (false, s)
  end.

(** The double nearest to [m * 10^scale], for [m > 0]. *)
Definition to_number (neg : bool) (m : positive) (scale : Z) : number :=
  let len := Z.log2 (Zpos m) / 3 + 1 in
  if 400 <? scale then S754_infinity neg
  else if len + scale <? -400 then S754_zero neg
  else if 0 <=? scale then
    Num.of_Z (cond_Zopp neg (Zpos m * 10 ^ scale))
  else
    (S754_finite neg m 0 / S754_finite false (Z.to_pos (10 ^ (- scale))) 0)%js.

Definition nonDecimal (base : Z) (s : string) : number :=
  match digits hex_digit_of base 0 0 s with
  | (v, count, EmptyString) => if 0 <? count then Num.of_Z v else Num.NaN
  | _ => Num.NaN
  end.

Definition exponentPart (s : string) : option Z :=
  match s with
  | EmptyString => Some 0
  | String c s' =>
      if Ascii.eqb (Str.lower c) "e" then
        let '(neg, s'') := sign_of s' in
        match digits digit_of 10 0 0 s'' with
        | (v, count, EmptyString) =>
            if 0 <? count then Some (cond_Zopp neg v) else None
        | _ => None
        end
      else None
  end.

Definition unsignedDecimal (neg : bool) (s : string) : number :=
  if String.eqb s "Infinity" then S754_infinity neg
  else
    let '(int_part, int_count, s1) := digits digit_of 10 0 0 s in
    let '(mant, frac_count, s2) :=
      match s1 with
      | String "." s1' => digits digit_of 10 int_part 0 s1'
      | _ => (int_part, 0, s1)
      end in
    if (int_count + frac_count =? 0) then Num.NaN
    else match exponentPart s2 with
         | None => Num.NaN
         | Some e =>
             match mant with
             | Zpos m => to_number neg m (e - frac_count)
             | _ => S754_zero neg
             end
         end.

(** [Number(s)] for a string: the StringNumericLiteral grammar on ASCII
    input. *)
Definition Number (s : string) : number :=
  let t := Str.trim s in
  match t with
  | EmptyString => n0
  | String "0" (String c rest) =>
      let c := Str.lower c in
      if Ascii.eqb c "x" then nonDecimal 16 rest
      else if Ascii.eqb c "o" then nonDecimal 8 rest
      else if Ascii.eqb c "b" then nonDecimal 2 rest
      else unsignedDecimal false t
  | _ => let '(neg, u) := sign_of t in unsignedDecimal neg u
  end.

End Parse.


(** [String(x)]: the conversion of a number to a string (ECMAScript
    Number::toString in radix 10): the shortest decimal that reads back as
    the same double, in plain notation from 1e-6 up to 1e21 and in
    exponent notation outside. *)
Module Render.

Definition pow10 (z : Z) : Q :=
  if 0 <=? z then inject_Z (10 ^ z) else 1 # Z.to_pos (10 ^ (- z)).

(** The exact value of a positive finite double. *)
Definition value (m : positive) (e : Z) : Q :=
  if 0 <=? e then inject_Z (Zpos m * 2 ^ e) else Zpos m # Z.to_pos (2 ^ (- e)).

(** The least [d] from [d0] on with [x < 10^d]. *)
Fixpoint magnitude (fuel : nat) (d : Z) (x : Q) : Z :=
  match fuel with
  | O => d
  | S fuel' => if Qle_bool (pow10 d) x then magnitude fuel' (d + 1) x else d
  end.

Definition Qabs_diff (a b : Q) : Q := if Qle_bool a b then b - a else a - b.

(** The [k]-digit decimals next to [x] that read back as the double
    [m * 2^e], nearest first. *)
Definition candidates (m : positive) (e : Z) (d k : Z) : list Z :=
  let x := value m e in
  let scale := d - k in
  let s0 := Qfloor (x / pow10 scale) in
  let reads_back (s : Z) : bool :=
    match s with
    | Zpos p => SFeqb (Parse.to_number false p scale) (S754_finite false m e)
    | _ => false
    end in
  let dist (s : Z) : Q := Qabs_diff (inject_Z s * pow10 scale) x in
  let lo := s0 in
  let hi := s0 + 1 in
  match reads_back lo, reads_back hi with
  | true, true =>
      if Qle_bool (dist lo) (dist hi) then
        if Qle_bool (dist hi) (dist lo) then (if Z.even lo then [lo] else [hi])
        else [lo]
      else [hi]
  | true, false => [lo]
  | false, true => [hi]
  | false, false => []
  end.

(** The shortest digit string: the least [k] that has a candidate. *)
Fixpoint shortest (fuel : nat) (m : positive) (e : Z) (d k : Z) : Z * Z :=
  match fuel with
  | O => (Zpos m, k)
  | S fuel' =>
      match candidates m e d k with
      | s :: _ => (s, k)
      | [] => shortest fuel' m e d (k + 1)
      end
  end.

Fixpoint strip_zeros (fuel : nat) (s k : Z) : Z * Z :=
  match fuel with
  | O => (s, k)
  | S fuel' =>
      if (s mod 10 =? 0) && (1 <? k) then strip_zeros fuel' (s / 10) (k - 1)
      else (s, k)
  end.

Definition zeros (n : Z) : string := String.concat EmptyString (replicate (Z.to_nat n) "0").

Definition take (n : Z) (s : string) : string := String.substring 0 (Z.to_nat n) s.
Definition drop (n : Z) (s : string) : string :=
  String.substring (Z.to_nat n) (String.length s - Z.to_nat n) s.

Definition positive_finite (m : positive) (e : Z) : string :=
  let d := magnitude 700 (-330) (value m e) in
  let '(s, k) := shortest 17 m e d 1 in
  let n := if s =? 10 ^ k then d + 1 else d in
  let '(s, k) := strip_zeros 20 (if s =? 10 ^ k then 10 ^ (k - 1) else s) k in
  let ds : string := pretty s in
  if (k <=? n) && (n <=? 21) then ds ++ zeros (n - k)
  else if (0 <? n) && (n <=? 21) then take n ds ++ "." ++ drop n ds
  else if (-6 <? n) && (n <=? 0) then "0." ++ zeros (- n) ++ ds
  else
    let ex : string :=
      "e" ++ (if n - 1 <? 0 then "-" else "+") ++ pretty (Z.abs (n - 1)) in
    if k =? 1 then ds ++ ex else take 1 ds ++ "." ++ drop 1 ds ++ ex.

(** [String(x)] for a number (Number::toString, radix 10). *)
Definition String (x : number) : string :=
  match x with
  | S754_nan => "NaN"
  | S754_zero _ => "0"
  | S754_infinity s => (if s then "-" else EmptyString) ++ "Infinity"
  | S754_finite s m e => (if s then "-" else EmptyString) ++ positive_finite m e
  end.

End Render.


(** The host functions the pipeline calls on strings and numbers.  The
    embedding is parametric in them; [js_host] below is the instance used
    to run it. *)
Class Host : Type := {
  Number_of_string : string -> number;         (* Number(s) *)
  String_of_number : number -> string;         (* String(x) and `${x}` *)
  path_resolve : string -> string -> string    (* path.resolve(dir, file) *)
}.

Definition js_host : Host := {|
  Number_of_string := Parse.Number;
  String_of_number := Render.String;
  path_resolve dir file := dir ++ "/" ++ file
|}.

(** [Number(v)] for [v : string | undefined]. *)
Definition Number_of `{Host} (v : option string) : number :=
  match v with
  | Some s => Number_of_string s
  | None => Num.NaN
  end.

(** [`${n}`] for a counter or an index. *)
Definition String_of_nat `{Host} (n : nat) : string :=
  String_of_number (Num.of_nat n).

(* ===================================================================== *)
(** ** Data model *)
(* ===================================================================== *)

Record Coordinates : Type := mkCoordinates {
  lat : number;
  lng : number;
  heading : option number;
  pitch : option number;
  fov : option number;
  size : option string
}.

Record StreetViewParams : Type := mkStreetViewParams {
  sv_key : string;
  sv_radius : option number;
  sv_source : option string;
  sv_size : option string;
  sv_scale : option number;
  sv_heading : option number;
  sv_pitch : option number;
  sv_fov : option number
}.

Record BrowserParams : Type := mkBrowserParams {
  bp_width : number;
  bp_height : number;
  bp_key : option string;
  bp_heading : option number;
  bp_pitch : option number;
  bp_fov : option number;
  bp_useEmbed : option bool
}.

Inductive Fit : Type := cover | contain | fill | inside | outside.

(** A URL before serialisation: the base and the entries of its
    [URLSearchParams], in order. *)
Record Url : Type := mkUrl { base : string; search : list (string * string) }.

(** [search.set(name, value)] *)
Fixpoint URLSearchParams_set (name value : string) (entries : list (string * string))
  : list (string * string) :=
  match entries with
  | [] => [(name, value)]
  | (k, v) :: rest =>
      if String.eqb k name
      then (k, value) :: filter (fun kv => negb (String.eqb (fst kv) name)) rest
      else (k, v) :: URLSearchParams_set name value rest
  end.

(** The body of the metadata endpoint, as the source declares it:
    [{ status?: string; error_message?: string }]. *)
Record Metadata : Type := mkMetadata {
  status : option string;
  error_message : option string
}.

(* ===================================================================== *)
(** ** Effects: events, the outside world, and the monad *)
(* ===================================================================== *)

(** What the world answers to a call that can fail: a value, or a
    rejection with the message of the error. *)
Inductive answer (A : Type) : Type :=
| Resolved (a : A)
| Rejected (message : string).
Arguments Resolved {A} a.
Arguments Rejected {A} message.

(** What [https.get] delivers to [httpGet]: a connection error, or a
    response with its status code and body. *)
Inductive HttpResponse (Buffer : Type) : Type :=
| ConnectionError (message : string)
| Response (statusCode : option nat) (body : Buffer).
Arguments ConnectionError {Buffer} message.
Arguments Response {Buffer} statusCode body.

(** Every call that leaves the process, in the order it happens. *)
Inductive event (Buffer Element : Type) : Type :=
| ConsoleError (msg : string)
| ConsoleLog (msg : string)
| HttpsGet (url : Url)
| Mkdir (dir : string)
| WriteFile (path : string) (data : Buffer)
| ImportSharp
| SharpResize (raw : Buffer) (w h : number) (fit : Fit) (quality : nat)
| DateNow
| Launch
| NewPage
| SetViewport (w h : number) (deviceScaleFactor : nat)
| Goto (url : Url) (timeout : Z)
| Query (selector : string)
| QueryAll (selector : string)
| Click (el : Element)
| TextContent (el : Element)
| Sleep (ms : Z)
| WaitForSelector (selector : string) (timeout : Z)
| Screenshot (quality : nat)
| CloseBrowser.
Arguments ConsoleError {Buffer Element} msg.
Arguments ConsoleLog {Buffer Element} msg.
Arguments HttpsGet {Buffer Element} url.
Arguments Mkdir {Buffer Element} dir.
Arguments WriteFile {Buffer Element} path data.
Arguments ImportSharp {Buffer Element}.
Arguments SharpResize {Buffer Element} raw w h fit quality.
Arguments DateNow {Buffer Element}.
Arguments Launch {Buffer Element}.
Arguments NewPage {Buffer Element}.
Arguments SetViewport {Buffer Element} w h deviceScaleFactor.
Arguments Goto {Buffer Element} url timeout.
Arguments Query {Buffer Element} selector.
Arguments QueryAll {Buffer Element} selector.
Arguments Click {Buffer Element} el.
Arguments TextContent {Buffer Element} el.
Arguments Sleep {Buffer Element} ms.
Arguments WaitForSelector {Buffer Element} selector timeout.
Arguments Screenshot {Buffer Element} quality.
Arguments CloseBrowser {Buffer Element}.

(** The outside world.  Each answer may depend on everything that
    happened before the call (the history). *)
Class World : Type := {
  Buffer : Type;
  Element : Type;
  (* Math.random(): the value of the k-th call *)
  Math_random : nat -> number;
  (* Date.now() *)
  Date_now : list (event Buffer Element) -> number;
  (* https.get(url, ...) *)
  https_get : list (event Buffer Element) -> Url -> HttpResponse Buffer;
  (* JSON.parse(buffer.toString("utf8")) as { status?, error_message? } *)
  JSON_parse : Buffer -> answer Metadata;
  (* existsSync(dir) || mkdirSync(dir, { recursive: true }) *)
  mkdirSync : list (event Buffer Element) -> string -> answer unit;
  writeFileSync : list (event Buffer Element) -> string -> Buffer -> answer unit;
  (* import("sharp") succeeds *)
  import_sharp : list (event Buffer Element) -> bool;
  (* sharp(raw).resize(w, h, { fit }).jpeg({ quality }).toBuffer() *)
  sharp_resize_jpeg :
    list (event Buffer Element) -> Buffer -> number -> number -> Fit -> nat -> answer Buffer;
  (* puppeteer *)
  puppeteer_launch : list (event Buffer Element) -> answer unit;
  browser_newPage : list (event Buffer Element) -> answer unit;
  page_setViewport : list (event Buffer Element) -> number -> number -> answer unit;
  page_goto : list (event Buffer Element) -> Url -> answer unit;
  page_query : list (event Buffer Element) -> string -> answer (option Element);
  page_queryAll : list (event Buffer Element) -> string -> answer (list Element);
  element_click : list (event Buffer Element) -> Element -> answer unit;
  element_textContent : list (event Buffer Element) -> Element -> answer (option string);
  page_waitForSelector : list (event Buffer Element) -> string -> answer unit;
  page_screenshot : list (event Buffer Element) -> answer Buffer;
  browser_close : list (event Buffer Element) -> answer unit
}.

Abbreviation Event := (event Buffer Element).
Abbreviation History := (list (event Buffer Element)).

(** How a computation ends: with a value, with a thrown error (a rejected
    promise) that a [try]/[catch] can handle, or with [process.exit]. *)
Inductive outcome (A : Type) : Type :=
| Return (a : A)
| Throw (message : string)
| Exit (code : nat).
Arguments Return {A} a.
Arguments Throw {A} message.
Arguments Exit {A} code.

Section Monad.
Context `{World}.

(** The state threaded through the program: the history of events and
    the module-level cache [sharpModule] (is it loaded?). *)
Record state : Type := mkState { history : History; sharpModule : bool }.

Definition M (A : Type) : Type := state -> outcome A * state.

Definition ret {A} (a : A) : M A := fun st => (Return a, st).

Definition bind {A B} (m : M A) (k : A -> M B) : M B :=
  fun st =>
    match m st with
    | (Return a, st') => k a st'
    | (Throw e, st') => (Throw e, st')
    | (Exit c, st') => (Exit c, st')
    end.

Definition emit (e : Event) : M unit :=
  fun st => (Return tt, mkState (history st ++ [e]) (sharpModule st)).

(** A call into the world: the event is recorded and the answer, computed
    from the history before the call, is returned or thrown. *)
Definition call {A} (e : Event) (oracle : History -> answer A) : M A :=
  fun st =>
    let st' := mkState (history st ++ [e]) (sharpModule st) in
    match oracle (history st) with
    | Resolved a => (Return a, st')
    | Rejected message => (Throw message, st')
    end.

(** [try { m } catch (err) { handler(err) }]: [process.exit] is not
    caught. *)
Definition try_catch {A} (m : M A) (handler : string -> M A) : M A :=
  fun st =>
    match m st with
    | (Throw e, st') => handler e st'
    | r => r
    end.

(** [try { m } finally { fin }] *)
Definition try_finally {A} (m : M A) (fin : M unit) : M A :=
  fun st =>
    match m st with
    | (Exit c, st') => (Exit c, st')
    | (r, st') =>
        match fin st' with
        | (Return _, st'') => (r, st'')
        | (Throw e, st'') => (Throw e, st'')
        | (Exit c, st'') => (Exit c, st'')
        end
    end.

(** [exitWithError(message)]: [console.error(message); process.exit(1)]. *)
Definition exitWithError {A} (message : string) : M A :=
  fun st => (Exit 1, mkState (history st ++ [ConsoleError message]) (sharpModule st)).

End Monad.

Declare Scope monad_scope.
Delimit Scope monad_scope with M.
Notation "x <- m ;; k" := (bind m (fun x => k))
  (at level 100, m at next level, right associativity,
   format "'[v' x  <-  m  ;; '/' k ']'") : monad_scope.
Notation "m ;;; k" := (bind m (fun _ => k))
  (at level 100, right associativity) : monad_scope.


Local Open Scope monad_scope.

(* ===================================================================== *)
(** ** Pure helpers of [cli.ts] *)
(* ===================================================================== *)

(** [parseSize(input, fallback)] *)
Definition parseSize `{Host} (input : option string) (fallback : RequestedImageSize)
  : RequestedImageSize :=
  match input with
  | None => fallback
  | Some input =>
      if negb (Str.truthy input) then fallback
      else
        let parts := Str.split "x" input in
        let w := parts !! 0%nat in
        let h := parts !! 1%nat in
        let width := Number_of w in
        let height := Number_of h in
        if negb (Num.isFinite width) || negb (Num.isFinite height) then fallback
        else {| width := width; height := height |}
  end.

(** [resolveAngle(value, fallback)] *)
Definition resolveAngle (value : option number) (fallback : number) : number :=
  match value with
  | Some v => v
  | None => fallback
  end.

(** JavaScript arrays of [T | undefined]: reading outside the array gives
    [undefined]; writing at or past the end extends it with holes; a
    negative index is a property, not an element. *)
Module JsArray.

Definition get {A} (a : list (option A)) (i : Z) : option A :=
  if i <? 0 then None else mjoin (a !! Z.to_nat i).

Definition set {A} (a : list (option A)) (i : Z) (v : option A) : list (option A) :=
  if i <? 0 then a
  else
    let n := Z.to_nat i in
    if (n <? length a)%nat then <[n := v]> a
    else a ++ replicate (n - length a) None ++ [v].

(** [a[x]] for a number [x]: the array index that the property key
    [String(x)] names, an integer from 0 to 2^32 - 2 (both zeros name
    index 0); [-1] stands for every key that is not an array index. *)
Definition index_of_key (x : number) : Z :=
  match x with
  | S754_zero _ => 0
  | S754_finite false m e =>
      let z := if 0 <=? e then Zpos m * 2 ^ e
               else if Zpos m mod 2 ^ (- e) =? 0 then Zpos m / 2 ^ (- e) else -1 in
      if z <? 2 ^ 32 - 1 then z else -1
  | _ => -1
  end.

End JsArray.

Section Shuffle.
Context `{World}.

(** [Math.floor(Math.random() * (i + 1))], for the [k]-th call of
    [Math.random]: the product is a binary64 multiplication, rounded to
    nearest; [i + 1] is a whole number below 2^32, which the addition
    gives exactly. *)
Definition randomIndex (k : nat) (i : nat) : number :=
  Num.floor (Math_random k * Num.of_nat (i + 1))%js.

(** The loop [for (let i = indices.length - 1; i > 0; i--)], entered
    with loop variable [i] after [k] iterations. *)
Fixpoint shuffleLoop (i : nat) (k : nat) (indices : list (option nat))
  : list (option nat) :=
  match i with
  | O => indices
  | S i' =>
      let j := JsArray.index_of_key (randomIndex k i) in
      let tmp := JsArray.get indices (Z.of_nat i) in
      let indices := JsArray.set indices (Z.of_nat i) (JsArray.get indices j) in
      let indices := JsArray.set indices j tmp in
      shuffleLoop i' (S k) indices
  end.

(** [shuffleIndices(length)] *)
Definition shuffleIndices (length : nat) : list (option nat) :=
  let indices := Some <$> seq 0 length in
  shuffleLoop (List.length indices - 1) 0 indices.

End Shuffle.

(* ===================================================================== *)
(** ** Request URLs *)
(* ===================================================================== *)

Section Urls.
Context `{Host}.

Definition latlng (lat lng : number) : string :=
  String_of_number lat ++ "," ++ String_of_number lng.

(** [value || fallback] for an optional string. *)
Definition or_string (value : option string) (fallback : string) : string :=
  match value with
  | Some s => if Str.truthy s then s else fallback
  | None => fallback
  end.

(** [buildMetadataUrl({ lat, lng }, params)] *)
Definition buildMetadataUrl (lat lng : number) (params : StreetViewParams) : Url :=
  {| base := "https://maps.googleapis.com/maps/api/streetview/metadata";
     search :=
       [ ("location", latlng lat lng);
         ("key", sv_key params);
         ("radius", String_of_number (default (Num.of_Z 100) (sv_radius params)));
         ("source", or_string (sv_source params) "outdoor") ] |}.

(** [buildImageUrl({ lat, lng }, params)] *)
Definition buildImageUrl (lat lng : number) (params : StreetViewParams) : Url :=
  {| base := "https://maps.googleapis.com/maps/api/streetview";
     search :=
       [ ("location", latlng lat lng);
         ("key", sv_key params);
         ("size", or_string (sv_size params) "1280x720");
         ("scale", String_of_number (default n2 (sv_scale params)));
         ("fov", String_of_number (default (Num.of_Z 90) (sv_fov params)));
         ("pitch", String_of_number (default n0 (sv_pitch params)));
         ("heading", String_of_number (default n0 (sv_heading params)));
         ("radius", String_of_number (default (Num.of_Z 100) (sv_radius params)));
         ("source", or_string (sv_source params) "outdoor") ] |}.

(** The three optional [search.set] calls shared by the browser URLs. *)
Definition setAngles (params : BrowserParams) (entries : list (string * string))
  : list (string * string) :=
  let entries :=
    match bp_heading params with
    | Some v => URLSearchParams_set "heading" (String_of_number v) entries
    | None => entries
    end in
  let entries :=
    match bp_pitch params with
    | Some v => URLSearchParams_set "pitch" (String_of_number v) entries
    | None => entries
    end in
  match bp_fov params with
  | Some v => URLSearchParams_set "fov" (String_of_number v) entries
  | None => entries
  end.

(** [buildMapsPanoUrl({ lat, lng }, params)]: the interactive map. *)
Definition buildMapsPanoUrl (lat lng : number) (params : BrowserParams) : Url :=
  {| base := "https://www.google.com/maps/@";
     search :=
       setAngles params
         [ ("api", "1"); ("map_action", "pano"); ("viewpoint", latlng lat lng) ] |}.

(** [buildEmbedStreetViewUrl({ lat, lng }, params)]: the direct viewer. *)
Definition buildEmbedStreetViewUrl (lat lng : number) (params : BrowserParams) : Url :=
  {| base := "https://www.google.com/maps/embed/v1/streetview";
     search :=
       setAngles params
         [ ("key", default EmptyString (bp_key params)); ("location", latlng lat lng) ] |}.

End Urls.


(* ===================================================================== *)
(** ** RemoteApiCapture: [createImageWithApi] *)
(* ===================================================================== *)

Section Api.
Context `{Host} `{World}.

(** [httpGet(url)]: rejects on a connection error and on a status code
    of 400 or more, resolves with the body otherwise. *)
Definition httpGet (url : Url) : M Buffer :=
  fun st =>
    let st' := mkState (history st ++ [HttpsGet url]) (sharpModule st) in
    match https_get (history st) url with
    | ConnectionError message => (Throw message, st')
    | Response statusCode body =>
        match statusCode with
        | Some code =>
            if (400 <=? code)%nat
            then (Throw ("Request failed with status " ++ String_of_nat code), st')
            else (Return body, st')
        | None => (Return body, st')
        end
    end.

Definition downloadImage (url : Url) : M Buffer := httpGet url.

(** [data.status === "OK"] *)
Definition statusIsOK (data : Metadata) : bool :=
  match status data with
  | Some s => String.eqb s "OK"
  | None => false
  end.

(** The message of the unavailability error. *)
Definition noStreetViewMessage (data : Metadata) : string :=
  "No Street View available: " ++ default "UNKNOWN" (status data)
  ++ match error_message data with
     | Some m => if Str.truthy m then " - " ++ m else EmptyString
     | None => EmptyString
     end.

(** [ensureMetadataAvailable(coords, params)] *)
Definition ensureMetadataAvailable (lat lng : number) (params : StreetViewParams)
  : M Metadata :=
  let url := buildMetadataUrl lat lng params in
  buffer <- httpGet url ;;
  data <- (fun st => match JSON_parse buffer with
                     | Resolved d => (Return d, st)
                     | Rejected message => (Throw message, st)
                     end) ;;
  if negb (statusIsOK data) then exitWithError (noStreetViewMessage data)
  else ret data.

(** [getSharpOrThrow()] *)
Definition getSharpOrThrow : M unit :=
  fun st =>
    if sharpModule st then (Return tt, st)
    else
      let h : History := (history st ++ [ImportSharp])%list in
      if import_sharp (history st) then (Return tt, mkState h true)
      else exitWithError
             "Image processing requires 'sharp'. Ensure it's installed and compatible with your runtime."
             (mkState h false).

Record ApiOptions : Type := mkApiOptions {
  o_apiKey : string;
  o_requested : RequestedImageSize;
  o_scaleArg : option number;
  o_heading : number;
  o_pitch : number;
  o_fov : number;
  o_radius : number;
  o_source : string;
  o_fit : Fit;
  o_verbose : bool
}.

(** The object literal passed to [ensureMetadataAvailable]. *)
Definition metadataParams (options : ApiOptions) : StreetViewParams :=
  mkStreetViewParams (o_apiKey options) (Some (o_radius options))
    (Some (o_source options)) None None None None None.

(** [createImageWithApi(coords, options)] *)
Definition createImageWithApi (coords : Coordinates) (options : ApiOptions) : M Buffer :=
  ensureMetadataAvailable (lat coords) (lng coords) (metadataParams options) ;;;
  let effectiveScale := computeEffectiveScale (o_requested options) (o_scaleArg options) in
  let logical := computeLogicalSize (o_requested options) effectiveScale None in
  let normalizedSize :=
    String_of_number (width logical) ++ "x" ++ String_of_number (height logical) in
  (if o_verbose options then
     emit (ConsoleLog
             ("coords=" ++ latlng (lat coords) (lng coords)
              ++ " size=" ++ normalizedSize
              ++ " scale=" ++ String_of_number (scale_number effectiveScale)
              ++ " heading=" ++ String_of_number (o_heading options)))
   else ret tt) ;;;
  let imageUrl :=
    buildImageUrl (lat coords) (lng coords)
      (mkStreetViewParams (o_apiKey options) (Some (o_radius options))
         (Some (o_source options)) (Some normalizedSize)
         (Some (scale_number effectiveScale)) (Some (o_heading options))
         (Some (o_pitch options)) (Some (o_fov options))) in
  raw <- downloadImage imageUrl ;;
  if (width (o_requested options) > n0)%js && (height (o_requested options) > n0)%js
  then
    getSharpOrThrow ;;;
    call (SharpResize raw (width (o_requested options)) (height (o_requested options))
            (o_fit options) 90)
         (fun h => sharp_resize_jpeg h raw (width (o_requested options))
                     (height (o_requested options)) (o_fit options) 90)
  else ret raw.

End Api.

(* ===================================================================== *)
(** ** RenderedCapture: [captureStreetViewWithBrowser] *)
(* ===================================================================== *)

Section Browser.
Context `{Host} `{World}.

Definition sleep (ms : Z) : M unit := emit (Sleep ms).

(** The fixed, ordered list of selectors probed by [tryClickConsent]. *)
Definition consentCandidates : list string :=
  [ "button[aria-label=" ++ dq ++ "Accept all" ++ dq ++ "]";
    "button[aria-label=" ++ dq ++ "Aceitar tudo" ++ dq ++ "]";
    "button:has-text(" ++ dq ++ "Aceitar tudo" ++ dq ++ ")";
    "button:has-text(" ++ dq ++ "I agree" ++ dq ++ ")";
    "button:has-text(" ++ dq ++ "Agree" ++ dq ++ ")";
    "button:has-text(" ++ dq ++ "Aceitar" ++ dq ++ ")" ].

(** One probe: [true] when the overlay was dismissed (the function
    returns), [false] when the loop goes on; a failure is swallowed. *)
Definition probe (sel : string) : M bool :=
  try_catch
    (el <- call (Query sel) (fun h => page_query h sel) ;;
     match el with
     | Some el =>
         call (Click el) (fun h => element_click h el) ;;;
         sleep 500 ;;;
         ret true
     | None => ret false
     end)
    (fun _ => ret false).

Fixpoint probeAll (candidates : list string) : M bool :=
  match candidates with
  | [] => ret false
  | sel :: rest =>
      dismissed <- probe sel ;;
      if dismissed then ret true else probeAll rest
  end.

(** [/accept|aceitar|agree/i.test(txt)] *)
Definition consentText (txt : string) : bool :=
  let t := Str.lowercase txt in
  Str.contains "accept" t || Str.contains "aceitar" t || Str.contains "agree" t.

Fixpoint scanButtons (buttons : list Element) : M unit :=
  match buttons with
  | [] => ret tt
  | b :: rest =>
      content <- call (TextContent b) (fun h => element_textContent h b) ;;
      let txt := Str.trim (or_string content EmptyString) in
      if consentText txt then
        call (Click b) (fun h => element_click h b) ;;;
        sleep 500
      else scanButtons rest
  end.

(** [tryClickConsent(page)] *)
Definition tryClickConsent : M unit :=
  dismissed <- probeAll consentCandidates ;;
  if dismissed then ret tt
  else
    try_catch
      (buttons <- call (QueryAll "button") (fun h => page_queryAll h "button") ;;
       scanButtons buttons)
      (fun _ => ret tt).

(** [params.useEmbed] and [params.key] as conditions. *)
Definition useEmbed (params : BrowserParams) : bool :=
  default false (bp_useEmbed params).

Definition hasKey (params : BrowserParams) : bool :=
  match bp_key params with
  | Some k => Str.truthy k
  | None => false
  end.

(** The navigation target chosen on the first line of the capture. *)
Definition navigationTarget (lat lng : number) (params : BrowserParams) : Url :=
  if useEmbed params && hasKey params
  then buildEmbedStreetViewUrl lat lng params
  else buildMapsPanoUrl lat lng params.

(** [captureStreetViewWithBrowser(coords, params)] *)
Definition captureStreetViewWithBrowser (lat lng : number) (params : BrowserParams)
  : M Buffer :=
  let viewportWidth := bp_width params in
  let viewportHeight := bp_height params in
  let url := navigationTarget lat lng params in
  call Launch puppeteer_launch ;;;
  try_finally
    (call NewPage browser_newPage ;;;
     call (SetViewport viewportWidth viewportHeight 1)
          (fun h => page_setViewport h viewportWidth viewportHeight) ;;;
     call (Goto url 60000) (fun h => page_goto h url) ;;;
     (if negb (useEmbed params) then
        tryClickConsent ;;;
        sleep 1500 ;;;
        try_catch
          (call (WaitForSelector "canvas" 15000)
                (fun h => page_waitForSelector h "canvas"))
          (fun _ => ret tt)
      else sleep 1500) ;;;
     call (Screenshot 90) page_screenshot)
    (call CloseBrowser browser_close).

End Browser.


(* ===================================================================== *)
(** ** Sampler: [buildBaseName] and [main] *)
(* ===================================================================== *)

(** The constants [main] decodes from the command line and the environment
    (lines 282-307) before the pipeline starts.  [count] is the double
    [Math.max(1, Number(args.count))], or 2. *)
Record Config : Type := mkConfig {
  apiKey : string;
  count : number;
  cfg_size : string;
  cfg_scale : number;
  verbose : bool;
  cfg_heading : number;
  cfg_pitch : number;
  cfg_fov : number;
  radius : number;
  source : string;
  outputDir : string;
  namePrefix : option string;
  fit : Fit;
  mode : string
}.

Section Sampler.
Context `{Host} `{World}.

(** [Date.now()] *)
Definition now : M number :=
  fun st => (Return (Date_now (history st)),
             mkState (history st ++ [DateNow]) (sharpModule st)).

(** [buildBaseName(prefix, coords, index)] *)
Definition buildBaseName (prefix : option string) (coords : Coordinates) (index : nat)
  : M string :=
  let timestamped : M string :=
    t <- now ;;
    ret (String_of_number (lat coords) ++ "_" ++ String_of_number (lng coords)
         ++ "_" ++ String_of_number t) in
  match prefix with
  | Some p =>
      if Str.truthy p then ret (p ++ "_" ++ String_of_nat index) else timestamped
  | None => timestamped
  end.

(** [ensureDir(dir)] *)
Definition ensureDir (dir : string) : M unit :=
  call (Mkdir dir) (fun h => mkdirSync h dir).

Variable cfg : Config.
Variable allCoords : list Coordinates.

(** The capture of one candidate: the conditional expression in the
    [try] block of [main]. *)
Definition capture (coords : Coordinates) (requested : RequestedImageSize) : M Buffer :=
  let headingValue := resolveAngle (heading coords) (cfg_heading cfg) in
  let pitchValue := resolveAngle (pitch coords) (cfg_pitch cfg) in
  let fovValue := resolveAngle (fov coords) (cfg_fov cfg) in
  if String.eqb (mode cfg) "browser" then
    captureStreetViewWithBrowser (lat coords) (lng coords)
      {| bp_width := width requested;
         bp_height := height requested;
         bp_heading := Some headingValue;
         bp_pitch := Some pitchValue;
         bp_fov := Some fovValue;
         bp_key := Some (apiKey cfg);
         bp_useEmbed := Some true |}
  else
    createImageWithApi coords
      {| o_apiKey := apiKey cfg;
         o_requested := requested;
         o_scaleArg := if Num.isFinite (cfg_scale cfg) then Some (cfg_scale cfg) else None;
         o_heading := headingValue;
         o_pitch := pitchValue;
         o_fov := fovValue;
         o_radius := radius cfg;
         o_source := source cfg;
         o_fit := fit cfg;
         o_verbose := verbose cfg |}.

(** Line 318: the size requested for one candidate. *)
Definition requestedFor (coords : Coordinates) : RequestedImageSize :=
  parseSize (Some (or_string (size coords) (cfg_size cfg)))
            (mkSize (Num.of_Z 1920) (Num.of_Z 1080)).

(** The [try] block of the loop body: capture, name, write; its value is
    the output path that is pushed. *)
Definition attempt (coords : Coordinates) (requested : RequestedImageSize)
    (successes : nat) : M string :=
  image <- capture coords requested ;;
  baseName <- buildBaseName (namePrefix cfg) coords (successes + 1) ;;
  let outputPath := path_resolve (outputDir cfg) (baseName ++ ".jpg") in
  call (WriteFile outputPath image) (fun h => writeFileSync h outputPath image) ;;;
  ret outputPath.

(** The [catch] block. *)
Definition skip (idx : option nat) (message : string) : M unit :=
  if verbose cfg
  then emit (ConsoleError
               ("Skipping index " ++ from_option String_of_nat "undefined" idx
                ++ ": " ++ message))
  else ret tt.

(** [for (const idx of indices) { ... }], from the loop state
    [(successes, outputs)]. *)
Fixpoint sampleLoop (indices : list (option nat)) (successes : nat)
    (outputs : list string) : M (nat * list string) :=
  match indices with
  | [] => ret (successes, outputs)
  | idx :: rest =>
      if (Num.of_nat successes >= count cfg)%js then ret (successes, outputs)
      else
        match idx ≫= (fun i => allCoords !! i) with
        | None => sampleLoop rest successes outputs
        | Some coords =>
            let requested := requestedFor coords in
            r <- try_catch
                   (outputPath <- attempt coords requested successes ;;
                    ret (Some outputPath))
                   (fun message => skip idx message ;;; ret None) ;;
            match r with
            | Some outputPath => sampleLoop rest (successes + 1) (outputs ++ [outputPath])
            | None => sampleLoop rest successes outputs
            end
        end
  end.

(** [visits indices s outs st visited r st']: the run of the loop over
    [indices], entered with the loop state [(s, outs)] in the state [st],
    ends with [r] in the state [st'], and [visited] are the indices for
    which the [try] block was entered, in the order of the attempts. *)
Inductive visits :
  list (option nat) -> nat -> list string -> state ->
  list nat -> outcome (nat * list string) -> state -> Prop :=
| visits_end s outs st :
    visits [] s outs st [] (Return (s, outs)) st
| visits_break idx rest s outs st :
    (Num.of_nat s >= count cfg)%js = true ->
    visits (idx :: rest) s outs st [] (Return (s, outs)) st
| visits_continue idx rest s outs st visited r st' :
    (Num.of_nat s >= count cfg)%js = false ->
    idx ≫= (fun i => allCoords !! i) = None ->
    visits rest s outs st visited r st' ->
    visits (idx :: rest) s outs st visited r st'
| visits_success i coords rest s outs st path st1 visited r st' :
    (Num.of_nat s >= count cfg)%js = false ->
    allCoords !! i = Some coords ->
    attempt coords (requestedFor coords) s st = (Return path, st1) ->
    visits rest (s + 1) (outs ++ [path]) st1 visited r st' ->
    visits (Some i :: rest) s outs st (i :: visited) r st'
| visits_skip i coords rest s outs st message st1 st2 visited r st' :
    (Num.of_nat s >= count cfg)%js = false ->
    allCoords !! i = Some coords ->
    attempt coords (requestedFor coords) s st = (Throw message, st1) ->
    skip (Some i) message st1 = (Return tt, st2) ->
    visits rest s outs st2 visited r st' ->
    visits (Some i :: rest) s outs st (i :: visited) r st'
| visits_exit i coords rest s outs st code st1 :
    (Num.of_nat s >= count cfg)%js = false ->
    allCoords !! i = Some coords ->
    attempt coords (requestedFor coords) s st = (Exit code, st1) ->
    visits (Some i :: rest) s outs st [i] (Exit code) st1.


Definition shortfallMessage (successes : nat) : string :=
  "Only generated " ++ String_of_nat successes ++ " of " ++ String_of_number (count cfg)
  ++ " images due to unavailable Street View or errors.".

Fixpoint printAll (outputs : list string) : M unit :=
  match outputs with
  | [] => ret tt
  | p :: rest => emit (ConsoleLog p) ;;; printAll rest
  end.

(** [main()], from line 309 on.  The value is the array [outputs], which
    the source prints and does not return. *)
Definition main : M (list string) :=
  let indices := shuffleIndices (length allCoords) in
  ensureDir (outputDir cfg) ;;;
  r <- sampleLoop indices 0 [] ;;
  let '(successes, outputs) := r in
  if (Num.of_nat successes < count cfg)%js then exitWithError (shortfallMessage successes)
  else printAll outputs ;;; ret outputs.

(** [main().catch((err) => exitWithError(message))] *)
Definition program : M (list string) :=
  try_catch main (fun message => exitWithError message).

End Sampler.


(* ===================================================================== *)
(** ** A concrete world to run the pipeline in *)
(* ===================================================================== *)

Module Sim.

(** Bodies that travel through the simulated world. *)
Inductive payload : Type :=
| Json (m : Metadata)
| Image (tag : string)
| Garbage.

Definition lookup_entry (name : string) (u : Url) : string :=
  match List.find (fun kv => String.eqb (fst kv) name) (search u) with
  | Some kv => snd kv
  | None => EmptyString
  end.

Definition is_metadata (u : Url) : bool :=
  String.eqb (base u) "https://maps.googleapis.com/maps/api/streetview/metadata".

(** The network of a world where the metadata endpoint reports
    [statusAt location] and the image endpoint always delivers. *)
Definition network (statusAt : string -> string) (u : Url) : HttpResponse payload :=
  if is_metadata u
  then Response (Some 200%nat)
         (Json (mkMetadata (Some (statusAt (lookup_entry "location" u))) None))
  else Response (Some 200%nat) (Image (lookup_entry "location" u)).

(** The network of a world where every request is answered with status
    code 500. *)
Definition outage (u : Url) : HttpResponse payload := Response (Some 500%nat) Garbage.

(** A world described by its network, its clock and its random source;
    the file system, the image library and the browser always succeed,
    and the pages shown have no consent button. *)
Definition world (net : Url -> HttpResponse payload) (clock : Z) (random : nat -> number)
  : World := {|
  Buffer := payload;
  Element := nat;
  Math_random := random;
  Date_now _ := Num.of_Z clock;
  https_get _ u := net u;
  JSON_parse b :=
    match b with
    | Json m => Resolved m
    | _ => Rejected "Unexpected token in JSON"
    end;
  mkdirSync _ _ := Resolved tt;
  writeFileSync _ _ _ := Resolved tt;
  import_sharp _ := true;
  sharp_resize_jpeg _ raw _ _ _ _ := Resolved raw;
  puppeteer_launch _ := Resolved tt;
  browser_newPage _ := Resolved tt;
  page_setViewport _ _ _ := Resolved tt;
  page_goto _ _ := Resolved tt;
  page_query _ _ := Resolved None;
  page_queryAll _ _ := Resolved [];
  element_click _ _ := Resolved tt;
  element_textContent _ _ := Resolved None;
  page_waitForSelector _ _ := Resolved tt;
  page_screenshot _ := Resolved (Image "screenshot");
  browser_close _ := Resolved tt
|}.

Definition allOK (location : string) : string := "OK".

(** No imagery at the location 2,2; imagery everywhere else. *)
Definition noneAt22 (location : string) : string :=
  if String.eqb location "2,2" then "ZERO_RESULTS" else "OK".

(** A random source that always answers 0.5. *)
Definition half (k : nat) : number := (n1 / n2)%js.

Definition point (la ln : Z) : Coordinates :=
  mkCoordinates (Num.of_Z la) (Num.of_Z ln) None None None None.

(** A configuration with the target [c], any double. *)
Definition config_counting (c : number) (prefix : option string) (m : string) : Config := {|
  apiKey := "KEY";
  count := c;
  cfg_size := "1920x1080";
  cfg_scale := n2;
  verbose := false;
  cfg_heading := n0;
  cfg_pitch := n0;
  cfg_fov := Num.of_Z 90;
  radius := Num.of_Z 100;
  source := "outdoor";
  outputDir := "/out";
  namePrefix := prefix;
  fit := cover;
  mode := m
|}.

(** A configuration with a whole number as target. *)
Definition config (n : nat) (prefix : option string) (m : string) : Config :=
  config_counting (Num.of_nat n) prefix m.

Definition start `{World} : state := mkState [] false.

Definition options (requested : RequestedImageSize) : ApiOptions := {|
  o_apiKey := "KEY";
  o_requested := requested;
  o_scaleArg := Some n2;
  o_heading := n0;
  o_pitch := n0;
  o_fov := Num.of_Z 90;
  o_radius := Num.of_Z 100;
  o_source := "outdoor";
  o_fit := cover;
  o_verbose := false
|}.

End Sim.


(* ===================================================================== *)
(** ** Command line: [parseArgs] *)
(* ===================================================================== *)

(** What a property of the object built by [parseArgs] can hold: [true]
    (an option without [=]), a string (an option with [=]), or the array
    of positional arguments kept under [_]. *)
Inductive ArgValue : Type :=
| ArgTrue
| ArgString (value : string)
| ArgList (items : list string).

(** [opt.replace(/^--/, EmptyString)] *)
Definition stripDashes (opt : string) : string :=
  if String.prefix "--" opt then String.substring 2 (String.length opt - 2) opt else opt.

(** [args[key] = value] on a plain object: assigning a primitive to
    [__proto__] changes nothing. *)
Definition setProperty (key : string) (value : ArgValue) (args : gmap string ArgValue)
  : gmap string ArgValue :=
  if String.eqb key "__proto__" then args else <[key := value]> args.

(** The loop of [parseArgs] over the parts [argv[2]], [argv[3]], ...  It
    fails (a TypeError is thrown) when a positional part is met after an
    option named [_] has replaced the array. *)
Fixpoint parseParts (parts : list string) (args : gmap string ArgValue)
  : answer (gmap string ArgValue) :=
  match parts with
  | [] => Resolved args
  | part :: rest =>
      if String.prefix "--" part then
        let pieces := Str.split "=" part in
        let opt := default EmptyString (pieces !! 0%nat) in
        let normalizedKey := stripDashes opt in
        let value :=
          match pieces !! 1%nat with
          | None => ArgTrue
          | Some v => ArgString v
          end in
        parseParts rest (setProperty normalizedKey value args)
      else
        match args !! "_" with
        | Some (ArgList items) => parseParts rest (<["_" := ArgList (items ++ [part])]> args)
        | _ => Rejected "args._.push is not a function"
        end
  end.

(** [parseArgs(argv)] *)
Definition parseArgs (argv : list string) : answer (gmap string ArgValue) :=
  parseParts (drop 2 argv) {["_" := ArgList []]}.

(* ===================================================================== *)
(** ** The map file: [validateLatLng] and [parseMapFile] *)
(* ===================================================================== *)

(** A value produced by [JSON.parse].  The entries of an object are its
    own properties, looked up by name. *)
#[local] Unset Elimination Schemes.
Inductive Json : Type :=
| JNull
| JBool (b : bool)
| JNumber (x : number)
| JString (s : string)
| JArray (items : list Json)
| JObject (entries : list (string * Json)).
#[local] Set Elimination Schemes.

Definition joinWith (sep : string) (pieces : list string) : string :=
  String.concat sep pieces.

(** [String(v)]: an array is its elements joined by commas, with null
    elements left empty; an object is [[object Object]]. *)
Fixpoint Json_toString `{Host} (v : Json) : string :=
  match v with
  | JNull => "null"
  | JBool b => if b then "true" else "false"
  | JNumber x => String_of_number x
  | JString s => s
  | JArray items =>
      joinWith ","
        ((fix elements (l : list Json) : list string :=
            match l with
            | [] => []
            | JNull :: l' => EmptyString :: elements l'
            | item :: l' => Json_toString item :: elements l'
            end) items)
  | JObject _ => "[object Object]"
  end.

(** [Number(v)] for a value of type [unknown] that came out of
    [JSON.parse]. *)
Definition Json_toNumber `{Host} (v : Json) : number :=
  match v with
  | JNull => n0
  | JBool b => if b then n1 else n0
  | JNumber x => x
  | JString s => Number_of_string s
  | JArray _ | JObject _ => Number_of_string (Json_toString v)
  end.

(** [anyItem.name]: [None] is [undefined]. *)
Definition property (name : string) (entries : list (string * Json)) : option Json :=
  snd <$> List.find (fun kv => String.eqb (fst kv) name) entries.

(** [anyItem.name != null] *)
Definition notNullish (v : option Json) : option Json :=
  match v with
  | Some JNull | None => None
  | Some w => Some w
  end.

Infix "<=" := (fun x y => Num.ge y x) (only parsing) : js_scope.

(** [isLatValid] and [isLngValid] of [validateLatLng]. *)
Definition isLatValid (lat : number) : bool :=
  Num.isFinite lat && (lat >= Num.of_Z (-90))%js && (lat <= Num.of_Z 90)%js.

Definition isLngValid (lng : number) : bool :=
  Num.isFinite lng && (lng >= Num.of_Z (-180))%js && (lng <= Num.of_Z 180)%js.

Definition invalidCoordinates : string :=
  "Invalid coordinates. Use --lat and --lng within valid ranges.".

(** What the map file is read with: [readFileSync(path, "utf8")] and
    [JSON.parse(content)]. *)
Class Disk : Type := {
  readFileSync : string -> answer string;
  JSON_parse_text : string -> answer Json
}.

Section MapFile.
Context `{Host} `{World}.

(** [validateLatLng(latString, lngString)] *)
Definition validateLatLng (latString lngString : Json) : M (number * number) :=
  let lat := Json_toNumber latString in
  let lng := Json_toNumber lngString in
  if negb (isLatValid lat) || negb (isLngValid lng)
  then exitWithError invalidCoordinates
  else ret (lat, lng).

(** [asCoordinates(item)]: [None] is [null]. *)
Definition asCoordinates (item : Json) : M (option Coordinates) :=
  match item with
  | JArray (first :: second :: _) =>
      latlng <- validateLatLng first second ;;
      ret (Some (mkCoordinates (fst latlng) (snd latlng) None None None None))
  | JObject entries =>
      match property "lat" entries, property "lng" entries with
      | Some latValue, Some lngValue =>
          latlng <- validateLatLng latValue lngValue ;;
          ret (Some
                 {| lat := fst latlng;
                    lng := snd latlng;
                    heading := Json_toNumber <$> notNullish (property "heading" entries);
                    pitch := Json_toNumber <$> notNullish (property "pitch" entries);
                    fov := Json_toNumber <$> notNullish (property "fov" entries);
                    size := match property "size" entries with
                            | Some (JString s) => Some s
                            | _ => None
                            end |})
      | _, _ => ret None
      end
  | _ => ret None
  end.

(** [data.map(asCoordinates)] *)
Fixpoint mapCoordinates (items : list Json) : M (list (option Coordinates)) :=
  match items with
  | [] => ret []
  | item :: rest =>
      c <- asCoordinates item ;;
      cs <- mapCoordinates rest ;;
      ret (c :: cs)
  end.

(** [parseMapFile], from the decoded [data] on (lines 94-118). *)
Definition parseMapData (data : Json) : M (list Coordinates) :=
  match data with
  | JArray items =>
      mapped <- mapCoordinates items ;;
      let coords := omap id mapped in
      if (length coords =? 0)%nat
      then exitWithError "Map file contains no valid coordinates"
      else ret coords
  | _ => exitWithError "Map file must be an array of coordinates"
  end.

(** [parseMapFile(filePath)] *)
Definition parseMapFile `{Disk} (filePath : string) : M (list Coordinates) :=
  match readFileSync filePath with
  | Rejected _ => exitWithError ("Cannot read map file at " ++ filePath)
  | Resolved content =>
      match JSON_parse_text content with
      | Rejected _ => exitWithError "Invalid JSON in map file"
      | Resolved data => parseMapData data
      end
  end.

End MapFile.

(* ===================================================================== *)
(** ** Vocabulary for the properties *)
(* ===================================================================== *)

(** [behaves P m]: whatever [m] does, it only appends events to the
    history, every event it appends satisfies [P], and when it ends the
    process the exit code is 1 and the last event is the error message
    written by [exitWithError]. *)
Definition behaves `{World} {A} (P : Event -> Prop) (m : M A) : Prop :=
  forall st r st',
    m st = (r, st') ->
    exists evs,
      history st' = (history st ++ evs)%list /\
      Forall P evs /\
      match r with
      | Exit code => code = 1%nat /\ exists evs' msg, evs = (evs' ++ [ConsoleError msg])%list
      | _ => True
      end.

(** The paths of the files written, in the order of the writes. *)
Definition written `{World} (h : History) : list string :=
  omap (fun e => match e with WriteFile path _ => Some path | _ => None end) h.

(** The requests sent to the network, in order. *)
Definition requests `{World} (h : History) : list Url :=
  omap (fun e => match e with HttpsGet url => Some url | _ => None end) h.

(** Structural equality of doubles. *)
Definition number_eqb (x y : number) : bool :=
  match x, y with
  | S754_zero s, S754_zero s' => Bool.eqb s s'
  | S754_infinity s, S754_infinity s' => Bool.eqb s s'
  | S754_nan, S754_nan => true
  | S754_finite s m e, S754_finite s' m' e' => Bool.eqb s s' && Pos.eqb m m' && Z.eqb e e'
  | _, _ => false
  end.

(** The scale as an integer. *)
Definition scale_factor (s : Scale) : Z :=
  match s with Scale1 => 1 | Scale2 => 2 end.

(** The check made for every integer dimension [w] that stays under the
    cap at scale [s]: the logical dimension is not above the cap, and the
    division, the floor and the clamp give the double of [max 1 (w / s)]. *)
Definition uncappedDimension (s : Scale) (w : Z) : bool :=
  let logical := Num.floor (Num.of_Z w / scale_number s)%js in
  negb (logical > n640)%js
  && number_eqb (Num.max n1 logical) (Num.of_Z (Z.max 1 (w / scale_factor s))).

(** The check made for every integer dimension up to 640: it does not
    exceed 640 as a double. *)
Definition smallDimension (w : Z) : bool := negb (Num.of_Z w > n640)%js.

(** [optRaw.replace(/^--/, ...)] of the part [part] of the command line. *)
Definition optionKey (part : string) : string :=
  stripDashes (default EmptyString (Str.split "=" part !! 0%nat)).

(** The items of the map file that [validateLatLng] refuses. *)
Definition refused `{Host} (item : Json) : bool :=
  match item with
  | JArray (first :: second :: _) =>
      negb (isLatValid (Json_toNumber first)) || negb (isLngValid (Json_toNumber second))
  | JObject entries =>
      match property "lat" entries, property "lng" entries with
      | Some latValue, Some lngValue =>
          negb (isLatValid (Json_toNumber latValue))
          || negb (isLngValid (Json_toNumber lngValue))
      | _, _ => false
      end
  | _ => false
  end.

(** The items of the map file that are not coordinates at all: neither an
    array of two or more elements nor an object with [lat] and [lng]. *)
Definition shapeless (item : Json) : bool :=
  match item with
  | JArray (_ :: _ :: _) => false
  | JObject entries =>
      match property "lat" entries, property "lng" entries with
      | Some _, Some _ => false
      | _, _ => true
      end
  | _ => true
  end.

(** A coordinate that passed [validateLatLng]. *)
Definition validCoordinate (c : Coordinates) : Prop :=
  isLatValid (lat c) = true /\ isLngValid (lng c) = true.

(** The messages with which [parseMapFile] gives up. *)
Definition mapFileErrors (filePath : string) : list string :=
  [ "Cannot read map file at " ++ filePath;
    "Invalid JSON in map file";
    "Map file must be an array of coordinates";
    invalidCoordinates;
    "Map file contains no valid coordinates" ].
(** The number of imports of the image library in a stretch of history. *)
Definition imports `{World} (h : History) : nat :=
  length (omap (fun e => match e with ImportSharp => Some tt | _ => None end) h).

Definition is_exit {A} (r : outcome A) : bool :=
  match r with Exit _ => true | _ => false end.

(** What the module-level cache [sharpModule] guarantees about a stretch
    [evs] of history between the states [st] and [st']: with the library
    loaded nothing is imported and it stays loaded; without it, either
    nothing is imported, or it is imported once and from then on it is
    loaded or the process has ended. *)
Definition loadedOnce `{World} (st : state) (evs : History) (st' : state) (exited : bool)
  : Prop :=
  if sharpModule st
  then sharpModule st' = true /\ imports evs = 0%nat
  else (sharpModule st' = false /\ imports evs = 0%nat) \/
       (imports evs = 1%nat /\ (sharpModule st' = true \/ exited = true)).

(** [cached m]: every run of [m] appends to the history and respects the
    cache. *)
Definition cached `{World} {A} (m : M A) : Prop :=
  forall st r st',
    m st = (r, st') ->
    exists evs, history st' = (history st ++ evs)%list /\ loadedOnce st evs st' (is_exit r).

(** The events of the sampling loop itself, outside the captures: the
    output directory, the clock read for a name, the writes and the
    console. *)
Definition pipelineEvent `{World} (e : Event) : Prop :=
  match e with
  | Mkdir _ | DateNow | WriteFile _ _ | ConsoleLog _ | ConsoleError _ => True
  | _ => False
  end.

(** The selectors probed with [page.$], in the order of the probes. *)
Definition probes `{World} (h : History) : list string :=
  omap (fun e => match e with Query sel => Some sel | _ => None end) h.

(** The browser events that are not probes. *)
Definition afterProbes `{World} (e : Event) : Prop :=
  match e with
  | QueryAll _ | Click _ | TextContent _ | Sleep _ | WaitForSelector _ _ => True
  | _ => False
  end.

(** The events of a rendered capture. *)
Definition browserEvent `{World} (e : Event) : Prop :=
  match e with
  | Launch | NewPage | SetViewport _ _ _ | Goto _ _ | Query _ | QueryAll _
  | Click _ | TextContent _ | Sleep _ | WaitForSelector _ _ | Screenshot _
  | CloseBrowser => True
  | _ => False
  end.

(** The events of an API capture. *)
Definition apiEvent `{World} (e : Event) : Prop :=
  match e with
  | HttpsGet _ | ConsoleLog _ | ConsoleError _ | ImportSharp | SharpResize _ _ _ _ _ => True
  | _ => False
  end.

(** The image request that [createImageWithApi] builds. *)
Definition imageRequest `{Host} (coords : Coordinates) (options : ApiOptions) : Url :=
  let effectiveScale := computeEffectiveScale (o_requested options) (o_scaleArg options) in
  let logical := computeLogicalSize (o_requested options) effectiveScale None in
  buildImageUrl (lat coords) (lng coords)
    (mkStreetViewParams (o_apiKey options) (Some (o_radius options))
       (Some (o_source options))
       (Some (String_of_number (width logical) ++ "x" ++ String_of_number (height logical)))
       (Some (scale_number effectiveScale)) (Some (o_heading options))
       (Some (o_pitch options)) (Some (o_fov options))).

(** The metadata request that [createImageWithApi] builds. *)
Definition metadataRequest `{Host} (coords : Coordinates) (options : ApiOptions) : Url :=
  buildMetadataUrl (lat coords) (lng coords) (metadataParams options).

(** A response that [httpGet] resolves: no status code, or one below 400. *)
Definition accepted (statusCode : option nat) : Prop :=
  forall code, statusCode = Some code -> (code < 400)%nat.

(** Every event. *)
Definition anyEvent `{World} (e : Event) : Prop := True.

(** Events that are not requests. *)
Definition quiet `{World} (e : Event) : Prop := requests [e] = [].

(** The parameters with which [main] calls the rendered capture. *)
Definition pipelineBrowserParams (cfg : Config) (coords : Coordinates)
    (requested : RequestedImageSize) : BrowserParams :=
  {| bp_width := width requested;
     bp_height := height requested;
     bp_heading := Some (resolveAngle (heading coords) (cfg_heading cfg));
     bp_pitch := Some (resolveAngle (pitch coords) (cfg_pitch cfg));
     bp_fov := Some (resolveAngle (fov coords) (cfg_fov cfg));
     bp_key := Some (apiKey cfg);
     bp_useEmbed := Some true |}.

(** The calls of a capture that goes straight to the direct viewer. *)
Definition directViewerCalls `{Host} `{World} (lat lng : number) (params : BrowserParams)
  : list Event :=
  [ Launch; NewPage; SetViewport (bp_width params) (bp_height params) 1;
    Goto (buildEmbedStreetViewUrl lat lng params) 60000;
    Sleep 1500; Screenshot 90; CloseBrowser ].

(** A world whose pages answer no query: every probe, every scan of the
    buttons and every wait for the canvas fails; the browser itself
    works. *)
Definition stubbornWorld : World := {|
  Buffer := Sim.payload;
  Element := nat;
  Math_random := Sim.half;
  Date_now _ := Num.of_Z 1000;
  https_get _ u := Sim.outage u;
  JSON_parse _ := Rejected "Unexpected token in JSON";
  mkdirSync _ _ := Resolved tt;
  writeFileSync _ _ _ := Resolved tt;
  import_sharp _ := true;
  sharp_resize_jpeg _ raw _ _ _ _ := Resolved raw;
  puppeteer_launch _ := Resolved tt;
  browser_newPage _ := Resolved tt;
  page_setViewport _ _ _ := Resolved tt;
  page_goto _ _ := Resolved tt;
  page_query _ _ := Rejected "Execution context was destroyed";
  page_queryAll _ _ := Rejected "Execution context was destroyed";
  element_click _ _ := Rejected "Node is detached from document";
  element_textContent _ _ := Rejected "Node is detached from document";
  page_waitForSelector _ _ := Rejected "Waiting for selector canvas failed";
  page_screenshot _ := Resolved (Sim.Image "screenshot");
  browser_close _ := Resolved tt
|}.

(* ===================================================================== *)
(** * Properties *)
(* ===================================================================== *)

(** ** SizeResolver *)

Lemma n1_canonical : n1 = S754_finite false 4503599627370496 (-52).
Proof. reflexivity. Qed.

(** Two finite doubles that compare equal have the same representation. *)
Lemma SFeqb_finite_inv s m e s' m' e' :
  SFeqb (S754_finite s m e) (S754_finite s' m' e') = true ->
  s = s' /\ m = m' /\ e = e'.
Proof.
  unfold SFeqb, SFcompare.
  destruct s, s'; try discriminate;
    destruct (Z.compare_spec e e') as [->| |]; try discriminate;
    fold (Pos.compare m m'); destruct (Pos.compare_spec m m') as [->| |];
    try discriminate; auto.
Qed.

(** [x === 1] holds for the double 1 and for nothing else. *)
Lemma strict_eq_n1 (x : number) : (x === n1)%js = true <-> x = n1.
Proof.
  rewrite n1_canonical. split; [|intros ->; reflexivity].
  destruct x as [s|s| |s m e]; try (destruct s; discriminate); [discriminate|].
  intros (-> & -> & ->)%SFeqb_finite_inv. reflexivity.
Qed.

Lemma strict_eq_n1_false (x : number) : x <> n1 -> (x === n1)%js = false.
Proof.
  intros Hne. destruct (x === n1)%js eqn:E; [|reflexivity].
  apply strict_eq_n1 in E. contradiction.
Qed.

(** The conditional that ends [computeEffectiveScale], on the two literals
    the dimension test can produce. *)
Lemma scale_of_literal (b : bool) :
  (if ((if b then n2 else n1) === n1)%js then Scale1 else Scale2)
  = if b then Scale2 else Scale1.
Proof. destruct b; reflexivity. Qed.

(** C4: a finite hint gives scale 1 when it is exactly 1 and scale 2 for
    every other finite value; without a finite hint (no hint, NaN or an
    infinity) the scale is 2 when either requested dimension exceeds 640
    and 1 otherwise. *)
Theorem C4_scale_selection (requested : RequestedImageSize) :
  (forall hint, Num.isFinite hint = true -> hint = n1 ->
     computeEffectiveScale requested (Some hint) = Scale1) /\
  (forall hint, Num.isFinite hint = true -> hint <> n1 ->
     computeEffectiveScale requested (Some hint) = Scale2) /\
  (forall scaleArg,
     (scaleArg = None \/ exists hint, scaleArg = Some hint /\ Num.isFinite hint = false) ->
     computeEffectiveScale requested scaleArg =
       if (width requested > n640)%js || (height requested > n640)%js
       then Scale2 else Scale1).
Proof.
  repeat split.
  - intros hint Hfin ->. reflexivity.
  - intros hint Hfin Hne. unfold computeEffectiveScale. rewrite Hfin.
    by rewrite strict_eq_n1_false.
  - intros scaleArg [->|(hint & -> & Hinf)]; unfold computeEffectiveScale.
    + apply scale_of_literal.
    + rewrite Hinf. apply scale_of_literal.
Qed.

Lemma C4_scale_selection_witness :
  let requested := mkSize (Num.of_Z 800) (Num.of_Z 600) in
  computeEffectiveScale requested (Some n1) = Scale1 /\
  computeEffectiveScale requested (Some (Parse.Number "1.5")) = Scale2 /\
  computeEffectiveScale requested (Some n0) = Scale2 /\
  computeEffectiveScale requested (Some (Num.of_Z (-1))) = Scale2 /\
  computeEffectiveScale requested (Some (Num.of_Z 3)) = Scale2 /\
  computeEffectiveScale requested None = Scale2 /\
  computeEffectiveScale requested (Some Num.NaN) = Scale2 /\
  computeEffectiveScale (mkSize (Num.of_Z 640) (Num.of_Z 480)) (Some Num.Infinity) = Scale1.
Proof.
  intros requested.
  destruct (C4_scale_selection requested) as (Hone & Hother & Hnone).
  destruct (C4_scale_selection (mkSize (Num.of_Z 640) (Num.of_Z 480))) as (_ & _ & Hsmall).
  split; [apply Hone; reflexivity|].
  split; [apply Hother; [reflexivity | discriminate]|].
  split; [apply Hother; [reflexivity | discriminate]|].
  split; [apply Hother; [reflexivity | discriminate]|].
  split; [apply Hother; [reflexivity | discriminate]|].
  split; [apply (Hnone None); left; reflexivity|].
  split; [apply (Hnone (Some Num.NaN)); right; exists Num.NaN; split; reflexivity|].
  apply (Hsmall (Some Num.Infinity)). right. exists Num.Infinity. split; reflexivity.
Defined.

(** C5: requested 3840x2160 without a hint: scale 2, logical size 1920x1080
    before the cap, cap ratio min(640/1920, 640/1080) = 640/1920 (printed
    0.3333333333333333), logical size 640x360. *)
Theorem C5_example_3840x2160 :
  let requested := mkSize (Num.of_Z 3840) (Num.of_Z 2160) in
  let ratio := capRatio n640 (Num.of_Z 1920) (Num.of_Z 1080) in
  computeEffectiveScale requested None = Scale2 /\
  logicalBeforeCap requested Scale2 = (Num.of_Z 1920, Num.of_Z 1080) /\
  ratio = Num.min (n640 / Num.of_Z 1920)%js (n640 / Num.of_Z 1080)%js /\
  Render.String ratio = "0.3333333333333333" /\
  (Num.floor (Num.of_Z 1920 * ratio)%js, Num.floor (Num.of_Z 1080 * ratio)%js)
    = (Num.of_Z 640, Num.of_Z 360) /\
  computeLogicalSize requested (computeEffectiveScale requested None) None
    = mkSize (Num.of_Z 640) (Num.of_Z 360).
Proof. vm_compute. repeat split; reflexivity. Qed.

(** The clamp [Math.max(1, x)] gives a value that is at least 1, or NaN. *)
Lemma max_n1_clamps (x : number) :
  Num.max n1 x = Num.NaN \/ (Num.max n1 x >= n1)%js = true.
Proof.
  destruct x as [s|s| |s m e].
  - right. reflexivity.
  - right. destruct s; reflexivity.
  - left. reflexivity.
  - right. unfold Num.max. rewrite n1_canonical.
    destruct (SFltb _ _) eqn:Hlt; [|reflexivity].
    unfold Num.ge, SFleb. unfold SFltb in Hlt.
    destruct (SFcompare _ _) as [[]|]; done.
Qed.

(** Each logical dimension returned is at least 1, or NaN. *)
Lemma computeLogicalSize_clamped requested scale cap :
  let logical := computeLogicalSize requested scale cap in
  (width logical = Num.NaN \/ (width logical >= n1)%js = true) /\
  (height logical = Num.NaN \/ (height logical >= n1)%js = true).
Proof.
  unfold computeLogicalSize.
  destruct (logicalBeforeCap requested scale) as [lw lh].
  destruct (_ || _); cbn; split; apply max_n1_clamps.
Qed.

(** C3, at the input where it fails: a requested height of -0 (the size
    string 2000x-0) makes the logical height NaN, for either scale; NaN is
    neither at least 1 nor at most 640. *)
Theorem C3_negative_zero_height :
  let requested := mkSize (Num.of_Z 2000) Num.neg_zero in
  @parseSize js_host (Some "2000x-0") (mkSize (Num.of_Z 1920) (Num.of_Z 1080)) = requested /\
  computeLogicalSize requested Scale1 None = mkSize n1 Num.NaN /\
  computeLogicalSize requested Scale2 None = mkSize n1 Num.NaN /\
  (Num.NaN >= n1)%js = false /\
  (n640 >= Num.NaN)%js = false.
Proof. vm_compute. repeat split; reflexivity. Qed.

(** ** The size parser *)

(** C10: when the width or the height component of a size string is not a
    finite number (a missing component reads as NaN), [parseSize] returns
    the fallback it was given; so for a candidate whose own size is such a
    string the pipeline requests 1920x1080, and the attempt goes on. *)
Theorem C10_parseSize_fallback `{Host} (input : string) (fallback : RequestedImageSize) :
  Num.isFinite (Number_of (Str.split "x" input !! 0%nat)) = false \/
  Num.isFinite (Number_of (Str.split "x" input !! 1%nat)) = false ->
  parseSize (Some input) fallback = fallback /\
  (Str.truthy input = true ->
   forall (cfg : Config) (coords : Coordinates),
     size coords = Some input ->
     requestedFor cfg coords = mkSize (Num.of_Z 1920) (Num.of_Z 1080)).
Proof.
  intros Hbad.
  assert (Hparse : forall fb, parseSize (Some input) fb = fb).
  { intros fb. unfold parseSize. destruct (negb (Str.truthy input)); [reflexivity|].
    simpl. destruct Hbad as [-> | ->]; simpl; [reflexivity|].
    by rewrite orb_true_r. }
  split; [apply Hparse|].
  intros Htruthy cfg coords Hsize. unfold requestedFor, or_string.
  rewrite Hsize, Htruthy. apply Hparse.
Qed.

Lemma C10_parseSize_fallback_witness :
  @parseSize js_host (Some "1920") (mkSize (Num.of_Z 800) (Num.of_Z 600))
    = mkSize (Num.of_Z 800) (Num.of_Z 600) /\
  @parseSize js_host (Some "widexhigh") (mkSize (Num.of_Z 800) (Num.of_Z 600))
    = mkSize (Num.of_Z 800) (Num.of_Z 600) /\
  @requestedFor js_host (Sim.config 1 None "api")
     (mkCoordinates n0 n0 None None None (Some "12xabc"))
    = mkSize (Num.of_Z 1920) (Num.of_Z 1080).
Proof.
  split.
  { apply (@C10_parseSize_fallback js_host "1920"). right; reflexivity. }
  split.
  { apply (@C10_parseSize_fallback js_host "widexhigh"). left; reflexivity. }
  apply (@C10_parseSize_fallback js_host "12xabc" (mkSize n0 n0));
    [right; reflexivity | reflexivity | reflexivity].
Defined.


(** ** Binary64 arithmetic on small integers *)

(** The facts about the rounding of doubles that the pipeline relies on:
    integers below 2^53 are represented exactly and compare as integers,
    and the rounded product of a double below 1 with an array length
    stays below that length. *)

Lemma digits2_size (p : positive) : digits2_pos p = Pos.size p.
Proof. induction p; cbn; congruence. Qed.

Lemma digits2_bounds (p : positive) :
  2 ^ (Zpos (digits2_pos p) - 1) <= Zpos p < 2 ^ Zpos (digits2_pos p).
Proof.
  rewrite digits2_size. split.
  - pose proof (Pos.size_le p) as Hle.
    apply Pos2Z.pos_le_pos in Hle. rewrite Pos2Z.inj_pow in Hle.
    replace (Zpos (Pos.size p)) with (Z.succ (Zpos (Pos.size p) - 1)) in Hle by lia.
    rewrite Z.pow_succ_r in Hle by lia. lia.
  - pose proof (Pos.size_gt p) as Hgt.
    apply Pos2Z.pos_lt_pos in Hgt. by rewrite Pos2Z.inj_pow in Hgt.
Qed.


Lemma digits2_unique (p : positive) (d : Z) :
  2 ^ (d - 1) <= Zpos p < 2 ^ d -> Zpos (digits2_pos p) = d.
Proof.
  intros [Hlo Hhi]. pose proof (digits2_bounds p) as [Hlo' Hhi'].
  assert (0 < d).
  { destruct (Z.ltb_spec 0 d); [done|]. 
    assert (2 ^ d <= 1); [|lia].
    destruct (Z.eq_dec d 0) as [->|]; [done|]. rewrite Z.pow_neg_r; lia. }
  assert (Zpos (digits2_pos p) - 1 < d).
  { apply (Z.pow_lt_mono_r_iff 2); lia. }
  assert (d - 1 < Zpos (digits2_pos p)).
  { apply (Z.pow_lt_mono_r_iff 2); lia. }
  lia.
Qed.

Lemma iter_xO (m k : positive) : Zpos (Pos.iter xO m k) = Zpos m * 2 ^ Zpos k.
Proof.
  induction k as [|k IH] using Pos.peano_ind.
  - cbn. lia.
  - rewrite Pos.iter_succ, Pos2Z.inj_succ, Z.pow_succ_r by lia.
    rewrite Pos2Z.inj_xO, IH. lia.
Qed.

Lemma fexp_normal (e : Z) : -1074 <= e -> fexp 53 1024 (53 + e) = e.
Proof. intros He. unfold fexp, emin. lia. Qed.

(** A mantissa of 53 bits is kept as it is. *)
Lemma binary_round_aux_exact (s : bool) (m : positive) (e : Z) :
  Zpos (digits2_pos m) = 53 -> -1074 <= e <= 971 ->
  binary_round_aux Num.prec Num.emax s (Zpos m) e loc_Exact = S754_finite s m e.
Proof.
  intros Hd He. unfold Num.prec, Num.emax, binary_round_aux, shr_fexp.
  cbn [Zdigits2 shr_record_of_loc].
  rewrite Hd, fexp_normal by lia.
  rewrite Z.sub_diag. cbn [shr shr_m loc_of_shr_record round_nearest_even Zdigits2].
  rewrite Hd, fexp_normal by lia.
  rewrite Z.sub_diag. cbn [shr shr_m].
  destruct (Z.leb_spec e (1024 - 53)); [done|]. lia.
Qed.

(** The double of a positive integer below 2^53: the integer, shifted
    to 53 bits. *)
Lemma of_Z_pos (p : positive) :
  Zpos p < 2 ^ 53 ->
  exists m,
    Num.of_Z (Zpos p) = S754_finite false m (Zpos (digits2_pos p) - 53) /\
    Zpos m = Zpos p * 2 ^ (53 - Zpos (digits2_pos p)) /\
    Zpos (digits2_pos m) = 53.
Proof.
  intros Hp. pose proof (digits2_bounds p) as [Hlo Hhi].
  set (d := Zpos (digits2_pos p)) in *.
  assert (Hd : 1 <= d <= 53).
  { split; [lia|]. destruct (Z.leb_spec d 53); [done|].
    assert (2 ^ 53 <= 2 ^ (d - 1)) by (apply Z.pow_le_mono_r; lia). lia. }
  unfold Num.of_Z, binary_normalize, binary_round.
  rewrite Z.add_0_r. fold d.
  unfold Num.prec, Num.emax.
  assert (Hf : fexp 53 1024 d = d - 53).
  { unfold fexp, emin. lia. }
  rewrite Hf. unfold shl_align. rewrite Z.sub_0_r.
  destruct (d - 53) as [|q|q] eqn:Hq; [| lia |].
  - exists p. assert (d = 53) as Hd53 by lia. rewrite Hd53 in *.
    split; [by apply binary_round_aux_exact|]. split; [cbn; lia | done].
  - exists (Pos.iter xO p q).
    assert (Hm : Zpos (Pos.iter xO p q) = Zpos p * 2 ^ (53 - d)).
    { rewrite iter_xO. f_equal. f_equal. lia. }
    assert (Hdm : Zpos (digits2_pos (Pos.iter xO p q)) = 53).
    { apply digits2_unique. rewrite Hm.
      replace (2 ^ (53 - 1)) with (2 ^ (d - 1) * 2 ^ (53 - d))
        by (rewrite <- Z.pow_add_r by lia; f_equal; lia).
      replace (2 ^ 53) with (2 ^ d * 2 ^ (53 - d))
        by (rewrite <- Z.pow_add_r by lia; f_equal; lia).
      assert (0 < 2 ^ (53 - d)) by (apply Z.pow_pos_nonneg; lia).
      split; [apply Z.mul_le_mono_nonneg_r; lia | apply Z.mul_lt_mono_pos_r; lia]. }
    split; [|done].
    rewrite <- Hq. apply binary_round_aux_exact; [done | lia].
Qed.


(** Doubles of integers below 2^53 compare as the integers do. *)
Lemma compare_of_Z (a b : Z) :
  0 <= a < 2 ^ 53 -> 0 <= b < 2 ^ 53 ->
  SFcompare (Num.of_Z a) (Num.of_Z b) = Some (a ?= b).
Proof.
  intros Ha Hb.
  destruct a as [|p|p], b as [|q|q]; try lia; try done.
  - destruct (of_Z_pos q) as (m & -> & _); [lia | done].
  - destruct (of_Z_pos p) as (m & -> & _); [lia | done].
  - destruct (of_Z_pos p) as (mp & -> & Hmp & _); [lia|].
    destruct (of_Z_pos q) as (mq & -> & Hmq & _); [lia|].
    pose proof (digits2_bounds p) as [Hplo Hphi].
    pose proof (digits2_bounds q) as [Hqlo Hqhi].
    set (dp := Zpos (digits2_pos p)) in *. set (dq := Zpos (digits2_pos q)) in *.
    cbn [SFcompare]. f_equal.
    destruct (Z.compare_spec (dp - 53) (dq - 53)) as [Heq|Hlt|Hgt].
    + assert (dp = dq) as Hd by lia. rewrite Hd in *.
      rewrite Pos.compare_cont_spec.
      change (mp ?= mq)%positive with (Zpos mp ?= Zpos mq).
      rewrite Hmp, Hmq.
      rewrite <- (Zmult_compare_compat_r (Zpos p) (Zpos q) (2 ^ (53 - dq)));
        [by destruct (Zpos p ?= Zpos q)|].
      apply Z.lt_gt, Z.pow_pos_nonneg; [lia|].
      destruct (Z.leb_spec dq 53); [lia|].
      assert (2 ^ 53 <= 2 ^ (dq - 1)) by (apply Z.pow_le_mono_r; lia). lia.
    + symmetry. apply Z.compare_lt_iff.
      assert (2 ^ dp <= 2 ^ (dq - 1)) by (apply Z.pow_le_mono_r; lia). lia.
    + symmetry. apply Z.compare_gt_iff.
      assert (2 ^ dq <= 2 ^ (dp - 1)) by (apply Z.pow_le_mono_r; lia). lia.
Qed.

Lemma ge_of_Z (a b : Z) :
  0 <= a < 2 ^ 53 -> 0 <= b < 2 ^ 53 ->
  Num.ge (Num.of_Z a) (Num.of_Z b) = (b <=? a).
Proof.
  intros Ha Hb. unfold Num.ge, SFleb. rewrite compare_of_Z by done.
  destruct (Z.compare_spec b a), (Z.leb_spec b a); try done; lia.
Qed.

Lemma gt_of_Z (a b : Z) :
  0 <= a < 2 ^ 53 -> 0 <= b < 2 ^ 53 ->
  Num.gt (Num.of_Z a) (Num.of_Z b) = (b <? a).
Proof.
  intros Ha Hb. unfold Num.gt, SFltb. rewrite compare_of_Z by done.
  destruct (Z.compare_spec b a), (Z.ltb_spec b a); try done; lia.
Qed.


Lemma iter_pos_nat {A} (f : A -> A) (p : positive) (x : A) :
  SpecFloat.iter_pos f p x = @Nat.iter (Pos.to_nat p) A f x.
Proof.
  revert x. induction p as [p IH|p IH|]; intros x; cbn [SpecFloat.iter_pos].
  - rewrite !IH, Pos2Nat.inj_xI.
    replace (S (2 * Pos.to_nat p)) with (Pos.to_nat p + (Pos.to_nat p + 1))%nat by lia.
    rewrite !Nat.iter_add. done.
  - rewrite !IH, Pos2Nat.inj_xO.
    replace (2 * Pos.to_nat p)%nat with (Pos.to_nat p + Pos.to_nat p)%nat by lia.
    by rewrite Nat.iter_add.
  - done.
Qed.

Lemma shr_1_nonneg (m : Z) (r s : bool) :
  0 <= m ->
  shr_1 {| shr_m := m; shr_r := r; shr_s := s |}
  = {| shr_m := m / 2; shr_r := Z.odd m; shr_s := r || s |}.
Proof.
  intros Hm. destruct m as [|[p|p|]|]; try lia; cbn [shr_1 Z.odd]; f_equal.
  - rewrite Pos2Z.inj_xI. apply (Z.div_unique _ _ _ 1); lia.
  - rewrite Pos2Z.inj_xO. apply (Z.div_unique _ _ _ 0); lia.
Qed.

(** [k] shifts to the right: the mantissa is divided by [2^k], and the
    round bit is set only if the part shifted out is at least half of
    [2^k]. *)
Lemma shr_iter (P : Z) (k : nat) :
  0 <= P -> (1 <= k)%nat ->
  let mrs := @Nat.iter k _ shr_1 {| shr_m := P; shr_r := false; shr_s := false |} in
  shr_m mrs = P / 2 ^ Z.of_nat k /\
  (shr_r mrs = true -> 2 ^ (Z.of_nat k - 1) <= P mod 2 ^ Z.of_nat k).
Proof.
  intros HP Hk. induction k as [|k IH]; [lia|].
  destruct k as [|k].
  - cbn [Nat.iter]. rewrite shr_1_nonneg by done. cbn [shr_m shr_r].
    change (2 ^ Z.of_nat 1) with 2. change (2 ^ (Z.of_nat 1 - 1)) with 1.
    split; [done|]. rewrite Zodd_mod. intros Hodd%Z.eqb_eq. lia.
  - destruct IH as [IHm IHr]; [lia|].
    cbv zeta. rewrite Nat.iter_succ.
    destruct (Nat.iter (S k) shr_1 _) as [m r s]. cbn [shr_m shr_r] in IHm, IHr.
    set (K := Z.of_nat (S k)) in *.
    assert (0 < 2 ^ K) by (apply Z.pow_pos_nonneg; lia).
    assert (Hm : 0 <= m).
    { rewrite IHm. apply Z.div_pos; lia. }
    rewrite shr_1_nonneg by done. cbn [shr_m shr_r].
    replace (Z.of_nat (S (S k))) with (Z.succ K) by lia.
    rewrite Z.pow_succ_r by lia.
    split.
    + rewrite IHm, Z.div_div by lia. f_equal. lia.
    + replace (Z.succ K - 1) with K by lia.
      rewrite Zodd_mod. intros Hodd%Z.eqb_eq.
      rewrite (Z.mul_comm 2), Z.rem_mul_r by lia.
      rewrite <- IHm, Hodd.
      assert (0 <= P mod 2 ^ K) by (apply Z.mod_pos_bound; lia). lia.
Qed.


(** The shift that brings a mantissa to its format. *)
Lemma shr_fexp_exact (P e : Z) :
  0 <= P ->
  exists mrs e',
    shr_fexp 53 1024 P e loc_Exact = (mrs, e') /\
    let s := fexp 53 1024 (Zdigits2 P + e) - e in
    (s <= 0 -> mrs = {| shr_m := P; shr_r := false; shr_s := false |} /\ e' = e) /\
    (0 < s ->
     e' = e + s /\ shr_m mrs = P / 2 ^ s /\
     (shr_r mrs = true -> 2 ^ (s - 1) <= P mod 2 ^ s)).
Proof.
  intros HP. unfold shr_fexp. cbn [shr_record_of_loc].
  destruct (fexp 53 1024 (Zdigits2 P + e) - e) as [|p|p] eqn:Hs; cbn [shr].
  - eexists _, _. split; [done|]. split; [done | lia].
  - eexists _, _. split; [done|]. split; [lia|]. intros _. split; [done|].
    rewrite iter_pos_nat.
    pose proof (shr_iter P (Pos.to_nat p) HP) as Hiter.
    rewrite positive_nat_Z in Hiter. apply Hiter. lia.
  - eexists _, _. split; [done|]. split; [done | lia].
Qed.

Lemma round_nearest_even_cases (mrs : shr_record) :
  let m := round_nearest_even (shr_m mrs) (loc_of_shr_record mrs) in
  m = shr_m mrs \/ (m = shr_m mrs + 1 /\ shr_r mrs = true).
Proof.
  destruct mrs as [m [] []]; cbn; try destruct (Z.even m); auto.
Qed.

Lemma pow2_split (a b : Z) : 0 <= a -> 0 <= b -> 2 ^ (a + b) = 2 ^ a * 2 ^ b.
Proof. intros. by apply Z.pow_add_r. Qed.

Lemma pow2_pos (a : Z) : 0 <= a -> 0 < 2 ^ a.
Proof. intros. by apply Z.pow_pos_nonneg. Qed.

Lemma digits2_upper (p : positive) (k : Z) :
  0 <= k -> Zpos p < 2 ^ k -> Zpos (digits2_pos p) <= k.
Proof.
  intros Hk Hp. pose proof (digits2_bounds p) as [Hlo _].
  destruct (Z.leb_spec (Zpos (digits2_pos p)) k); [done|].
  assert (2 ^ k <= 2 ^ (Zpos (digits2_pos p) - 1)) by (apply Z.pow_le_mono_r; lia).
  lia.
Qed.

(** The key of an integer below 2^32 - 1 is an array index. *)
Lemma index_of_key_of_Z (j : Z) :
  0 <= j < 2 ^ 32 - 1 -> JsArray.index_of_key (Num.of_Z j) = j.
Proof.
  intros Hj. destruct j as [|p|p]; [done| |lia].
  destruct (of_Z_pos p) as (m & -> & Hm & _); [lia|].
  assert (Hd : Zpos (digits2_pos p) <= 32) by (apply digits2_upper; lia).
  set (d := Zpos (digits2_pos p)) in *.
  unfold JsArray.index_of_key.
  destruct (Z.leb_spec 0 (d - 53)); [lia|].
  replace (- (d - 53)) with (53 - d) by lia.
  assert (0 < 2 ^ (53 - d)) by (apply pow2_pos; lia).
  rewrite Hm, Z.mod_mul, Z.div_mul by lia. cbn [Z.eqb].
  destruct (Z.ltb_spec (Zpos p) (2 ^ 32 - 1)); [done | lia].
Qed.


(** Rounding to nearest cannot reach an integer [n] from a product that
    stays half a unit in the last place below it: the floor of the
    rounded value is an index below [n]. *)
Lemma floor_round_below (P : positive) (E n c : Z) :
  E < 0 -> 1 <= n < 2 ^ 32 -> 0 < c ->
  Zpos P + c <= n * 2 ^ (- E) ->
  (forall s, 0 < s -> s = fexp 53 1024 (Zpos (digits2_pos P) + E) - E -> 2 ^ s < 2 * c) ->
  0 <= JsArray.index_of_key
         (Num.floor (binary_round_aux 53 1024 false (Zpos P) E loc_Exact)) <= n - 1.
Proof.
  intros HE Hn Hc HP Hgap.
  assert (HpE : 0 < 2 ^ (- E)) by (apply pow2_pos; lia).
  assert (Hd : Zpos (digits2_pos P) + E <= 32).
  { assert (Zpos (digits2_pos P) <= 32 - E); [|lia].
    apply digits2_upper; [lia|].
    replace (32 - E) with (32 + - E) by lia. rewrite pow2_split by lia. nia. }
  unfold binary_round_aux.
  destruct (shr_fexp_exact (Zpos P) E) as (mrs & e' & -> & Hno & Hsh); [lia|].
  cbn [Zdigits2] in Hno, Hsh.
  set (s := fexp 53 1024 (Zpos (digits2_pos P) + E) - E) in *.
  pose proof (round_nearest_even_cases mrs) as Hround.
  set (P1 := round_nearest_even (shr_m mrs) (loc_of_shr_record mrs)) in *.
  assert (Hfacts : e' < 0 /\ 0 <= P1 /\ P1 < n * 2 ^ (- e')).
  { destruct (Z.leb_spec s 0) as [Hs|Hs].
    - destruct (Hno Hs) as [-> ->]. cbn [shr_m shr_r] in Hround.
      destruct Hround as [->|[_ [=]]]. lia.
    - destruct (Hsh Hs) as (-> & Hm & Hr). clear Hno Hsh.
      assert (He' : E + s < 0) by (unfold s, fexp, emin; lia).
      split; [done|].
      assert (Hps : 0 < 2 ^ s) by (apply pow2_pos; lia).
      assert (Hpe : 0 < 2 ^ (- (E + s))) by (apply pow2_pos; lia).
      assert (HT : n * 2 ^ (- E) = n * 2 ^ (- (E + s)) * 2 ^ s).
      { replace (- E) with (- (E + s) + s) by lia. rewrite pow2_split by lia. lia. }
      pose proof (Z.div_mod (Zpos P) (2 ^ s) ltac:(lia)) as Hdm.
      pose proof (Z.mod_pos_bound (Zpos P) (2 ^ s) Hps) as Hmod.
      set (q := Zpos P / 2 ^ s) in *. set (N := n * 2 ^ (- (E + s))) in *.
      assert (0 <= q) by (apply Z.div_pos; lia).
      assert (Hq : q < N) by nia.
      destruct Hround as [->|[-> Hr']]; [lia|].
      split; [lia|].
      specialize (Hr Hr'). specialize (Hgap s Hs eq_refl).
      assert (Hhalf : 2 ^ s = 2 * 2 ^ (s - 1)).
      { replace s with (Z.succ (s - 1)) at 1 by lia. rewrite Z.pow_succ_r; lia. }
      rewrite Hm. nia. }
  destruct Hfacts as (He' & HP1 & HP1n). clearbody P1. clear Hno Hsh Hround Hgap.
  assert (Hpe : 0 < 2 ^ (- e')) by (apply pow2_pos; lia).
  destruct (shr_fexp_exact P1 e') as (mrs2 & e'' & -> & Hno & Hsh); [lia|].
  set (s2 := fexp 53 1024 (Zdigits2 P1 + e') - e') in *.
  assert (Hfinal : e'' < 0 /\ 0 <= shr_m mrs2 /\
                   shr_m mrs2 / 2 ^ (- e'') = P1 / 2 ^ (- e')).
  { destruct (Z.leb_spec s2 0) as [Hs|Hs].
    - destruct (Hno Hs) as [-> ->]. cbn. lia.
    - destruct (Hsh Hs) as (-> & Hm & _).
      assert (Hps : 0 < 2 ^ s2) by (apply pow2_pos; lia).
      assert (He'' : e' + s2 < 0).
      { assert (Zdigits2 P1 + e' <= 32); [|unfold s2, fexp, emin; lia].
        destruct P1 as [|p1|p1]; [cbn; lia| |lia]. cbn [Zdigits2].
        assert (Zpos (digits2_pos p1) <= 32 - e'); [|lia].
        apply digits2_upper; [lia|].
        replace (32 - e') with (32 + - e') by lia. rewrite pow2_split by lia. nia. }
      split; [done|]. rewrite Hm. split; [apply Z.div_pos; lia|].
      assert (0 < 2 ^ (- (e' + s2))) by (apply pow2_pos; lia).
      rewrite Z.div_div by lia. f_equal.
      replace (- e') with (s2 + - (e' + s2)) by lia. by rewrite pow2_split by lia. }
  destruct Hfinal as (He'' & Hm2 & HJ).
  assert (HJn : 0 <= P1 / 2 ^ (- e') < n).
  { split; [apply Z.div_pos; lia | apply Z.div_lt_upper_bound; lia]. }
  destruct (shr_m mrs2) as [|m2|m2]; [cbn; lia| |lia].
  destruct (Z.leb_spec e'' (1024 - 53)); [|lia].
  unfold Num.floor. destruct (Z.leb_spec 0 e''); [lia|].
  cbn [cond_Zopp]. fold (Num.of_Z (Zpos m2 / 2 ^ (- e''))).
  rewrite HJ, index_of_key_of_Z; lia.
Qed.


(** [Math.floor(Math.random() * n)] is an index below [n], for every
    double in [0, 1) and every length [n] an array can have: the
    product is rounded to nearest, and the rounding cannot reach [n]. *)
Lemma floor_random_times (r : number) (n : Z) :
  Num.unit_interval r = true -> 1 <= n < 2 ^ 32 ->
  0 <= JsArray.index_of_key (Num.floor (Num.mul r (Num.of_Z n))) <= n - 1.
Proof.
  unfold Num.unit_interval. intros [[Hvalid Hge]%andb_prop Hlt]%andb_prop Hn.
  destruct n as [|p|p]; try lia.
  destruct (of_Z_pos p) as (mn & Hof & Hmn & _); [lia|].
  assert (Hd : 1 <= Zpos (digits2_pos p) <= 32).
  { split; [lia | apply digits2_upper; lia]. }
  set (d := Zpos (digits2_pos p)) in *.
  destruct r as [s|s| |s m e]; rewrite Hof.
  - cbn. lia.
  - destruct s; discriminate.
  - discriminate.
  - destruct s; [discriminate|]. clear Hge.
    destruct (of_Z_pos 1) as (m1 & Hone & Hm1 & _); [lia|].
    rewrite Hone in Hlt. cbn [digits2_pos] in Hone, Hm1, Hlt.
    change (2 ^ (53 - 1)) with (2 ^ 52) in Hm1.
    unfold valid_binary, bounded, canonical_mantissa, Num.prec, Num.emax in Hvalid.
    apply andb_prop in Hvalid as [Hcanon%Z.eqb_eq _].
    pose proof (digits2_bounds m) as [Hmlo Hmhi].
    set (dm := Zpos (digits2_pos m)) in *.
    assert (Hdm : dm <= 53) by (unfold fexp, emin in Hcanon; lia).
    assert (Hm53 : Zpos m < 2 ^ 53).
    { assert (2 ^ dm <= 2 ^ 53) by (apply Z.pow_le_mono_r; lia). lia. }
    assert (He : e <= -53).
    { unfold SFltb, SFcompare in Hlt.
      destruct (Z.compare_spec e (1 - 53)) as [Heq|Hlt'|Hgt]; [|lia|discriminate].
      exfalso. rewrite Pos.compare_cont_spec in Hlt.
      assert (dm = 53) by (unfold fexp, emin in Hcanon; lia).
      assert (Hcmp : (m ?= m1)%positive = Lt) by (by destruct (m ?= m1)%positive).
      apply Pos.compare_lt_iff, Pos2Z.pos_lt_pos in Hcmp.
      replace (dm - 1) with 52 in Hmlo by lia. lia. }
    clear Hlt Hcanon Hone.
    unfold Num.mul, SFmul. cbn [xorb].
    assert (HX : 1 <= 2 ^ (- e - 53)).
    { assert (0 < 2 ^ (- e - 53)) by (apply pow2_pos; lia). lia. }
    assert (Hp53 : 0 < 2 ^ (53 - d)) by (apply pow2_pos; lia).
    apply (floor_round_below _ _ _ (Zpos mn * 2 ^ (- e - 53))); [lia | lia | lia | |].
    + replace (- (e + (d - 53))) with ((53 - d) + (53 + (- e - 53))) by lia.
      rewrite !pow2_split by lia. rewrite Pos2Z.inj_mul, Hmn.
      assert (Zpos m + 1 <= 2 ^ 53) by lia. nia.
    + intros sh Hsh ->.
      pose proof (digits2_bounds (m * mn)) as [HPlo _].
      rewrite Pos2Z.inj_mul in HPlo.
      set (dP := Zpos (digits2_pos (m * mn))) in *.
      assert (H52 : 2 ^ (- e - 52) = 2 * 2 ^ (- e - 53)).
      { replace (- e - 52) with (Z.succ (- e - 53)) by lia. rewrite Z.pow_succ_r; lia. }
      assert (Hgoal : 2 ^ (fexp 53 1024 (dP + (e + (d - 53))) - (e + (d - 53)))
                      < Zpos mn * 2 ^ (- e - 52)); [|lia].
      unfold fexp, emin in Hsh |- *.
      destruct (Z.max_spec (dP + (e + (d - 53)) - 53) (3 - 1024 - 53))
        as [[? Hmax]|[? Hmax]]; rewrite Hmax in *.
      * assert (2 ^ (3 - 1024 - 53 - (e + (d - 53))) < 2 ^ (- e - 52))
          by (apply Z.pow_lt_mono_r; lia).
        assert (0 < 2 ^ (- e - 52)) by (apply pow2_pos; lia). nia.
      * replace (dP + (e + (d - 53)) - 53 - (e + (d - 53))) with (dP - 53) in * by lia.
        assert (Hsplit : 2 ^ (dP - 1) = 2 ^ (dP - 53) * 2 ^ 52).
        { rewrite <- pow2_split by lia. f_equal. lia. }
        assert (0 < 2 ^ (dP - 53)) by (apply pow2_pos; lia).
        assert (Zpos m * Zpos mn < 2 ^ 53 * Zpos mn) by nia.
        assert (2 ^ (dP - 53) < 2 * Zpos mn) by lia.
        assert (2 <= 2 ^ (- e - 52)) by lia. nia.
Qed.

Lemma of_nat_ge (a b : nat) :
  Z.of_nat a < 2 ^ 53 -> Z.of_nat b < 2 ^ 53 ->
  (Num.of_nat a >= Num.of_nat b)%js = (b <=? a)%nat.
Proof.
  intros Ha Hb. unfold Num.of_nat. rewrite ge_of_Z by lia.
  destruct (Z.leb_spec (Z.of_nat b) (Z.of_nat a)), (Nat.leb_spec b a); try done; lia.
Qed.

Lemma of_nat_lt (a b : nat) :
  Z.of_nat a < 2 ^ 53 -> Z.of_nat b < 2 ^ 53 ->
  (Num.of_nat a < Num.of_nat b)%js = (a <? b)%nat.
Proof.
  intros Ha Hb. unfold Num.of_nat. rewrite gt_of_Z by lia.
  destruct (Z.ltb_spec (Z.of_nat a) (Z.of_nat b)), (Nat.ltb_spec a b); try done; lia.
Qed.

(** A target above zero is not reached with zero successes. *)
Lemma positive_not_reached (c : number) : (c > n0)%js = true -> (n0 >= c)%js = false.
Proof. by destruct c as [[]|[]| |[] ? ?]. Qed.

(** ** The visiting order *)

Section ShuffleFacts.
Context `{World}.

(** [Math.random()] returns a double in the interval [0, 1). *)
Hypothesis random_unit : forall k, Num.unit_interval (Math_random k) = true.

(** The index drawn for position [i] lies in [0, i]. *)
Lemma randomIndex_range (k i : nat) :
  Z.of_nat i + 1 < 2 ^ 32 ->
  0 <= JsArray.index_of_key (randomIndex k i) <= Z.of_nat i.
Proof.
  intros Hi. unfold randomIndex, Num.of_nat.
  pose proof (floor_random_times (Math_random k) (Z.of_nat (i + 1)) (random_unit k)) as Hr.
  lia.
Qed.

(** Exchanging two elements that both lie inside the array. *)
Lemma JsArray_swap_perm {A} (l : list (option A)) (i j : Z) :
  0 <= i < Z.of_nat (length l) ->
  0 <= j < Z.of_nat (length l) ->
  JsArray.set (JsArray.set l i (JsArray.get l j)) j (JsArray.get l i) ≡ₚ l.
Proof.
  intros Hi Hj. unfold JsArray.set, JsArray.get.
  assert (Hi' : (Z.to_nat i < length l)%nat) by lia.
  assert (Hj' : (Z.to_nat j < length l)%nat) by lia.
  destruct (Z.ltb_spec i 0) as [?|_]; [lia|].
  destruct (Z.ltb_spec j 0) as [?|_]; [lia|].
  destruct (Nat.ltb_spec (Z.to_nat i) (length l)) as [_|?]; [|lia].
  rewrite length_insert.
  destruct (Nat.ltb_spec (Z.to_nat j) (length l)) as [_|?]; [|lia].
  destruct (lookup_lt_is_Some_2 l _ Hi') as [x Hx].
  destruct (lookup_lt_is_Some_2 l _ Hj') as [y Hy].
  rewrite Hx, Hy. simpl.
  by apply Permutation_insert_swap.
Qed.

Lemma shuffleLoop_perm (i k : nat) (l : list (option nat)) :
  Z.of_nat (length l) < 2 ^ 32 ->
  (i = 0 \/ i < length l)%nat -> shuffleLoop i k l ≡ₚ l.
Proof.
  revert k l. induction i as [|i IH]; intros k l Hl Hi; [reflexivity|].
  destruct Hi as [?|Hi]; [discriminate|].
  cbn [shuffleLoop].
  pose proof (randomIndex_range k (S i) ltac:(lia)) as Hj.
  set (j := JsArray.index_of_key (randomIndex k (S i))) in *.
  assert (Hswap :
    JsArray.set (JsArray.set l (Z.of_nat (S i)) (JsArray.get l j)) j
                (JsArray.get l (Z.of_nat (S i))) ≡ₚ l).
  { apply JsArray_swap_perm; lia. }
  pose proof (Permutation_length Hswap) as Hlen.
  rewrite IH; [exact Hswap | lia | lia].
Qed.

Lemma shuffleIndices_perm (N : nat) :
  Z.of_nat N < 2 ^ 32 -> shuffleIndices N ≡ₚ Some <$> seq 0 N.
Proof.
  intros HN. unfold shuffleIndices. apply shuffleLoop_perm.
  - rewrite length_fmap, length_seq. lia.
  - rewrite length_fmap, length_seq. lia.
Qed.

Lemma shuffleIndices_NoDup (N : nat) :
  Z.of_nat N < 2 ^ 32 -> NoDup (shuffleIndices N).
Proof.
  intros HN. rewrite shuffleIndices_perm by done.
  apply (NoDup_fmap_2 Some), NoDup_seq.
Qed.

(** Every entry of the visiting order is an index of a candidate. *)
Lemma shuffleIndices_valid (N : nat) :
  Z.of_nat N < 2 ^ 32 ->
  Forall (fun o => exists i, o = Some i /\ (i < N)%nat) (shuffleIndices N).
Proof.
  intros HN. rewrite shuffleIndices_perm by done. apply Forall_fmap, Forall_forall.
  intros i Hi%elem_of_seq. exists i. split; [reflexivity | lia].
Qed.

End ShuffleFacts.

Section VisitsFacts.
Context `{Host} `{World}.
Variable cfg : Config.
Variable allCoords : list Coordinates.

Lemma skip_returns_unit idx message st :
  exists st', skip cfg idx message st = (Return tt, st').
Proof. unfold skip. destruct (verbose cfg); by eexists. Qed.

(** Every run of the loop is a walk through its list: the candidates
    attempted are taken from the list in order, one attempt for each
    entry reached, and none for the entries after the point where the
    loop stops. *)
Lemma sampleLoop_visits indices :
  forall s outs st,
    exists visited r st',
      sampleLoop cfg allCoords indices s outs st = (r, st') /\
      visits cfg allCoords indices s outs st visited r st' /\
      (Forall (fun o => exists i, o = Some i /\ (i < length allCoords)%nat) indices ->
       (Some <$> visited) `prefix_of` indices).
Proof.
  induction indices as [|idx rest IH]; intros s outs st.
  { exists [], (Return (s, outs)), st. split; [done|]. split; [constructor | done]. }
  cbn [sampleLoop].
  destruct (Num.of_nat s >= count cfg)%js eqn:Hreached.
  { exists [], (Return (s, outs)), st. split; [done|].
    split; [by constructor | intros _; by apply prefix_nil]. }
  destruct (idx ≫= _) as [coords|] eqn:Hidx.
  2:{ destruct (IH s outs st) as (visited & r & st' & Hrun & Hvisits & _).
      exists visited, r, st'. split; [done|]. split; [by constructor|].
      intros Hvalid. apply Forall_cons in Hvalid as [(i & -> & Hi) _].
      apply lookup_lt_is_Some_2 in Hi as [coords Hcoords].
      cbn in Hidx. congruence. }
  destruct idx as [i|]; [|discriminate]. cbn in Hidx.
  unfold bind at 1, try_catch, bind at 1.
  destruct (attempt cfg coords (requestedFor cfg coords) s st)
    as [[path|message|code] st1] eqn:Hattempt.
  - cbn [ret]. destruct (IH (s + 1)%nat (outs ++ [path])%list st1)
      as (visited & r & st' & Hrun & Hvisits & Hprefix).
    exists (i :: visited), r, st'. split; [done|]. split; [by econstructor|].
    intros Hvalid. apply Forall_cons in Hvalid as [_ Hvalid].
    cbn. by apply prefix_cons, Hprefix.
  - destruct (skip_returns_unit (Some i) message st1) as (st2 & Hskip).
    unfold bind at 1. rewrite Hskip. cbn [ret].
    destruct (IH s outs st2) as (visited & r & st' & Hrun & Hvisits & Hprefix).
    exists (i :: visited), r, st'. split; [done|]. split; [by econstructor|].
    intros Hvalid. apply Forall_cons in Hvalid as [_ Hvalid].
    cbn. by apply prefix_cons, Hprefix.
  - exists [i], (Exit code), st1. split; [done|]. split; [by econstructor|].
    intros _. cbn. apply prefix_cons, prefix_nil.
Qed.

End VisitsFacts.

(** C6: when [Math.random] stays in [0, 1) (its contract) and the list
    of candidates has a length an array can have, the visiting order
    computed in binary64 is a permutation of the indices 0..N-1, so it
    has no repetition; and every run of the loop of [main] over it
    attempts the candidates at an initial segment of that order, one
    attempt for each: no candidate index is attempted twice. *)
Theorem C6_visiting_order_is_permutation `{Host} `{World}
    (cfg : Config) (allCoords : list Coordinates) :
  (forall k, Num.unit_interval (Math_random k) = true) ->
  Z.of_nat (length allCoords) < 2 ^ 32 ->
  let order := shuffleIndices (length allCoords) in
  order ≡ₚ Some <$> seq 0 (length allCoords) /\
  NoDup order /\
  forall st,
    exists visited r st',
      sampleLoop cfg allCoords order 0 [] st = (r, st') /\
      visits cfg allCoords order 0 [] st visited r st' /\
      (Some <$> visited) `prefix_of` order /\
      NoDup visited.
Proof.
  intros Hrandom HN order.
  pose proof (shuffleIndices_NoDup Hrandom _ HN) as Hnodup.
  split; [by apply shuffleIndices_perm|]. split; [done|].
  intros st.
  destruct (sampleLoop_visits cfg allCoords order 0%nat [] st)
    as (visited & r & st' & Hrun & Hvisits & Hprefix).
  specialize (Hprefix (shuffleIndices_valid Hrandom _ HN)).
  exists visited, r, st'. split; [done|]. split; [done|]. split; [done|].
  destruct Hprefix as [rest Hrest]. fold order in Hnodup. rewrite Hrest in Hnodup.
  apply NoDup_app in Hnodup as [Hnodup _]. by apply (NoDup_fmap_1 Some).
Qed.

Lemma C6_visiting_order_is_permutation_witness :
  let W := Sim.world (Sim.network Sim.allOK) 1000 Sim.half in
  let cfg := Sim.config 2 (Some "shot") "api" in
  let allCoords := Sim.point 1 <$> [1; 2; 3; 4; 5] in
  let order := @shuffleIndices W 5 in
  order = [Some 0; Some 3; Some 1; Some 4; Some 2]%nat /\
  order ≡ₚ Some <$> seq 0 5 /\
  NoDup order /\
  forall st,
    exists visited r st',
      @sampleLoop js_host W cfg allCoords order 0 [] st = (r, st') /\
      @visits js_host W cfg allCoords order 0 [] st visited r st' /\
      (Some <$> visited) `prefix_of` order /\
      NoDup visited.
Proof.
  intros W cfg allCoords order. split; [reflexivity|].
  apply (@C6_visiting_order_is_permutation js_host W cfg allCoords).
  - intros k. reflexivity.
  - cbn. lia.
Defined.


(** ** RemoteApiCapture *)

Section ApiFacts.
Context `{Host} `{World}.

Lemma statusIsOK_false (data : Metadata) :
  status data <> Some "OK" -> statusIsOK data = false.
Proof.
  unfold statusIsOK. destruct (status data) as [s|]; [|reflexivity].
  intros Hne. apply String.eqb_neq. congruence.
Qed.

(** The metadata guard: a body whose status is not OK ends the call in
    [exitWithError], right after the metadata request. *)
Lemma ensureMetadataAvailable_not_OK lat lng params st code body data :
  https_get (history st) (buildMetadataUrl lat lng params) = Response code body ->
  (forall c, code = Some c -> (c < 400)%nat) ->
  JSON_parse body = Resolved data ->
  status data <> Some "OK" ->
  ensureMetadataAvailable lat lng params st =
    (Exit 1,
     mkState (history st ++ [HttpsGet (buildMetadataUrl lat lng params);
                             ConsoleError (noStreetViewMessage data)])
             (sharpModule st)).
Proof.
  intros Hget Hcode Hparse Hstatus.
  unfold ensureMetadataAvailable, bind, httpGet. rewrite Hget.
  assert (Hbody :
    match code with
    | Some c =>
        if (400 <=? c)%nat
        then (Throw ("Request failed with status " ++ String_of_nat c),
              mkState (history st ++ [HttpsGet (buildMetadataUrl lat lng params)])
                      (sharpModule st))
        else (Return body,
              mkState (history st ++ [HttpsGet (buildMetadataUrl lat lng params)])
                      (sharpModule st))
    | None => (Return body,
               mkState (history st ++ [HttpsGet (buildMetadataUrl lat lng params)])
                       (sharpModule st))
    end
    = (Return body,
       mkState (history st ++ [HttpsGet (buildMetadataUrl lat lng params)])
               (sharpModule st))).
  { destruct code as [c|]; [|reflexivity].
    specialize (Hcode c eq_refl).
    destruct (Nat.leb_spec 400 c); [lia | reflexivity]. }
  rewrite Hbody, Hparse, (statusIsOK_false _ Hstatus). cbn.
  unfold exitWithError. cbn. by rewrite <- app_assoc.
Qed.

End ApiFacts.

(** C2: in API mode, when the metadata endpoint answers with a status other
    than OK, the attempt ends at once with the unavailability error
    (raised by [exitWithError]) and the only request it has issued is the
    metadata request: no image is fetched. *)
Theorem C2_not_OK_issues_no_image_fetch `{Host} `{World}
    (coords : Coordinates) (options : ApiOptions) (st : state)
    (code : option nat) (body : Buffer) (data : Metadata) :
  let metadataUrl := buildMetadataUrl (lat coords) (lng coords) (metadataParams options) in
  let issued := [HttpsGet metadataUrl; ConsoleError (noStreetViewMessage data)] in
  https_get (history st) metadataUrl = Response code body ->
  (forall c, code = Some c -> (c < 400)%nat) ->
  JSON_parse body = Resolved data ->
  status data <> Some "OK" ->
  createImageWithApi coords options st
    = (Exit 1, mkState (history st ++ issued) (sharpModule st)) /\
  forall params, HttpsGet (buildImageUrl (lat coords) (lng coords) params) ∉ issued.
Proof.
  intros metadataUrl issued Hget Hcode Hparse Hstatus. split.
  - unfold createImageWithApi, bind.
    by rewrite (ensureMetadataAvailable_not_OK _ _ _ _ _ _ _ Hget Hcode Hparse Hstatus).
  - intros params Hin. unfold issued in Hin.
    apply elem_of_cons in Hin as [Heq|Hin].
    + injection Heq as Hbase _. discriminate Hbase.
    + apply list_elem_of_singleton in Hin. discriminate Hin.
Qed.


Lemma C2_not_OK_issues_no_image_fetch_witness :
  let W := Sim.world (Sim.network Sim.noneAt22) 1000 Sim.half in
  let options := Sim.options (mkSize (Num.of_Z 1920) (Num.of_Z 1080)) in
  let metadataUrl :=
    mkUrl "https://maps.googleapis.com/maps/api/streetview/metadata"
          [("location", "2,2"); ("key", "KEY"); ("radius", "100"); ("source", "outdoor")] in
  let issued := [HttpsGet metadataUrl;
                 ConsoleError "No Street View available: ZERO_RESULTS"] in
  @createImageWithApi js_host W (Sim.point 2 2) options Sim.start
    = (Exit 1, mkState issued false) /\
  forall params, HttpsGet (@buildImageUrl js_host (Num.of_Z 2) (Num.of_Z 2) params) ∉ issued.
Proof.
  intros W options metadataUrl issued.
  apply (@C2_not_OK_issues_no_image_fetch js_host W (Sim.point 2 2) options Sim.start
           (Some 200%nat) (Sim.Json (mkMetadata (Some "ZERO_RESULTS") None))
           (mkMetadata (Some "ZERO_RESULTS") None)).
  - vm_compute. reflexivity.
  - intros c [= <-]. vm_compute. lia.
  - reflexivity.
  - discriminate.
Defined.

(** ** The Sampler *)

(** C1, at the input where it fails: two candidates, one image wanted;
    the candidate visited first has no imagery (metadata status
    ZERO_RESULTS).  The run is not continued with the second candidate, for
    which the same world delivers an image: [exitWithError] ends the
    process inside the [try] block, after the metadata request of the first
    candidate.  A failure that is thrown (here status code 500 on every
    request) is skipped and reported once, as the shortfall. *)
Theorem C1_unavailable_imagery_ends_the_run :
  let W := Sim.world (Sim.network Sim.noneAt22) 1000 Sim.half in
  let cfg := Sim.config 1 (Some "shot") "api" in
  let metadataUrl location :=
    mkUrl "https://maps.googleapis.com/maps/api/streetview/metadata"
          [("location", location); ("key", "KEY"); ("radius", "100"); ("source", "outdoor")] in
  @shuffleIndices W 2 = [Some 0; Some 1]%nat /\
  @program js_host W cfg [Sim.point 2 2; Sim.point 1 1] Sim.start
    = (Exit 1,
       mkState [Mkdir "/out";
                HttpsGet (metadataUrl "2,2");
                ConsoleError "No Street View available: ZERO_RESULTS"] false) /\
  fst (@program js_host W cfg [Sim.point 1 1] Sim.start) = Return ["/out/shot_1.jpg"] /\
  let W500 := Sim.world Sim.outage 1000 Sim.half in
  @program js_host W500 cfg [Sim.point 2 2; Sim.point 1 1] Sim.start
    = (Exit 1,
       mkState [Mkdir "/out";
                HttpsGet (metadataUrl "2,2");
                HttpsGet (metadataUrl "1,1");
                ConsoleError
                  "Only generated 0 of 1 images due to unavailable Street View or errors."]
               false).
Proof. vm_compute. repeat split; reflexivity. Qed.






Section SamplerFacts.
Context `{Host} `{World}.
Variable cfg : Config.
Variable allCoords : list Coordinates.



Lemma sampleLoop_throw i coords rest s outputs st message st1 :
  (Num.of_nat s >= count cfg)%js = false ->
  allCoords !! i = Some coords ->
  attempt cfg coords (requestedFor cfg coords) s st = (Throw message, st1) ->
  sampleLoop cfg allCoords (Some i :: rest) s outputs st
    = (skip cfg (Some i) message ;;; sampleLoop cfg allCoords rest s outputs) st1.
Proof.
  intros Hs Hi Hat. cbn [sampleLoop]. rewrite Hs.
  cbn [mbind option_bind]. rewrite Hi.
  unfold bind at 1. unfold try_catch, bind at 1. rewrite Hat.
  unfold bind. by destruct (skip cfg (Some i) message st1) as [[[]| |] ?].
Qed.

Lemma sampleLoop_exit i coords rest s outputs st code st1 :
  (Num.of_nat s >= count cfg)%js = false ->
  allCoords !! i = Some coords ->
  attempt cfg coords (requestedFor cfg coords) s st = (Exit code, st1) ->
  sampleLoop cfg allCoords (Some i :: rest) s outputs st = (Exit code, st1).
Proof.
  intros Hs Hi Hat. cbn [sampleLoop]. rewrite Hs.
  cbn [mbind option_bind]. rewrite Hi.
  unfold bind at 1. unfold try_catch, bind at 1. by rewrite Hat.
Qed.

Lemma printAll_history outputs st :
  printAll outputs st
    = (Return tt, mkState (history st ++ (ConsoleLog <$> outputs)) (sharpModule st)).
Proof.
  revert st. induction outputs as [|p outputs IH]; intros st.
  - cbn. rewrite app_nil_r. by destruct st.
  - cbn [printAll]. unfold bind, emit. rewrite IH. cbn. by rewrite <- app_assoc.
Qed.


End SamplerFacts.





(** ** RenderedCapture *)

(** The two guards of the capture read different conditions: the target
    is chosen by [useEmbed] and the key, consent handling by [useEmbed]
    alone.  A call with [useEmbed] set and no key, which [main] never
    makes, navigates to the interactive map without a consent probe.
    With [useEmbed] unset the same target is followed by the six probes
    and the scan of the buttons; with [useEmbed] set and a key the target
    is the direct viewer and consent handling is skipped. *)
Lemma consent_guard_ignores_the_key :
  let W := Sim.world (Sim.network Sim.allOK) 1000 Sim.half in
  let w := Num.of_Z 800 in
  let h := Num.of_Z 600 in
  let events (useEmbed : option bool) (key : option string) :=
    history (snd (@captureStreetViewWithBrowser js_host W (Num.of_Z 1) (Num.of_Z 2)
                    (mkBrowserParams w h key None None None useEmbed) Sim.start)) in
  let interactive :=
    mkUrl "https://www.google.com/maps/@"
          [("api", "1"); ("map_action", "pano"); ("viewpoint", "1,2")] in
  let direct :=
    mkUrl "https://www.google.com/maps/embed/v1/streetview"
          [("key", "KEY"); ("location", "1,2")] in
  events (Some true) None
    = [Launch; NewPage; SetViewport w h 1; Goto interactive 60000;
       Sleep 1500; Screenshot 90; CloseBrowser] /\
  events None None
    = ([Launch; NewPage; SetViewport w h 1; Goto interactive 60000]
       ++ (Query <$> consentCandidates)
       ++ [QueryAll "button"; Sleep 1500; WaitForSelector "canvas" 15000;
           Screenshot 90; CloseBrowser])%list /\
  events (Some true) (Some "KEY")
    = [Launch; NewPage; SetViewport w h 1; Goto direct 60000;
       Sleep 1500; Screenshot 90; CloseBrowser].
Proof. vm_compute. repeat split; reflexivity. Qed.

(* ===================================================================== *)
(** * Further properties *)
(* ===================================================================== *)

(** ** How the effects compose *)

Section Behaves.
Context `{World}.

Lemma behaves_mono {A} (P Q : Event -> Prop) (m : M A) :
  (forall e, P e -> Q e) -> behaves P m -> behaves Q m.
Proof.
  intros HPQ Hm st r st' Hrun.
  destruct (Hm _ _ _ Hrun) as (evs & Hh & HP & Hexit).
  exists evs. split; [done|]. split; [|done].
  eapply Forall_impl; eauto.
Qed.

Lemma behaves_ret {A} P (a : A) : behaves P (ret a).
Proof.
  intros st r st' [= <- <-]. exists []. by rewrite app_nil_r.
Qed.

Lemma behaves_bind {A B} P (m : M A) (k : A -> M B) :
  behaves P m -> (forall a, behaves P (k a)) -> behaves P (bind m k).
Proof.
  intros Hm Hk st r st' Hrun. unfold bind in Hrun.
  destruct (m st) as [[a|e|c] st1] eqn:E1;
    destruct (Hm _ _ _ E1) as (evs1 & Hh1 & HP1 & Hexit1).
  - destruct (Hk a _ _ _ Hrun) as (evs2 & Hh2 & HP2 & Hexit2).
    exists (evs1 ++ evs2)%list. rewrite Hh2, Hh1, app_assoc.
    split; [done|]. split; [by apply Forall_app|].
    destruct r; try done. destruct Hexit2 as (-> & evs' & msg & ->).
    split; [done|]. exists (evs1 ++ evs')%list, msg. by rewrite app_assoc.
  - injection Hrun as <- <-. by exists evs1.
  - injection Hrun as <- <-. by exists evs1.
Qed.

Lemma behaves_emit P (e : Event) : P e -> behaves P (emit e).
Proof.
  intros He st r st' [= <- <-]. exists [e]. cbn. by repeat constructor.
Qed.

Lemma behaves_call {A} P (e : Event) (oracle : History -> answer A) :
  P e -> behaves P (call e oracle).
Proof.
  intros He st r st' Hrun. unfold call in Hrun.
  exists [e]. destruct (oracle (history st)); injection Hrun as <- <-;
    cbn; by repeat constructor.
Qed.

Lemma behaves_exitWithError {A} P (msg : string) :
  P (ConsoleError msg) -> behaves P (@exitWithError _ A msg).
Proof.
  intros He st r st' [= <- <-]. exists [ConsoleError msg]. cbn.
  split; [done|]. split; [by repeat constructor|].
  split; [done|]. by exists [], msg.
Qed.

Lemma behaves_try_catch {A} P (m : M A) (handler : string -> M A) :
  behaves P m -> (forall e, behaves P (handler e)) -> behaves P (try_catch m handler).
Proof.
  intros Hm Hh st r st' Hrun. unfold try_catch in Hrun.
  destruct (m st) as [[a|e|c] st1] eqn:E1;
    destruct (Hm _ _ _ E1) as (evs1 & Hh1 & HP1 & Hexit1).
  - injection Hrun as <- <-. by exists evs1.
  - destruct (Hh e _ _ _ Hrun) as (evs2 & Hh2 & HP2 & Hexit2).
    exists (evs1 ++ evs2)%list. rewrite Hh2, Hh1, app_assoc.
    split; [done|]. split; [by apply Forall_app|].
    destruct r; try done. destruct Hexit2 as (-> & evs' & msg & ->).
    split; [done|]. exists (evs1 ++ evs')%list, msg. by rewrite app_assoc.
  - injection Hrun as <- <-. by exists evs1.
Qed.

Lemma behaves_try_finally {A} P (m : M A) (fin : M unit) :
  behaves P m -> behaves P fin -> behaves P (try_finally m fin).
Proof.
  intros Hm Hf st r st' Hrun. unfold try_finally in Hrun.
  destruct (m st) as [[a|e|c] st1] eqn:E1;
    destruct (Hm _ _ _ E1) as (evs1 & Hh1 & HP1 & Hexit1);
    try (injection Hrun as <- <-; by exists evs1);
    destruct (fin st1) as [[[]|e2|c2] st2] eqn:E2;
    destruct (Hf _ _ _ E2) as (evs2 & Hh2 & HP2 & Hexit2);
    injection Hrun as <- <-;
    exists (evs1 ++ evs2)%list; rewrite Hh2, Hh1, app_assoc;
    (split; [done|]); (split; [by apply Forall_app|]); try done;
    destruct Hexit2 as (-> & evs' & msg & ->);
    (split; [done|]); exists (evs1 ++ evs')%list, msg; by rewrite app_assoc.
Qed.

(** A computation whose events are never error messages never ends the
    process. *)
Lemma behaves_no_exit {A} P (m : M A) st code st' :
  behaves P m -> (forall msg, ~ P (ConsoleError msg)) -> m st <> (Exit code, st').
Proof.
  intros Hm HP Hrun.
  destruct (Hm _ _ _ Hrun) as (evs & _ & Hall & _ & evs' & msg & ->).
  apply Forall_app in Hall as [_ Hlast].
  apply Forall_cons in Hlast as [Hlast _]. by apply (HP msg).
Qed.

End Behaves.

Ltac behaves_auto :=
  repeat first
    [ apply behaves_ret
    | apply behaves_emit
    | apply behaves_call
    | apply behaves_exitWithError
    | apply behaves_bind; [|intros ?]
    | apply behaves_try_catch; [|intros ?]
    | apply behaves_try_finally
    | match goal with
      | |- behaves _ (if ?b then _ else _) => destruct b
      | |- behaves _ (match ?x with _ => _ end) => destruct x
      end
    | done ].

Section BehavesPipeline.
Context `{Host} `{World}.

Lemma behaves_throw {A} P (message : string) :
  behaves P (fun st => (@Throw A message, st)).
Proof. intros st r st' [= <- <-]. exists []. by rewrite app_nil_r. Qed.

Lemma behaves_httpGet P (url : Url) : P (HttpsGet url) -> behaves P (httpGet url).
Proof.
  intros He st r st' Hrun. unfold httpGet in Hrun. exists [HttpsGet url].
  destruct (https_get _ _) as [?|[code|] ?]; [| destruct (_ <=? _)%nat |];
    injection Hrun as <- <-; cbn; by repeat constructor.
Qed.

Lemma behaves_getSharpOrThrow P :
  P ImportSharp -> (forall msg, P (ConsoleError msg)) -> behaves P getSharpOrThrow.
Proof.
  intros Hi He st r st' Hrun. unfold getSharpOrThrow in Hrun.
  destruct (sharpModule st).
  { injection Hrun as <- <-. exists []. by rewrite app_nil_r. }
  destruct (import_sharp _).
  { injection Hrun as <- <-. exists [ImportSharp]. cbn. by repeat constructor. }
  unfold exitWithError in Hrun. injection Hrun as <- <-. cbn.
  eexists [ImportSharp; ConsoleError _]. rewrite <- app_assoc. cbn.
  split; [done|]. split; [by repeat constructor|]. split; [done|].
  by eexists [ImportSharp], _.
Qed.

Lemma behaves_now P : P DateNow -> behaves P now.
Proof.
  intros He st r st' [= <- <-]. exists [DateNow]. cbn. by repeat constructor.
Qed.

Lemma behaves_ensureMetadataAvailable lat lng params :
  behaves apiEvent (ensureMetadataAvailable lat lng params).
Proof.
  unfold ensureMetadataAvailable.
  apply behaves_bind; [by apply behaves_httpGet|]. intros buffer.
  apply behaves_bind.
  { destruct (JSON_parse buffer); [apply behaves_ret | apply behaves_throw]. }
  intros data. behaves_auto.
Qed.

Lemma behaves_createImageWithApi coords options :
  behaves apiEvent (createImageWithApi coords options).
Proof.
  unfold createImageWithApi, downloadImage.
  apply behaves_bind; [apply behaves_ensureMetadataAvailable|]. intros _.
  apply behaves_bind; [behaves_auto|]. intros _.
  apply behaves_bind; [by apply behaves_httpGet|]. intros raw.
  destruct (_ && _); [|apply behaves_ret].
  apply behaves_bind; [by apply behaves_getSharpOrThrow|]. intros _.
  by apply behaves_call.
Qed.

Lemma behaves_probe sel : behaves browserEvent (probe sel).
Proof. unfold probe, sleep. behaves_auto. Qed.

Lemma behaves_probeAll candidates : behaves browserEvent (probeAll candidates).
Proof.
  induction candidates as [|sel rest IH]; cbn [probeAll]; [apply behaves_ret|].
  apply behaves_bind; [apply behaves_probe|]. intros []; [apply behaves_ret | exact IH].
Qed.

Lemma behaves_scanButtons buttons : behaves browserEvent (scanButtons buttons).
Proof.
  induction buttons as [|b rest IH]; cbn [scanButtons]; [apply behaves_ret|].
  apply behaves_bind; [by apply behaves_call|]. intros content.
  destruct (consentText _); [|exact IH]. unfold sleep. behaves_auto.
Qed.

Lemma behaves_tryClickConsent : behaves browserEvent tryClickConsent.
Proof.
  unfold tryClickConsent.
  apply behaves_bind; [apply behaves_probeAll|]. intros []; [apply behaves_ret|].
  apply behaves_try_catch; [|intros; apply behaves_ret].
  apply behaves_bind; [by apply behaves_call|]. intros. apply behaves_scanButtons.
Qed.

Lemma behaves_afterNavigation params :
  behaves browserEvent
    (if negb (useEmbed params) then
       tryClickConsent ;;;
       sleep 1500 ;;;
       try_catch
         (call (WaitForSelector "canvas" 15000)
               (fun h => page_waitForSelector h "canvas"))
         (fun _ => ret tt)
     else sleep 1500).
Proof.
  unfold sleep. destruct (negb _); [|by apply behaves_emit].
  apply behaves_bind; [apply behaves_tryClickConsent|]. intros _. behaves_auto.
Qed.

Lemma behaves_captureStreetViewWithBrowser lat lng params :
  behaves browserEvent (captureStreetViewWithBrowser lat lng params).
Proof.
  unfold captureStreetViewWithBrowser.
  apply behaves_bind; [by apply behaves_call|]. intros _.
  apply behaves_try_finally; [|by apply behaves_call].
  apply behaves_bind; [by apply behaves_call|]. intros _.
  apply behaves_bind; [by apply behaves_call|]. intros _.
  apply behaves_bind; [by apply behaves_call|]. intros _.
  apply behaves_bind; [apply behaves_afterNavigation|]. intros _.
  by apply behaves_call.
Qed.

End BehavesPipeline.

Section SamplerBehaviour.
Context `{Host} `{World}.
Variable cfg : Config.
Variable allCoords : list Coordinates.

Lemma behaves_capture coords requested : behaves anyEvent (capture cfg coords requested).
Proof.
  unfold capture. destruct (String.eqb _ _).
  - eapply behaves_mono; [|apply behaves_captureStreetViewWithBrowser]. done.
  - eapply behaves_mono; [|apply behaves_createImageWithApi]. done.
Qed.

Lemma behaves_buildBaseName prefix coords index :
  behaves anyEvent (buildBaseName prefix coords index).
Proof.
  unfold buildBaseName.
  assert (behaves anyEvent
            (t <- now ;;
             ret (String_of_number (lat coords) ++ "_" ++ String_of_number (lng coords)
                  ++ "_" ++ String_of_number t))).
  { apply behaves_bind; [by apply behaves_now | intros; apply behaves_ret]. }
  destruct prefix as [p|]; [destruct (Str.truthy p)|]; auto using behaves_ret.
Qed.

Lemma behaves_attempt coords requested successes :
  behaves anyEvent (attempt cfg coords requested successes).
Proof.
  unfold attempt.
  apply behaves_bind; [apply behaves_capture|]. intros image.
  apply behaves_bind; [apply behaves_buildBaseName|]. intros baseName.
  behaves_auto.
Qed.

(** A successful attempt ends with the write of the path it returns. *)
Lemma attempt_writes coords requested successes st path st1 :
  attempt cfg coords requested successes st = (Return path, st1) ->
  exists evs image,
    history st1 = (history st ++ evs ++ [WriteFile path image])%list.
Proof.
  unfold attempt, bind at 1. intros Hrun.
  destruct (capture _ _ _ st) as [[image| |] sta] eqn:Ecapture; try discriminate.
  unfold bind at 1 in Hrun.
  destruct (buildBaseName _ _ _ sta) as [[baseName| |] stb] eqn:Ename; try discriminate.
  unfold bind, call, ret in Hrun.
  destruct (writeFileSync _ _ _); [|discriminate]. injection Hrun as <- <-.
  destruct (behaves_capture _ _ _ _ _ Ecapture) as (evs1 & Hh1 & _).
  destruct (behaves_buildBaseName _ _ _ _ _ _ Ename) as (evs2 & Hh2 & _).
  exists (evs1 ++ evs2)%list, image. cbn. rewrite Hh2, Hh1. by rewrite <- !app_assoc.
Qed.

Lemma skip_returns idx message st :
  exists st', skip cfg idx message st = (Return tt, st') /\
    exists evs, history st' = (history st ++ evs)%list /\ written evs = [].
Proof.
  unfold skip. destruct (verbose cfg).
  - eexists. split; [reflexivity|]. by eexists [_].
  - exists st. split; [reflexivity|]. exists []. by rewrite app_nil_r.
Qed.

Lemma written_app (h1 h2 : History) : written (h1 ++ h2) = (written h1 ++ written h2)%list.
Proof. unfold written. apply omap_app. Qed.

(** The loop invariant: the counter is the number of outputs, it does
    not pass a target that is a whole number, and the outputs added are
    among the files written, in the same order. *)
Lemma sampleLoop_invariant indices :
  forall successes outputs st successes' outputs' st',
    sampleLoop cfg allCoords indices successes outputs st
      = (Return (successes', outputs'), st') ->
    length outputs = successes ->
    length outputs' = successes' /\
    (forall K : nat,
       count cfg = Num.of_nat K -> Z.of_nat K < 2 ^ 53 ->
       (successes <= K)%nat -> (successes' <= K)%nat) /\
    exists evs added,
      history st' = (history st ++ evs)%list /\
      outputs' = (outputs ++ added)%list /\
      sublist added (written evs).
Proof.
  induction indices as [|idx rest IH]; intros s outs st s' outs' st' Hrun Hlen.
  { injection Hrun as <- <- <-. split; [done|]. split; [done|].
    exists [], []. by rewrite !app_nil_r. }
  cbn [sampleLoop] in Hrun.
  destruct (Num.of_nat s >= count cfg)%js eqn:Hreached.
  { injection Hrun as <- <- <-. split; [done|]. split; [done|].
    exists [], []. by rewrite !app_nil_r. }
  destruct (idx ≫= _) as [coords|]; [|by eapply IH].
  unfold bind at 1, try_catch, bind at 1 in Hrun.
  destruct (attempt _ _ _ _ st) as [[path|message|code] st1] eqn:Eattempt.
  - cbn in Hrun.
    destruct (IH _ _ _ _ _ _ Hrun) as (Hlen' & Hbound & evs2 & added & Hh & -> & Hsub);
      [rewrite length_app; cbn; lia |].
    destruct (attempt_writes _ _ _ _ _ _ Eattempt) as (evs1 & image & Hh1).
    split; [done|]. split.
    { intros K HK HK53 Hs. apply (Hbound K HK HK53).
      rewrite HK, of_nat_ge in Hreached by lia. apply Nat.leb_gt in Hreached. lia. }
    exists ((evs1 ++ [WriteFile path image]) ++ evs2)%list, (path :: added).
    split; [by rewrite Hh, Hh1, <- !app_assoc|].
    split; [by rewrite <- app_assoc|].
    rewrite !written_app, <- app_assoc. cbn.
    apply sublist_inserts_l. by apply sublist_skip.
  - destruct (skip_returns idx message st1) as (st2 & Hskip & evs0 & Hh0 & _).
    unfold bind at 1 in Hrun. rewrite Hskip in Hrun. cbn in Hrun.
    destruct (IH _ _ _ _ _ _ Hrun) as (Hlen' & Hbound & evs2 & added & Hh & -> & Hsub);
      [done |].
    destruct (behaves_attempt _ _ _ _ _ _ Eattempt) as (evs1 & Hh1 & _).
    split; [done|]. split; [done|].
    exists ((evs1 ++ evs0) ++ evs2)%list, added.
    split; [by rewrite Hh, Hh0, Hh1, <- !app_assoc|]. split; [done|].
    rewrite written_app. by apply sublist_inserts_l.
  - discriminate.
Qed.

(** When every attempt throws, the loop attempts every entry of its list
    and counts nothing. *)
Lemma sampleLoop_all_fail indices :
  (Num.of_nat 0 >= count cfg)%js = false ->
  (forall coords s st0, coords ∈ allCoords ->
     exists message st1,
       attempt cfg coords (requestedFor cfg coords) s st0 = (Throw message, st1)) ->
  Forall (fun o => exists i, o = Some i /\ (i < length allCoords)%nat) indices ->
  forall st0,
    exists st1 visited evs,
      sampleLoop cfg allCoords indices 0 [] st0 = (Return (0%nat, []), st1) /\
      visits cfg allCoords indices 0 [] st0 visited (Return (0%nat, [])) st1 /\
      Some <$> visited = indices /\
      history st1 = (history st0 ++ evs)%list.
Proof.
  intros Hcount Hall Hvalid.
  induction Hvalid as [|o rest (i & -> & Hi) _ IH]; intros st0.
  { exists st0, [], []. split; [done|]. split; [constructor|]. by rewrite app_nil_r. }
  destruct (lookup_lt_is_Some_2 allCoords i Hi) as [coords Hcoords].
  destruct (Hall coords 0%nat st0) as (message & st1 & Hattempt).
  { by eapply list_elem_of_lookup_2. }
  destruct (behaves_attempt _ _ _ _ _ _ Hattempt) as (evs1 & Hh1 & _).
  destruct (skip_returns (Some i) message st1) as (st2 & Hskip & evs2 & Hh2 & _).
  destruct (IH st2) as (st3 & visited & evs3 & Hrest & Hvisits & Hvisited & Hh3).
  exists st3, (i :: visited), (evs1 ++ evs2 ++ evs3)%list. split; [|split; [|split]].
  - rewrite (sampleLoop_throw _ _ _ _ _ _ _ _ _ _ Hcount Hcoords Hattempt).
    unfold bind at 1. by rewrite Hskip.
  - by eapply visits_skip.
  - cbn. by rewrite Hvisited.
  - by rewrite Hh3, Hh2, Hh1, <- !app_assoc.
Qed.

End SamplerBehaviour.

Section ProgramBehaviour.
Context `{Host} `{World}.
Variable cfg : Config.
Variable allCoords : list Coordinates.

Lemma behaves_sampleLoop indices successes outputs :
  behaves anyEvent (sampleLoop cfg allCoords indices successes outputs).
Proof.
  revert successes outputs.
  induction indices as [|idx rest IH]; intros s outs; cbn [sampleLoop].
  { apply behaves_ret. }
  destruct (_ >= _)%js; [apply behaves_ret|].
  destruct (idx ≫= _) as [coords|]; [|apply IH].
  apply behaves_bind.
  - apply behaves_try_catch.
    + apply behaves_bind; [apply behaves_attempt | intros; apply behaves_ret].
    + intros message. apply behaves_bind; [|intros; apply behaves_ret].
      unfold skip. destruct (verbose cfg); [by apply behaves_emit | apply behaves_ret].
  - intros [path|]; apply IH.
Qed.

Lemma behaves_main : behaves anyEvent (main cfg allCoords).
Proof.
  unfold main, ensureDir.
  apply behaves_bind; [by apply behaves_call|]. intros _.
  apply behaves_bind; [apply behaves_sampleLoop|]. intros [successes outputs].
  destruct (Num.gt _ _); [by apply behaves_exitWithError|].
  apply behaves_bind; [|intros; apply behaves_ret].
  intros st r st' Hrun. rewrite printAll_history in Hrun. injection Hrun as <- <-.
  exists (ConsoleLog <$> outputs). split; [done|]. split; [|done].
  by apply Forall_forall.
Qed.

Lemma behaves_program : behaves anyEvent (program cfg allCoords).
Proof.
  unfold program. apply behaves_try_catch; [apply behaves_main|].
  intros message. by apply behaves_exitWithError.
Qed.

End ProgramBehaviour.

(** X1: the process never dies of an uncaught error and never silently: the
    program either returns, or exits with code 1 right after writing an
    error message; the events already in the history stay. *)
Theorem program_returns_or_exits_with_message `{Host} `{World}
    (cfg : Config) (allCoords : list Coordinates) (st : state) :
  exists r st' evs,
    program cfg allCoords st = (r, st') /\
    history st' = (history st ++ evs)%list /\
    match r with
    | Return outputs => True
    | Throw _ => False
    | Exit code => code = 1%nat /\ exists evs' msg, evs = (evs' ++ [ConsoleError msg])%list
    end.
Proof.
  destruct (program cfg allCoords st) as [r st'] eqn:Hrun.
  destruct (behaves_program cfg allCoords _ _ _ Hrun) as (evs & Hh & _ & Hexit).
  exists r, st', evs. split; [done|]. split; [done|].
  destruct r as [outputs|message|code]; [done| |done].
  unfold program, try_catch in Hrun.
  destruct (main cfg allCoords st) as [[?|?|?] ?]; discriminate.
Qed.

(** X2: whenever the program returns, the number of outputs is not below
    the target, and when the target is a whole number it is exactly the
    target; the outputs are the last lines printed, and each of them was
    handed to [writeFileSync] before, in the same order. *)
Theorem program_returns_count_when_whole `{Host} `{World}
    (cfg : Config) (allCoords : list Coordinates) (st st' : state)
    (outputs : list string) :
  program cfg allCoords st = (Return outputs, st') ->
  (Num.of_nat (length outputs) < count cfg)%js = false /\
  (forall K : nat,
     count cfg = Num.of_nat K -> Z.of_nat K < 2 ^ 53 -> length outputs = K) /\
  exists evs,
    history st' = (history st ++ evs ++ (ConsoleLog <$> outputs))%list /\
    outputs `sublist_of` written evs.
Proof.
  unfold program, try_catch. intros Hrun.
  destruct (main cfg allCoords st) as [[outs|message|code] st1] eqn:Hmain;
    try discriminate.
  injection Hrun as -> ->.
  unfold main, bind at 1, ensureDir, call in Hmain.
  destruct (mkdirSync _ _); [|discriminate].
  unfold bind at 1 in Hmain.
  destruct (sampleLoop _ _ _ _ _ _) as [[[successes outs]|?|?] st2] eqn:Hloop;
    try discriminate.
  destruct (sampleLoop_invariant _ _ _ _ _ _ _ _ _ Hloop)
    as (Hlen & Hbound & evs & added & Hh & Hadded & Hsub); [done|].
  cbn in Hadded. subst added.
  destruct (Num.of_nat successes < count cfg)%js eqn:Hshort; [discriminate|].
  unfold bind in Hmain. rewrite printAll_history in Hmain.
  injection Hmain as <- <-. cbn in *.
  split; [by rewrite Hlen|]. split.
  { intros K HK HK53. pose proof (Hbound K HK HK53 ltac:(lia)) as Hle.
    rewrite HK, of_nat_lt in Hshort by lia. apply Nat.ltb_ge in Hshort. lia. }
  exists (Mkdir (outputDir cfg) :: evs). rewrite Hh. cbn.
  split; [by rewrite <- !app_assoc|]. exact Hsub.
Qed.

(** X3: when the target is above zero and every attempt throws, every
    candidate is attempted once, in the visiting order, and skipped;
    nothing is returned and the run ends with the shortfall message for
    0 images. *)
Theorem all_attempts_fail_reports_shortfall `{Host} `{World}
    (cfg : Config) (allCoords : list Coordinates) (st : state) :
  (count cfg > n0)%js = true ->
  (forall k, Num.unit_interval (Math_random k) = true) ->
  Z.of_nat (length allCoords) < 2 ^ 32 ->
  (forall h dir, mkdirSync h dir = Resolved tt) ->
  (forall coords s st0, coords ∈ allCoords ->
     exists message st1,
       attempt cfg coords (requestedFor cfg coords) s st0 = (Throw message, st1)) ->
  let order := shuffleIndices (length allCoords) in
  let st0 := mkState (history st ++ [Mkdir (outputDir cfg)]) (sharpModule st) in
  exists st1 visited evs,
    visits cfg allCoords order 0 [] st0 visited (Return (0%nat, [])) st1 /\
    Some <$> visited = order /\
    visited ≡ₚ seq 0 (length allCoords) /\
    history st1 = (history st0 ++ evs)%list /\
    program cfg allCoords st
      = (Exit 1, mkState (history st1 ++ [ConsoleError (shortfallMessage cfg 0)])
                         (sharpModule st1)).
Proof.
  intros Hcount Hrandom HN Hmkdir Hall order st0.
  pose proof (positive_not_reached _ Hcount) as Hzero.
  destruct (sampleLoop_all_fail cfg allCoords order Hzero Hall
              (shuffleIndices_valid Hrandom _ HN) st0)
    as (st1 & visited & evs & Hrun & Hvisits & Hvisited & Hh).
  exists st1, visited, evs. split; [done|]. split; [done|]. split; [|split; [done|]].
  - assert (Hsome : forall l : list nat, omap id (Some <$> l) = l).
    { induction l as [|x l IHl]; [done|]. cbn. by rewrite IHl. }
    rewrite <- (Hsome visited), <- (Hsome (seq 0 (length allCoords))), Hvisited.
    apply omap_Permutation. by apply shuffleIndices_perm.
  - unfold program, try_catch, main, bind at 1, ensureDir, call. rewrite Hmkdir.
    fold st0. fold order. unfold bind at 1. rewrite Hrun.
    change (Num.of_nat 0) with n0. unfold Num.gt in Hcount |- *. by rewrite Hcount.
Qed.

(** ** RemoteApiCapture, beyond the guard *)

Section ApiBehaviour.
Context `{Host} `{World}.

Lemma requests_app (h1 h2 : History) :
  requests (h1 ++ h2) = (requests h1 ++ requests h2)%list.
Proof. unfold requests. apply omap_app. Qed.

Lemma httpGet_resolved url st code body :
  https_get (history st) url = Response code body ->
  accepted code ->
  httpGet url st = (Return body, mkState (history st ++ [HttpsGet url]) (sharpModule st)).
Proof.
  intros Hget Hcode. unfold httpGet. rewrite Hget.
  destruct code as [c|]; [|reflexivity].
  specialize (Hcode c eq_refl). destruct (Nat.leb_spec 400 c); [lia | reflexivity].
Qed.

(** What [httpGet] can do: one request, then the body or a thrown error. *)
Lemma httpGet_cases url st :
  exists r,
    httpGet url st = (r, mkState (history st ++ [HttpsGet url]) (sharpModule st)) /\
    match r with
    | Return body => exists code, https_get (history st) url = Response code body /\ accepted code
    | Throw _ => True
    | Exit _ => False
    end.
Proof.
  unfold httpGet. destruct (https_get _ _) as [message|[code|] body] eqn:Hget.
  - by eexists.
  - destruct (Nat.leb_spec 400 code); eexists; (split; [reflexivity|]); [done|].
    exists (Some code). split; [done|]. intros c [= <-]. lia.
  - eexists. split; [reflexivity|]. exists None. split; [done|]. by intros c.
Qed.

Lemma ensureMetadataAvailable_OK lat lng params st code body data :
  https_get (history st) (buildMetadataUrl lat lng params) = Response code body ->
  accepted code ->
  JSON_parse body = Resolved data ->
  status data = Some "OK" ->
  ensureMetadataAvailable lat lng params st
    = (Return data,
       mkState (history st ++ [HttpsGet (buildMetadataUrl lat lng params)]) (sharpModule st)).
Proof.
  intros Hget Hcode Hparse Hstatus. unfold ensureMetadataAvailable, bind.
  rewrite (httpGet_resolved _ _ _ _ Hget Hcode), Hparse.
  unfold statusIsOK. by rewrite Hstatus.
Qed.

(** How a sequence ends: the first part returned and the rest ran, or
    the first part ended the sequence. *)
Lemma bind_inv {A B} (m : M A) (k : A -> M B) st r st' :
  bind m k st = (r, st') ->
  (exists a st1, m st = (Return a, st1) /\ k a st1 = (r, st')) \/
  (exists e, m st = (Throw e, st') /\ r = Throw e) \/
  (exists c, m st = (Exit c, st') /\ r = Exit c).
Proof.
  unfold bind. destruct (m st) as [[a|e|c] st1]; intros Hrun.
  - left. eauto.
  - right; left. injection Hrun as <- <-. eauto.
  - right; right. injection Hrun as <- <-. eauto.
Qed.

Lemma quiet_requests (evs : History) : Forall quiet evs -> requests evs = [].
Proof.
  induction 1 as [|e evs He _ IH]; [done|].
  change (e :: evs) with ([e] ++ evs)%list. by rewrite requests_app, He, IH.
Qed.

Lemma behaves_quiet {A} (m : M A) st r st' :
  behaves quiet m -> m st = (r, st') ->
  exists evs, history st' = (history st ++ evs)%list /\ requests evs = [].
Proof.
  intros Hm Hrun. destruct (Hm _ _ _ Hrun) as (evs & Hh & Hquiet & _).
  exists evs. split; [done|]. by apply quiet_requests.
Qed.

(** The metadata guard sends exactly one request, whatever its outcome. *)
Lemma ensureMetadataAvailable_one_request lat lng params st r st' :
  ensureMetadataAvailable lat lng params st = (r, st') ->
  exists evs, history st' = (history st ++ HttpsGet (buildMetadataUrl lat lng params) :: evs)%list
              /\ requests evs = [].
Proof.
  unfold ensureMetadataAvailable. intros Hrun.
  destruct (httpGet_cases (buildMetadataUrl lat lng params) st) as (r0 & Hget & _).
  apply bind_inv in Hrun as [(buffer & st1 & Hget' & Hrest) | [(e & Hget' & _) | (c & Hget' & _)]];
    rewrite Hget in Hget'; injection Hget' as _ <-.
  2,3: by exists [].
  eapply (behaves_quiet _ _ _ _) in Hrest as (evs & Hh & Hreq).
  - exists evs. split; [|done]. rewrite Hh. cbn. by rewrite <- app_assoc.
  - apply behaves_bind.
    + destruct (JSON_parse buffer); [apply behaves_ret | apply behaves_throw].
    + intros data. destruct (negb _); [by apply behaves_exitWithError | apply behaves_ret].
Qed.

End ApiBehaviour.

(** X4: a failure of the metadata request itself (no connection, a status code
    of 400 or more, or a body that is not JSON) is thrown, not fatal: the
    attempt ends after that single request and no image is fetched. *)
Theorem metadata_request_failure_is_thrown `{Host} `{World}
    (coords : Coordinates) (options : ApiOptions) (st : state) :
  let url := metadataRequest coords options in
  (exists message, https_get (history st) url = ConnectionError message) \/
  (exists code body, https_get (history st) url = Response (Some code) body /\
                     (400 <= code)%nat) \/
  (exists code body message, https_get (history st) url = Response code body /\
                             accepted code /\ JSON_parse body = Rejected message) ->
  exists message,
    createImageWithApi coords options st
      = (Throw message, mkState (history st ++ [HttpsGet url]) (sharpModule st)).
Proof.
  intros url Hfail. unfold createImageWithApi, bind at 1, ensureMetadataAvailable, bind at 1.
  fold (metadataRequest coords options). fold url.
  destruct Hfail as [(message & Hget) | [(code & body & Hget & Hcode)
                     | (code & body & message & Hget & Hcode & Hparse)]].
  - exists message. unfold httpGet. by rewrite Hget.
  - eexists. unfold httpGet. rewrite Hget.
    destruct (Nat.leb_spec 400 code); [reflexivity | lia].
  - exists message. rewrite (httpGet_resolved _ _ _ _ Hget Hcode).
    unfold bind. by rewrite Hparse.
Qed.

Lemma createImageWithApi_requests `{Host} `{World}
    (coords : Coordinates) (options : ApiOptions) (st st' : state)
    (r : outcome Buffer) :
  createImageWithApi coords options st = (r, st') ->
  exists evs,
    history st' = (history st ++ evs)%list /\
    (requests evs = [metadataRequest coords options] \/
     requests evs = [metadataRequest coords options; imageRequest coords options]) /\
    (forall image, r = Return image ->
       requests evs = [metadataRequest coords options; imageRequest coords options]).
Proof.
  intros Hrun. unfold createImageWithApi in Hrun.
  fold (imageRequest coords options) in Hrun.
  assert (Hone : forall st1 r1, ensureMetadataAvailable (lat coords) (lng coords)
                            (metadataParams options) st = (r1, st1) ->
            exists evs1, history st1
                         = (history st ++ HttpsGet (metadataRequest coords options) :: evs1)%list
                         /\ requests evs1 = []).
  { intros st1 r1. apply ensureMetadataAvailable_one_request. }
  apply bind_inv in Hrun as [(data & st1 & Hmeta & Hrun) | [(e & Hmeta & ->) | (c & Hmeta & ->)]].
  2,3: destruct (Hone _ _ Hmeta) as (evs1 & Hh1 & Hreq1).
  2,3: exists (HttpsGet (metadataRequest coords options) :: evs1).
  2,3: split; [done|]; split; [left|discriminate].
  2,3: change (_ :: evs1) with ([HttpsGet (metadataRequest coords options)] ++ evs1)%list.
  2,3: by rewrite requests_app, Hreq1.
  destruct (Hone _ _ Hmeta) as (evs1 & Hh1 & Hreq1).
  apply bind_inv in Hrun as [([] & st2 & Hlog & Hrun) | [(e & Hlog & ->) | (c & Hlog & ->)]].
  2,3: destruct (o_verbose options); discriminate.
  assert (Hh2 : exists evs2, history st2 = (history st1 ++ evs2)%list /\ requests evs2 = []).
  { destruct (o_verbose options); injection Hlog as <-.
    - by eexists [_].
    - exists []. by rewrite app_nil_r. }
  destruct Hh2 as (evs2 & Hh2 & Hreq2).
  destruct (httpGet_cases (imageRequest coords options) st2) as (r3 & Hget & _).
  assert (Hsent : forall evs4 : History,
            requests evs4 = [] ->
            requests (HttpsGet (metadataRequest coords options) :: evs1 ++ evs2
                      ++ HttpsGet (imageRequest coords options) :: evs4)
            = [metadataRequest coords options; imageRequest coords options]).
  { intros evs4 Hreq4.
    change (requests ([HttpsGet (metadataRequest coords options)] ++ evs1 ++ evs2
                      ++ [HttpsGet (imageRequest coords options)] ++ evs4)
            = [metadataRequest coords options; imageRequest coords options]).
    by rewrite !requests_app, Hreq1, Hreq2, Hreq4. }
  assert (Hhist : forall (evs4 : History) (h : History),
            h = ((history st2 ++ [HttpsGet (imageRequest coords options)]) ++ evs4)%list ->
            h = (history st ++ HttpsGet (metadataRequest coords options) :: evs1 ++ evs2
                 ++ HttpsGet (imageRequest coords options) :: evs4)%list).
  { intros evs4 h ->. rewrite Hh2, Hh1. by rewrite <- !app_assoc. }
  unfold downloadImage in Hrun.
  apply bind_inv in Hrun as [(raw & st3 & Hget' & Hrun) | [(e & Hget' & ->) | (c & Hget' & ->)]];
    rewrite Hget in Hget'; injection Hget' as _ <-.
  2,3: eexists; split; [apply (Hhist []); by rewrite app_nil_r|].
  2,3: rewrite (Hsent []) by done; split; [by right | discriminate].
  eapply (behaves_quiet _ _ _ _) in Hrun as (evs4 & Hh4 & Hreq4).
  - eexists. split; [apply (Hhist evs4); exact Hh4|].
    rewrite (Hsent evs4) by done. split; [by right | done].
  - destruct (_ && _); [|apply behaves_ret].
    apply behaves_bind; [by apply behaves_getSharpOrThrow|]. intros _.
    by apply behaves_call.
Qed.

(** X5: one API capture sends at most two requests: the metadata request
    first and, only after it, the image request built from the logical
    size and the effective scale; a capture that returns has sent both. *)
Theorem createImageWithApi_sends_at_most_two_requests `{Host} `{World}
    (coords : Coordinates) (options : ApiOptions) (st : state) :
  exists r st' evs,
    createImageWithApi coords options st = (r, st') /\
    history st' = (history st ++ evs)%list /\
    (requests evs = [metadataRequest coords options] \/
     requests evs = [metadataRequest coords options; imageRequest coords options]) /\
    (forall image, r = Return image ->
       requests evs = [metadataRequest coords options; imageRequest coords options]).
Proof.
  destruct (createImageWithApi coords options st) as [r st'] eqn:Hrun.
  destruct (createImageWithApi_requests coords options st st' r Hrun) as (evs & Hevs).
  by exists r, st', evs.
Qed.

(** X6: a request for a size with a dimension that is not positive skips the
    resize: the bytes of the image response are returned as they are and
    the image library is neither loaded nor called. *)
Theorem unsized_request_returns_raw_image `{Host} `{World}
    (coords : Coordinates) (options : ApiOptions) (st : state)
    (code code' : option nat) (body raw : Buffer) (data : Metadata) :
  (width (o_requested options) > n0)%js && (height (o_requested options) > n0)%js = false ->
  https_get (history st) (metadataRequest coords options) = Response code body ->
  accepted code ->
  JSON_parse body = Resolved data ->
  status data = Some "OK" ->
  (forall h, https_get h (imageRequest coords options) = Response code' raw) ->
  accepted code' ->
  exists st' log,
    createImageWithApi coords options st = (Return raw, st') /\
    sharpModule st' = sharpModule st /\
    history st' = (history st ++ [HttpsGet (metadataRequest coords options)] ++ log
                   ++ [HttpsGet (imageRequest coords options)])%list /\
    Forall (fun e => exists msg, e = ConsoleLog msg) log.
Proof.
  intros Hsize Hmeta Hcode Hparse Hstatus Himage Hcode'.
  unfold createImageWithApi, bind at 1.
  rewrite (ensureMetadataAvailable_OK _ _ _ _ _ _ _ Hmeta Hcode Hparse Hstatus).
  fold (imageRequest coords options). fold (metadataRequest coords options).
  unfold downloadImage. rewrite Hsize.
  destruct (o_verbose options).
  - unfold bind at 1, emit. unfold bind.
    rewrite (httpGet_resolved _ _ _ _ (Himage _) Hcode').
    eexists _, [_]. split; [reflexivity|]. split; [reflexivity|]. cbn.
    split; [by rewrite <- !app_assoc|]. repeat constructor. by eexists.
  - unfold bind at 1, ret. unfold bind.
    rewrite (httpGet_resolved _ _ _ _ (Himage _) Hcode').
    eexists _, []. split; [reflexivity|]. split; [reflexivity|]. cbn.
    split; [by rewrite <- !app_assoc|]. constructor.
Qed.

(** ** RenderedCapture, beyond the consent guard *)

Section BrowserBehaviour.
Context `{Host} `{World}.

Lemma browserEvent_not_error msg : ~ browserEvent (ConsoleError msg).
Proof. intros []. Qed.

(** A computation made of browser events only and guarded by a handler
    that returns always returns. *)
Lemma try_catch_returns {A} (m : M A) (a : A) st :
  behaves browserEvent m ->
  exists a' st', try_catch m (fun _ => ret a) st = (Return a', st').
Proof.
  intros Hm. unfold try_catch.
  destruct (m st) as [[a'|e|c] st1] eqn:Hrun; [by eauto | by eexists _, _ |].
  by destruct (behaves_no_exit _ _ _ _ _ Hm browserEvent_not_error Hrun).
Qed.

Lemma probe_returns sel st : exists b st', probe sel st = (Return b, st').
Proof.
  unfold probe. apply try_catch_returns. unfold sleep. behaves_auto.
Qed.

Lemma probeAll_returns candidates st :
  exists b st', probeAll candidates st = (Return b, st').
Proof.
  revert st. induction candidates as [|sel rest IH]; intros st; cbn [probeAll].
  { by eexists _, _. }
  destruct (probe_returns sel st) as ([] & st1 & Hprobe);
    unfold bind; rewrite Hprobe; [by eexists _, _ | apply IH].
Qed.

(** [try { body } finally { close }] around a body of browser events: the
    closing call is made last, whatever the body did. *)
Lemma try_finally_closes {A} (body : M A) (e : Event) (oracle : History -> answer unit)
    st r st' :
  behaves browserEvent body ->
  try_finally body (call e oracle) st = (r, st') ->
  (forall code, r <> Exit code) /\
  exists evs, history st' = (history st ++ evs ++ [e])%list /\ Forall browserEvent evs.
Proof.
  intros Hbody Hrun. unfold try_finally in Hrun.
  destruct (body st) as [[a|message|code] st1] eqn:Hb.
  3:{ by destruct (behaves_no_exit _ _ _ _ _ Hbody browserEvent_not_error Hb). }
  all: destruct (Hbody _ _ _ Hb) as (evs & Hh & Hall & _).
  all: unfold call in Hrun; destruct (oracle (history st1)) as [[]|?];
    injection Hrun as <- <-.
  all: split; [done|]; exists evs; cbn; by rewrite Hh, <- app_assoc.
Qed.

End BrowserBehaviour.

Lemma tryClickConsent_returns `{Host} `{World} (st : state) :
  exists st', tryClickConsent st = (Return tt, st').
Proof.
  unfold tryClickConsent, bind at 1.
  destruct (probeAll_returns consentCandidates st) as ([] & st1 & ->).
  { by eexists. }
  edestruct (try_catch_returns
               (buttons <- call (QueryAll "button") (fun h => page_queryAll h "button") ;;
                scanButtons buttons) tt st1) as ([] & st2 & ->).
  - apply behaves_bind; [by apply behaves_call|]. intros. apply behaves_scanButtons.
  - by eexists.
Qed.

Section ConsentFacts.
Context `{Host} `{World}.

Lemma probes_app (h1 h2 : History) : probes (h1 ++ h2) = (probes h1 ++ probes h2)%list.
Proof. unfold probes. apply omap_app. Qed.

Lemma afterProbes_browserEvent (e : Event) : afterProbes e -> browserEvent e.
Proof. by destruct e. Qed.

Lemma afterProbes_probes (evs : History) : Forall afterProbes evs -> probes evs = [].
Proof.
  induction 1 as [|e evs He _ IH]; [done|].
  change (e :: evs) with ([e] ++ evs)%list. rewrite probes_app, IH. by destruct e.
Qed.

(** One probe asks for its selector once, whatever follows. *)
Lemma probe_probes sel st :
  exists b st' evs,
    probe sel st = (Return b, st') /\
    history st' = (history st ++ evs)%list /\ probes evs = [sel].
Proof.
  unfold probe, try_catch, bind at 1, call at 1.
  destruct (page_query (history st) sel) as [[el|]|?].
  - unfold bind at 1, call at 1. cbn [history].
    destruct (element_click _ el) as [[]|?].
    + eexists _, _, [Query sel; Click el; Sleep 500]. cbn.
      split; [reflexivity|]. split; [|done]. by rewrite <- !app_assoc.
    + eexists _, _, [Query sel; Click el]. cbn.
      split; [reflexivity|]. split; [|done]. by rewrite <- !app_assoc.
  - by eexists _, _, [Query sel].
  - by eexists _, _, [Query sel].
Qed.

(** The probes are made in the order of the list, up to the first one
    that dismisses the overlay. *)
Lemma probeAll_probes candidates st :
  exists b st' evs k,
    probeAll candidates st = (Return b, st') /\
    history st' = (history st ++ evs)%list /\
    probes evs = take k candidates /\
    (candidates <> [] -> (0 < k)%nat).
Proof.
  revert st. induction candidates as [|sel rest IH]; intros st; cbn [probeAll].
  { exists false, st, [], 0%nat. by rewrite app_nil_r. }
  destruct (probe_probes sel st) as (b & st1 & evs1 & Hprobe & Hh1 & Hp1).
  unfold bind. rewrite Hprobe. destruct b.
  - exists true, st1, evs1, 1%nat. split; [done|]. split; [done|].
    split; [by rewrite Hp1 | lia].
  - destruct (IH st1) as (b & st2 & evs2 & k & Hrest & Hh2 & Hp2 & _).
    exists b, st2, (evs1 ++ evs2)%list, (S k). split; [done|].
    split; [by rewrite Hh2, Hh1, <- app_assoc|].
    split; [by rewrite probes_app, Hp1, Hp2 | lia].
Qed.

Lemma behaves_scan_afterProbes :
  behaves afterProbes
    (buttons <- call (QueryAll "button") (fun h => page_queryAll h "button") ;;
     scanButtons buttons).
Proof.
  apply behaves_bind; [by apply behaves_call|]. intros buttons.
  induction buttons as [|b rest IH]; cbn [scanButtons]; [apply behaves_ret|].
  apply behaves_bind; [by apply behaves_call|]. intros content.
  destruct (consentText _); [|exact IH]. unfold sleep. behaves_auto.
Qed.

(** [tryClickConsent] returns after a non-empty initial segment of the
    ordered probe list. *)
Lemma tryClickConsent_probes st :
  exists st' evs k,
    tryClickConsent st = (Return tt, st') /\
    history st' = (history st ++ evs)%list /\
    probes evs = take k consentCandidates /\ (0 < k)%nat.
Proof.
  unfold tryClickConsent, bind at 1.
  destruct (probeAll_probes consentCandidates st)
    as (b & st1 & evs1 & k & -> & Hh1 & Hp1 & Hk).
  specialize (Hk ltac:(done)).
  destruct b; [by exists st1, evs1, k|].
  set (scan := bind _ _).
  destruct (try_catch scan (fun _ => ret tt) st1) as [r st2] eqn:Hrun.
  assert (Hscan : behaves afterProbes (try_catch scan (fun _ => ret tt))).
  { apply behaves_try_catch; [apply behaves_scan_afterProbes | intros; apply behaves_ret]. }
  destruct (Hscan _ _ _ Hrun) as (evs2 & Hh2 & Hall & _).
  destruct (try_catch_returns scan tt st1) as ([] & st2' & Hret).
  { eapply behaves_mono; [apply afterProbes_browserEvent | apply behaves_scan_afterProbes]. }
  rewrite Hrun in Hret. injection Hret as -> <-.
  exists st2, (evs1 ++ evs2)%list, k. split; [done|].
  split; [by rewrite Hh2, Hh1, <- app_assoc|].
  split; [|done]. by rewrite probes_app, Hp1, (afterProbes_probes _ Hall), app_nil_r.
Qed.

End ConsentFacts.

(** C9: for every capture that carries a key whenever [useEmbed] is set
    (every capture [main] makes does, and so does every capture with
    [useEmbed] unset) and that gets as far as the navigation: consent
    dismissal is attempted exactly when the interactive map is the
    navigation target, by probing an initial, non-empty segment of the
    ordered candidate list; and it is skipped, with the settle delay as
    the only step before the screenshot, exactly when the direct viewer
    is the navigation target. *)
Theorem C9_consent_follows_navigation_target `{Host} `{World}
    (lat lng : number) (params : BrowserParams) (st : state) :
  (useEmbed params = true -> hasKey params = true) ->
  (forall h, puppeteer_launch h = Resolved tt) ->
  (forall h, browser_newPage h = Resolved tt) ->
  (forall h w v, page_setViewport h w v = Resolved tt) ->
  (forall h url, page_goto h url = Resolved tt) ->
  let target := navigationTarget lat lng params in
  exists r st' evs,
    captureStreetViewWithBrowser lat lng params st = (r, st') /\
    history st'
      = (history st
         ++ [Launch; NewPage; SetViewport (bp_width params) (bp_height params) 1;
             Goto target 60000]
         ++ evs)%list /\
    (target = buildMapsPanoUrl lat lng params <->
     exists k, (0 < k)%nat /\ probes evs = take k consentCandidates) /\
    (target = buildEmbedStreetViewUrl lat lng params <->
     evs = [Sleep 1500; Screenshot 90; CloseBrowser]).
Proof.
  intros Hguard Hlaunch Hpage Hview Hgoto target.
  assert (Hne : buildMapsPanoUrl lat lng params <> buildEmbedStreetViewUrl lat lng params).
  { intros Heq. apply (f_equal base) in Heq. discriminate. }
  unfold captureStreetViewWithBrowser. fold target.
  unfold bind at 1, call at 1. rewrite Hlaunch.
  unfold try_finally, bind at 1, call at 1. rewrite Hpage.
  unfold bind at 1, call at 1. rewrite Hview.
  unfold bind at 1, call at 1. rewrite Hgoto.
  unfold bind at 1. cbn [history sharpModule].
  set (st0 := mkState _ _).
  assert (Hst0 : history st0
                 = (history st
                    ++ [Launch; NewPage;
                        SetViewport (bp_width params) (bp_height params) 1;
                        Goto target 60000])%list).
  { unfold st0. cbn [history]. by rewrite <- !app_assoc. }
  clearbody st0.
  destruct (useEmbed params) eqn:Hembed; cbn [negb].
  - assert (Htarget : target = buildEmbedStreetViewUrl lat lng params).
    { unfold target, navigationTarget. by rewrite Hembed, (Hguard eq_refl). }
    assert (Hiff : (target = buildMapsPanoUrl lat lng params <->
                    exists k, (0 < k)%nat /\
                      probes [Sleep 1500; Screenshot 90; CloseBrowser]
                      = take k consentCandidates) /\
                   (target = buildEmbedStreetViewUrl lat lng params <->
                    ([Sleep 1500; Screenshot 90; CloseBrowser] : History)
                    = [Sleep 1500; Screenshot 90; CloseBrowser])).
    { rewrite Htarget. split; [|done].
      split; [intros Heq; by destruct Hne|].
      intros (k & Hk & Hp). destruct k; [lia | discriminate]. }
    unfold bind, sleep, emit, call. cbn [history sharpModule].
    destruct (page_screenshot _) as [?|?], (browser_close _) as [[]|?];
      eexists _, _, [Sleep 1500; Screenshot 90; CloseBrowser];
      (split; [reflexivity|]); (split; [|exact Hiff]);
      cbn [history]; by rewrite Hst0, <- !app_assoc.
  - assert (Htarget : target = buildMapsPanoUrl lat lng params).
    { unfold target, navigationTarget. by rewrite Hembed. }
    destruct (tryClickConsent_probes st0) as (st1 & evsC & k & Hconsent & Hh1 & Hp & Hk).
    set (tail := [Sleep 1500; WaitForSelector "canvas" 15000; Screenshot 90; CloseBrowser]
                   : History).
    assert (Hiff : (target = buildMapsPanoUrl lat lng params <->
                    exists k, (0 < k)%nat /\
                      probes (evsC ++ tail) = take k consentCandidates) /\
                   (target = buildEmbedStreetViewUrl lat lng params <->
                    (evsC ++ tail)%list = [Sleep 1500; Screenshot 90; CloseBrowser])).
    { rewrite Htarget. split.
      - split; [|done]. intros _. exists k. split; [done|].
        by rewrite probes_app, Hp, app_nil_r.
      - split; [intros Heq; by destruct Hne|].
        intros Heq. apply (f_equal probes) in Heq.
        rewrite probes_app, Hp in Heq. cbn in Heq.
        destruct k; [lia | discriminate]. }
    unfold bind. rewrite Hconsent.
    unfold sleep, emit, try_catch, call. cbn [history sharpModule].
    destruct (page_waitForSelector _ _) as [[]|?]; cbn [history sharpModule ret];
      destruct (page_screenshot _) as [?|?]; cbn [history sharpModule];
      destruct (browser_close _) as [[]|?];
      eexists _, _, (evsC ++ tail)%list;
      (split; [reflexivity|]); (split; [|exact Hiff]);
      cbn [history]; by rewrite Hh1, Hst0, <- !app_assoc.
Qed.

Lemma C9_consent_follows_navigation_target_witness :
  let W := Sim.world (Sim.network Sim.allOK) 1000 Sim.half in
  let interactive := mkBrowserParams (Num.of_Z 800) (Num.of_Z 600) None None None None None in
  let direct :=
    pipelineBrowserParams (Sim.config 1 None "browser") (Sim.point 1 2)
      (mkSize (Num.of_Z 800) (Num.of_Z 600)) in
  let run (params : BrowserParams) :=
    exists r st' evs,
      @captureStreetViewWithBrowser js_host W (Num.of_Z 1) (Num.of_Z 2) params Sim.start
        = (r, st') /\
      history st'
        = (history (@Sim.start W)
           ++ [Launch; NewPage; SetViewport (bp_width params) (bp_height params) 1;
               Goto (@navigationTarget js_host (Num.of_Z 1) (Num.of_Z 2) params) 60000]
           ++ evs)%list /\
      (@navigationTarget js_host (Num.of_Z 1) (Num.of_Z 2) params
         = @buildMapsPanoUrl js_host (Num.of_Z 1) (Num.of_Z 2) params <->
       exists k, (0 < k)%nat /\ probes evs = take k consentCandidates) /\
      (@navigationTarget js_host (Num.of_Z 1) (Num.of_Z 2) params
         = @buildEmbedStreetViewUrl js_host (Num.of_Z 1) (Num.of_Z 2) params <->
       evs = [Sleep 1500; Screenshot 90; CloseBrowser]) in
  run interactive /\ run direct.
Proof.
  intros W interactive direct run. split.
  - apply (@C9_consent_follows_navigation_target js_host W (Num.of_Z 1) (Num.of_Z 2)
             interactive Sim.start); [discriminate | done..].
  - apply (@C9_consent_follows_navigation_target js_host W (Num.of_Z 1) (Num.of_Z 2)
             direct Sim.start); [reflexivity | done..].
Defined.

(** X7: consent handling is best effort: whatever the page answers (missing
    elements, failing queries, failing clicks), [tryClickConsent] returns
    normally. *)
Theorem tryClickConsent_never_fails `{Host} `{World} (st : state) :
  exists st', tryClickConsent st = (Return tt, st').
Proof. apply tryClickConsent_returns. Qed.

(** X8: the browser is a scoped resource: a capture never ends the process
    and touches nothing but the browser; when the launch fails nothing
    else is called, and when it succeeds the last call is the one that
    closes the browser, whether the capture returns or throws. *)
Theorem browser_is_always_closed `{Host} `{World}
    (lat lng : number) (params : BrowserParams) (st : state) :
  exists r st' evs,
    captureStreetViewWithBrowser lat lng params st = (r, st') /\
    history st' = (history st ++ Launch :: evs)%list /\
    Forall browserEvent evs /\
    (forall code, r <> Exit code) /\
    match puppeteer_launch (history st) with
    | Rejected message => r = Throw message /\ evs = []
    | Resolved _ => exists evs', evs = (evs' ++ [CloseBrowser])%list
    end.
Proof.
  destruct (captureStreetViewWithBrowser lat lng params st) as [r st'] eqn:Hrun.
  exists r, st'.
  unfold captureStreetViewWithBrowser, bind at 1, call at 1 in Hrun.
  destruct (puppeteer_launch (history st)) as [[]|message].
  2:{ injection Hrun as <- <-. exists []. by repeat split. }
  apply try_finally_closes in Hrun as (Hexit & evs & Hh & Hall).
  - exists (evs ++ [CloseBrowser])%list. split; [done|].
    split; [by rewrite Hh; cbn; rewrite <- app_assoc|].
    split; [|split; [done | by exists evs]].
    apply Forall_app. split; [done|]. by repeat constructor.
  - apply behaves_bind; [by apply behaves_call|]. intros _.
    apply behaves_bind; [by apply behaves_call|]. intros _.
    apply behaves_bind; [by apply behaves_call|]. intros _.
    apply behaves_bind; [apply behaves_afterNavigation|]. intros _.
    by apply behaves_call.
Qed.

(** X9: dismissing the consent overlay and waiting for the canvas can only
    delay a capture, not fail it: when the browser starts, opens the page,
    takes the screenshot and closes, the capture returns the screenshot,
    whatever the consent probes and the wait for the canvas do. *)
Theorem capture_tolerates_consent_and_readiness_failures `{Host} `{World}
    (lat lng : number) (params : BrowserParams) (st : state) (shot : Buffer) :
  (forall h, puppeteer_launch h = Resolved tt) ->
  (forall h, browser_newPage h = Resolved tt) ->
  (forall h w v, page_setViewport h w v = Resolved tt) ->
  (forall h url, page_goto h url = Resolved tt) ->
  (forall h, page_screenshot h = Resolved shot) ->
  (forall h, browser_close h = Resolved tt) ->
  exists st', captureStreetViewWithBrowser lat lng params st = (Return shot, st').
Proof.
  intros Hlaunch Hpage Hview Hgoto Hshot Hclose.
  unfold captureStreetViewWithBrowser, bind at 1, call at 1. rewrite Hlaunch.
  unfold try_finally, bind at 1, call at 1. rewrite Hpage.
  unfold bind at 1, call at 1. rewrite Hview.
  unfold bind at 1, call at 1. rewrite Hgoto.
  unfold bind at 1.
  set (st0 := mkState _ _).
  assert (Hafter : exists st1,
            (if negb (useEmbed params) then
               tryClickConsent ;;;
               sleep 1500 ;;;
               try_catch
                 (call (WaitForSelector "canvas" 15000)
                       (fun h => page_waitForSelector h "canvas"))
                 (fun _ => ret tt)
             else sleep 1500) st0 = (Return tt, st1)).
  { destruct (negb _); [|by eexists].
    destruct (tryClickConsent_returns st0) as (st1 & Hconsent).
    unfold bind at 1. rewrite Hconsent. unfold bind, sleep, emit, try_catch, call.
    destruct (page_waitForSelector _ _) as [[]|?]; by eexists. }
  destruct Hafter as (st1 & ->).
  unfold call. rewrite Hshot, Hclose. by eexists.
Qed.

(** X10: in the pipeline the rendered capture always gets [useEmbed: true] and
    the API key: with a non-empty key it navigates to the direct viewer
    and makes no other call than the seven of that path, so it never
    probes for a consent overlay. *)
Theorem pipeline_browser_capture_uses_direct_viewer `{Host} `{World}
    (cfg : Config) (coords : Coordinates) (requested : RequestedImageSize) (st : state) :
  mode cfg = "browser" ->
  Str.truthy (apiKey cfg) = true ->
  let params := pipelineBrowserParams cfg coords requested in
  navigationTarget (lat coords) (lng coords) params
    = buildEmbedStreetViewUrl (lat coords) (lng coords) params /\
  exists r st' evs,
    capture cfg coords requested st = (r, st') /\
    history st' = (history st ++ evs)%list /\
    Forall (fun e => e ∈ directViewerCalls (lat coords) (lng coords) params) evs.
Proof.
  intros Hmode Hkey params.
  assert (Htarget : navigationTarget (lat coords) (lng coords) params
                    = buildEmbedStreetViewUrl (lat coords) (lng coords) params).
  { unfold navigationTarget, useEmbed, hasKey. cbn. by rewrite Hkey. }
  split; [exact Htarget|].
  destruct (capture cfg coords requested st) as [r st'] eqn:Hrun.
  exists r, st'.
  unfold capture in Hrun. rewrite Hmode in Hrun. cbn [String.eqb] in Hrun.
  change (String.eqb "browser" "browser") with true in Hrun. cbn iota in Hrun.
  fold (pipelineBrowserParams cfg coords requested) in Hrun. fold params in Hrun.
  assert (Hbehaves : behaves (fun e => e ∈ directViewerCalls (lat coords) (lng coords) params)
                       (captureStreetViewWithBrowser (lat coords) (lng coords) params)).
  { unfold captureStreetViewWithBrowser. rewrite Htarget.
    change (negb (useEmbed params)) with false. cbn iota. unfold sleep.
    unfold directViewerCalls.
    apply behaves_bind; [apply behaves_call; set_solver|]. intros _.
    apply behaves_try_finally; [|apply behaves_call; set_solver].
    apply behaves_bind; [apply behaves_call; set_solver|]. intros _.
    apply behaves_bind; [apply behaves_call; set_solver|]. intros _.
    apply behaves_bind; [apply behaves_call; set_solver|]. intros _.
    apply behaves_bind; [apply behaves_emit; set_solver|]. intros _.
    apply behaves_call; set_solver. }
  destruct (Hbehaves _ _ _ Hrun) as (evs & Hh & Hall & _). by exists evs.
Qed.

(** ** SizeResolver on integer sizes *)

Lemma number_eqb_eq (x y : number) : number_eqb x y = true -> x = y.
Proof.
  destruct x, y; cbn; try discriminate; try done.
  - by intros ->%Bool.eqb_prop.
  - by intros ->%Bool.eqb_prop.
  - intros [[->%Bool.eqb_prop ->%Pos.eqb_eq]%andb_prop ->%Z.eqb_eq]%andb_prop. done.
Qed.

Lemma uncapped_table_scale1 : forallb (uncappedDimension Scale1) (seqZ 0 641) = true.
Proof. vm_compute. reflexivity. Qed.

Lemma uncapped_table_scale2 : forallb (uncappedDimension Scale2) (seqZ 0 1282) = true.
Proof. vm_compute. reflexivity. Qed.

Lemma small_table : forallb smallDimension (seqZ 0 641) = true.
Proof. vm_compute. reflexivity. Qed.

Lemma uncappedDimension_holds (s : Scale) (w : Z) :
  0 <= w < 641 * scale_factor s -> uncappedDimension s w = true.
Proof.
  intros Hw.
  destruct s; cbn in Hw.
  - apply (proj1 (forallb_forall _ _) uncapped_table_scale1).
    apply list_elem_of_In, elem_of_seqZ. lia.
  - apply (proj1 (forallb_forall _ _) uncapped_table_scale2).
    apply list_elem_of_In, elem_of_seqZ. lia.
Qed.

Lemma computeLogicalSize_uncapped (s : Scale) (w h : Z) :
  0 <= w < 641 * scale_factor s ->
  0 <= h < 641 * scale_factor s ->
  computeLogicalSize (mkSize (Num.of_Z w) (Num.of_Z h)) s None
    = mkSize (Num.of_Z (Z.max 1 (w / scale_factor s)))
             (Num.of_Z (Z.max 1 (h / scale_factor s))).
Proof.
  intros Hw%uncappedDimension_holds Hh%uncappedDimension_holds.
  unfold uncappedDimension in Hw, Hh.
  apply andb_prop in Hw as [Hw1 Hw2%number_eqb_eq].
  apply andb_prop in Hh as [Hh1 Hh2%number_eqb_eq].
  apply negb_true_iff in Hw1, Hh1.
  unfold computeLogicalSize, logicalBeforeCap. cbn [default width height].
  rewrite Hw1, Hh1. cbn [orb]. by rewrite Hw2, Hh2.
Qed.

(** X11: below the cap nothing is rescaled: for an integer size whose
    dimensions divided by the scale stay at or under 640, each logical
    dimension is the requested one divided by the scale, rounded down, and
    at least 1. *)
Theorem logical_size_below_cap (s : Scale) (w h : Z) :
  0 <= w < 641 * scale_factor s ->
  0 <= h < 641 * scale_factor s ->
  computeLogicalSize (mkSize (Num.of_Z w) (Num.of_Z h)) s None
    = mkSize (Num.of_Z (Z.max 1 (w / scale_factor s)))
             (Num.of_Z (Z.max 1 (h / scale_factor s))).
Proof. apply computeLogicalSize_uncapped. Qed.

Lemma logical_size_below_cap_witness :
  computeLogicalSize (mkSize (Num.of_Z 1280) (Num.of_Z 720)) Scale2 None
    = mkSize (Num.of_Z 640) (Num.of_Z 360) /\
  computeLogicalSize (mkSize (Num.of_Z 1) (Num.of_Z 0)) Scale2 None
    = mkSize (Num.of_Z 1) (Num.of_Z 1).
Proof.
  split.
  - apply (logical_size_below_cap Scale2 1280 720); cbn; lia.
  - apply (logical_size_below_cap Scale2 1 0); cbn; lia.
Defined.

(** X12: without a hint, an integer size from 1x1 to 640x640 is served as it
    is: the scale is 1 and the logical size is the requested size. *)
Theorem small_sizes_are_served_unchanged (w h : Z) :
  1 <= w <= 640 ->
  1 <= h <= 640 ->
  let requested := mkSize (Num.of_Z w) (Num.of_Z h) in
  computeEffectiveScale requested None = Scale1 /\
  computeLogicalSize requested (computeEffectiveScale requested None) None = requested.
Proof.
  intros Hw Hh requested.
  assert (Hsmall : forall z, 1 <= z <= 640 -> (Num.of_Z z > n640)%js = false).
  { intros z Hz. apply negb_true_iff.
    apply (proj1 (forallb_forall _ _) small_table).
    apply list_elem_of_In, elem_of_seqZ. lia. }
  assert (Hscale : computeEffectiveScale requested None = Scale1).
  { unfold computeEffectiveScale, requested. cbn [width height].
    by rewrite (Hsmall w), (Hsmall h). }
  split; [exact Hscale|]. rewrite Hscale. unfold requested.
  rewrite (computeLogicalSize_uncapped Scale1 w h) by (cbn; lia).
  cbn [scale_factor]. rewrite !Z.div_1_r. by rewrite !Z.max_r by lia.
Qed.

Lemma small_sizes_are_served_unchanged_witness :
  let requested := mkSize (Num.of_Z 640) (Num.of_Z 480) in
  computeEffectiveScale requested None = Scale1 /\
  computeLogicalSize requested (computeEffectiveScale requested None) None = requested.
Proof. apply (small_sizes_are_served_unchanged 640 480); lia. Defined.

(** ** The size parser on well-formed input *)

Lemma split_cons (c a : ascii) (s : string) :
  Str.split c (String a s)
  = if Ascii.eqb a c then EmptyString :: Str.split c s
    else match Str.split c s with
         | piece :: rest => String a piece :: rest
         | [] => [String a EmptyString]
         end.
Proof. reflexivity. Qed.

Lemma contains_cons (c a : ascii) (w : string) :
  Str.contains (String c EmptyString) (String a w) = false ->
  a <> c /\ Str.contains (String c EmptyString) w = false.
Proof.
  intros Hc. cbn [Str.contains String.prefix] in Hc.
  destruct (ascii_dec c a) as [->|Hne]; cbn in Hc; [by destruct w|].
  split; [congruence | exact Hc].
Qed.

Lemma split_before (c : ascii) (w t : string) :
  Str.contains (String c EmptyString) w = false ->
  Str.split c (w ++ String c t) = w :: Str.split c t.
Proof.
  induction w as [|a w IH]; intros Hw.
  - change (EmptyString ++ String c t) with (String c t).
    by rewrite split_cons, Ascii.eqb_refl.
  - apply contains_cons in Hw as [Hne Hw].
    change (String a w ++ String c t) with (String a (w ++ String c t)).
    rewrite split_cons, (IH Hw).
    by destruct (Ascii.eqb_spec a c).
Qed.

Lemma split_without (c : ascii) (w : string) :
  Str.contains (String c EmptyString) w = false -> Str.split c w = [w].
Proof.
  induction w as [|a w IH]; intros Hw; [done|].
  apply contains_cons in Hw as [Hne Hw].
  rewrite split_cons, (IH Hw). by destruct (Ascii.eqb_spec a c).
Qed.

Lemma truthy_app (w t : string) (c : ascii) : Str.truthy (w ++ String c t) = true.
Proof. by destruct w. Qed.

(** X13: [parseSize] reads a well-formed size: the text before the first [x]
    is the width, the text between the first and the second [x] (or the
    end) is the height, and whatever follows a second [x] is ignored. *)
Theorem parseSize_reads_width_and_height `{Host}
    (w h rest : string) (fallback : RequestedImageSize) :
  Str.contains "x" w = false ->
  Str.contains "x" h = false ->
  Num.isFinite (Number_of_string w) = true ->
  Num.isFinite (Number_of_string h) = true ->
  parseSize (Some (w ++ "x" ++ h)) fallback
    = mkSize (Number_of_string w) (Number_of_string h) /\
  parseSize (Some (w ++ "x" ++ h ++ "x" ++ rest)) fallback
    = mkSize (Number_of_string w) (Number_of_string h).
Proof.
  intros Hw Hh Hfw Hfh. unfold parseSize. split.
  - change (w ++ "x" ++ h) with (w ++ String "x" h). rewrite truthy_app. cbn [negb].
    rewrite (split_before "x" w h Hw), (split_without "x" h Hh). cbn.
    by rewrite Hfw, Hfh.
  - change (w ++ "x" ++ h ++ "x" ++ rest) with (w ++ String "x" (h ++ String "x" rest)).
    rewrite truthy_app. cbn [negb].
    rewrite (split_before "x" w _ Hw), (split_before "x" h rest Hh). cbn.
    by rewrite Hfw, Hfh.
Qed.

Lemma parseSize_reads_width_and_height_witness :
  @parseSize js_host (Some "800x600") (mkSize n0 n0) = mkSize (Num.of_Z 800) (Num.of_Z 600) /\
  @parseSize js_host (Some "800x600x32") (mkSize n0 n0)
    = mkSize (Num.of_Z 800) (Num.of_Z 600).
Proof.
  apply (@parseSize_reads_width_and_height js_host "800" "600" "32"); reflexivity.
Defined.

(** X14: the size requested for a candidate is always a pair of finite
    numbers: a size that does not parse is replaced, never passed on. *)
Theorem requested_size_is_finite `{Host} (cfg : Config) (coords : Coordinates) :
  Num.isFinite (width (requestedFor cfg coords)) = true /\
  Num.isFinite (height (requestedFor cfg coords)) = true.
Proof.
  unfold requestedFor, parseSize.
  destruct (negb _); [by split|].
  set (width := Number_of _). set (height := Number_of _).
  destruct (Num.isFinite width) eqn:Hw, (Num.isFinite height) eqn:Hh; by split.
Qed.

(** ** The command line *)

Lemma parseParts_app (l1 l2 : list string) (args : gmap string ArgValue) :
  parseParts (l1 ++ l2) args
  = match parseParts l1 args with
    | Resolved args' => parseParts l2 args'
    | Rejected message => Rejected message
    end.
Proof.
  revert args. induction l1 as [|part l1 IH]; intros args; [done|].
  cbn [app parseParts]. destruct (String.prefix "--" part); [apply IH|].
  destruct (args !! "_") as [[| |items]|]; auto.
Qed.

Lemma substring_all (s : string) : String.substring 0 (String.length s) s = s.
Proof. induction s as [|a s IH]; cbn; [done | by rewrite IH]. Qed.

Lemma prefix_dashes (t : string) : String.prefix "--" ("--" ++ t) = true.
Proof. change ("--" ++ t) with (String "-" (String "-" t)). cbn. by destruct t. Qed.

Lemma stripDashes_dashes (k : string) : stripDashes ("--" ++ k) = k.
Proof.
  unfold stripDashes. rewrite prefix_dashes.
  change ("--" ++ k) with (String "-" (String "-" k)).
  cbn [String.length String.substring Nat.sub].
  replace (String.length k - 0)%nat with (String.length k) by lia.
  apply substring_all.
Qed.

Lemma optionKey_of (k t : string) :
  Str.contains "=" k = false ->
  optionKey ("--" ++ k ++ String "=" t) = k /\
  Str.split "=" ("--" ++ k ++ String "=" t) = ("--" ++ k) :: Str.split "=" t.
Proof.
  intros Hk.
  assert (Hsplit : Str.split "=" ("--" ++ k ++ String "=" t)
                   = ("--" ++ k) :: Str.split "=" t).
  { change ("--" ++ k ++ String "=" t) with (("--" ++ k) ++ String "=" t).
    apply split_before. cbn. exact Hk. }
  split; [|exact Hsplit].
  unfold optionKey. rewrite Hsplit. apply stripDashes_dashes.
Qed.

Lemma optionKey_flag (k : string) :
  Str.contains "=" k = false ->
  optionKey ("--" ++ k) = k /\ Str.split "=" ("--" ++ k) = ["--" ++ k].
Proof.
  intros Hk.
  assert (Hsplit : Str.split "=" ("--" ++ k) = ["--" ++ k]).
  { apply split_without. cbn. exact Hk. }
  split; [|exact Hsplit].
  unfold optionKey. rewrite Hsplit. apply stripDashes_dashes.
Qed.

(** X15: options are read from left to right and the last one wins: adding
    [--key=value] at the end of a command line that parses sets [key] to
    [value] and changes nothing else; a value is cut at its first [=];
    without [=] the option is set to [true]. *)
Theorem parseArgs_last_option_wins
    (argv : list string) (args : gmap string ArgValue) (key value rest : string) :
  (2 <= length argv)%nat ->
  parseArgs argv = Resolved args ->
  Str.contains "=" key = false ->
  Str.contains "=" value = false ->
  key <> "__proto__" ->
  parseArgs (argv ++ ["--" ++ key ++ "=" ++ value])
    = Resolved (<[key := ArgString value]> args) /\
  parseArgs (argv ++ ["--" ++ key ++ "=" ++ value ++ "=" ++ rest])
    = Resolved (<[key := ArgString value]> args) /\
  parseArgs (argv ++ ["--" ++ key]) = Resolved (<[key := ArgTrue]> args).
Proof.
  intros Hlen Hargs Hkey Hvalue Hproto. unfold parseArgs in *.
  assert (Hset : forall v, setProperty key v args = <[key := v]> args).
  { intros v. unfold setProperty. by destruct (String.eqb_spec key "__proto__"). }
  rewrite !drop_app_le, !parseParts_app, Hargs by done.
  cbn [parseParts].
  change ("--" ++ key ++ "=" ++ value) with ("--" ++ key ++ String "=" value).
  change ("--" ++ key ++ "=" ++ value ++ "=" ++ rest)
    with ("--" ++ key ++ String "=" (value ++ String "=" rest)).
  destruct (optionKey_of key value Hkey) as [Hk1 Hs1].
  destruct (optionKey_of key (value ++ String "=" rest) Hkey) as [Hk2 Hs2].
  destruct (optionKey_flag key Hkey) as [Hk3 Hs3].
  unfold optionKey in Hk1, Hk2, Hk3.
  rewrite !prefix_dashes, Hk1, Hk2, Hk3, Hs1, Hs2, Hs3.
  rewrite (split_without "=" value Hvalue), (split_before "=" value rest Hvalue).
  cbn [lookup list_lookup]. by rewrite !Hset.
Qed.

Lemma parseArgs_last_option_wins_witness :
  parseArgs ["bun"; "cli.ts"; "--count=5"; "--count=3"]
    = Resolved (<["count" := ArgString "3"]>
                  (<["count" := ArgString "5"]> {["_" := ArgList []]})) /\
  parseArgs ["bun"; "cli.ts"; "--count=5"; "--name=a=b"]
    = Resolved (<["name" := ArgString "a"]>
                  (<["count" := ArgString "5"]> {["_" := ArgList []]})).
Proof.
  split.
  - apply (parseArgs_last_option_wins ["bun"; "cli.ts"; "--count=5"] _ "count" "3" "x");
      [cbn; lia | reflexivity | reflexivity | reflexivity | discriminate].
  - apply (parseArgs_last_option_wins ["bun"; "cli.ts"; "--count=5"] _ "name" "a" "b");
      [cbn; lia | reflexivity | reflexivity | reflexivity | discriminate].
Defined.

(** X16: the positional arguments are kept in order under [_], as long as no
    option is itself named [_]. *)
Theorem parseArgs_collects_positionals (argv : list string) :
  Forall (fun part => String.prefix "--" part = true -> optionKey part <> "_")
         (drop 2 argv) ->
  exists args,
    parseArgs argv = Resolved args /\
    args !! "_"
      = Some (ArgList (List.filter (fun part => negb (String.prefix "--" part))
                                   (drop 2 argv))).
Proof.
  unfold parseArgs. generalize (drop 2 argv). intros parts Hparts.
  assert (Hgen : forall (args : gmap string ArgValue) items,
            args !! "_" = Some (ArgList items) ->
            exists args',
              parseParts parts args = Resolved args' /\
              args' !! "_"
                = Some (ArgList (items ++ List.filter
                                            (fun part => negb (String.prefix "--" part))
                                            parts))).
  { induction Hparts as [|part parts Hpart _ IH]; intros args items Hitems.
    { exists args. by rewrite app_nil_r. }
    cbn [parseParts List.filter].
    destruct (String.prefix "--" part) eqn:Hprefix; cbn [negb].
    - apply IH. unfold setProperty.
      destruct (String.eqb _ "__proto__"); [done|].
      rewrite lookup_insert_ne; [done|]. by apply Hpart.
    - rewrite Hitems.
      destruct (IH (<["_" := ArgList (items ++ [part])]> args) (items ++ [part])%list)
        as (args' & Hrun & Hlookup); [by rewrite lookup_insert_eq|].
      exists args'. split; [done|]. by rewrite Hlookup, <- app_assoc. }
  destruct (Hgen {["_" := ArgList []]} []) as (args & Hrun & Hlookup).
  { by rewrite lookup_singleton_eq. }
  by exists args.
Qed.

Lemma parseArgs_collects_positionals_witness :
  exists args,
    parseArgs ["bun"; "cli.ts"; "a.json"; "--verbose"; "b.json"] = Resolved args /\
    args !! "_" = Some (ArgList ["a.json"; "b.json"]).
Proof.
  apply (parseArgs_collects_positionals ["bun"; "cli.ts"; "a.json"; "--verbose"; "b.json"]).
  cbn [drop]. repeat constructor; intros _; discriminate.
Defined.

(** X17: an option named [_] replaces the array of positional arguments:
    the next positional argument makes [parseArgs] fail. *)
Theorem parseArgs_fails_after_underscore_option
    (a0 a1 : string) (before after options : list string) (opt positional : string)
    (args : gmap string ArgValue) :
  parseArgs (a0 :: a1 :: before) = Resolved args ->
  String.prefix "--" opt = true ->
  optionKey opt = "_" ->
  Forall (fun part => String.prefix "--" part = true) options ->
  String.prefix "--" positional = false ->
  parseArgs (a0 :: a1 :: before ++ opt :: options ++ positional :: after)
    = Rejected "args._.push is not a function".
Proof.
  unfold parseArgs. change (drop 2 (a0 :: a1 :: before)) with before.
  change (drop 2 (a0 :: a1 :: before ++ opt :: options ++ positional :: after))
    with (before ++ opt :: options ++ positional :: after)%list.
  intros Hbefore Hopt Hkey Hoptions Hpositional.
  rewrite parseParts_app, Hbefore. cbn [parseParts]. rewrite Hopt.
  fold (optionKey opt). rewrite Hkey.
  set (args1 := setProperty "_" _ args).
  assert (Hclobbered : forall items, args1 !! "_" <> Some (ArgList items)).
  { intros items. unfold args1, setProperty. cbn. rewrite lookup_insert_eq.
    by destruct (Str.split "=" opt !! 1%nat). }
  clearbody args1. revert args1 Hclobbered.
  induction Hoptions as [|part options Hpart _ IH]; intros args1 Hclobbered.
  - cbn [app parseParts]. rewrite Hpositional.
    destruct (args1 !! "_") as [[| |items]|] eqn:Hlookup; try done.
    by destruct (Hclobbered items).
  - cbn [app parseParts]. rewrite Hpart. apply IH.
    intros items. unfold setProperty. destruct (String.eqb _ "__proto__"); [done|].
    destruct (decide (stripDashes (default EmptyString (Str.split "=" part !! 0%nat)) = "_"))
      as [->|Hne].
    + rewrite lookup_insert_eq. by destruct (Str.split "=" part !! 1%nat).
    + by rewrite lookup_insert_ne.
Qed.

Lemma parseArgs_fails_after_underscore_option_witness :
  parseArgs ["bun"; "cli.ts"; "--map=m.json"; "--_=x"; "--verbose"; "extra"; "--count=2"]
    = Rejected "args._.push is not a function".
Proof.
  apply (parseArgs_fails_after_underscore_option "bun" "cli.ts" ["--map=m.json"]
           ["--count=2"] ["--verbose"] "--_=x" "extra"
           (<["map" := ArgString "m.json"]> {["_" := ArgList []]}));
    try reflexivity.
  by repeat constructor.
Defined.

(** ** The map file *)

Section MapFileBehaviour.
Context `{Host} `{World}.

Lemma validateLatLng_cases (latString lngString : Json) (st : state) :
  (isLatValid (Json_toNumber latString) = true /\
   isLngValid (Json_toNumber lngString) = true /\
   validateLatLng latString lngString st
     = (Return (Json_toNumber latString, Json_toNumber lngString), st))
  \/
  (negb (isLatValid (Json_toNumber latString))
     || negb (isLngValid (Json_toNumber lngString)) = true /\
   validateLatLng latString lngString st
     = (Exit 1, mkState (history st ++ [ConsoleError invalidCoordinates])
                        (sharpModule st))).
Proof.
  unfold validateLatLng.
  destruct (isLatValid (Json_toNumber latString)),
           (isLngValid (Json_toNumber lngString)); cbn; auto.
Qed.

Lemma asCoordinates_cases (item : Json) (st : state) :
  (refused item = true /\
   asCoordinates item st
     = (Exit 1, mkState (history st ++ [ConsoleError invalidCoordinates])
                        (sharpModule st)))
  \/
  (refused item = false /\
   exists c, asCoordinates item st = (Return c, st) /\
             (shapeless item = true -> c = None) /\
             (forall c', c = Some c' -> validCoordinate c')).
Proof.
  destruct item as [| b | x | s | items | entries];
    try (right; split; [done|]; exists None; by repeat split).
  - destruct items as [|first [|second items]];
      try (right; split; [done|]; exists None; by repeat split).
    cbn [asCoordinates refused shapeless]. unfold bind.
    destruct (validateLatLng_cases first second st) as [(Hlat & Hlng & ->)|[Hbad ->]].
    + right. rewrite Hlat, Hlng. split; [done|]. eexists. split; [reflexivity|].
      split; [done|]. intros c' [= <-]. by split.
    + left. by rewrite Hbad.
  - cbn [asCoordinates refused shapeless].
    destruct (property "lat" entries) as [latValue|];
      [|right; split; [done|]; exists None; by repeat split].
    destruct (property "lng" entries) as [lngValue|];
      [|right; split; [done|]; exists None; by repeat split].
    unfold bind.
    destruct (validateLatLng_cases latValue lngValue st) as [(Hlat & Hlng & ->)|[Hbad ->]].
    + right. rewrite Hlat, Hlng. split; [done|]. eexists. split; [reflexivity|].
      split; [done|]. intros c' [= <-]. by split.
    + left. by rewrite Hbad.
Qed.

Lemma mapCoordinates_cases (items : list Json) (st : state) :
  (existsb refused items = true /\
   mapCoordinates items st
     = (Exit 1, mkState (history st ++ [ConsoleError invalidCoordinates])
                        (sharpModule st)))
  \/
  (existsb refused items = false /\
   exists cs, mapCoordinates items st = (Return cs, st) /\
              Forall validCoordinate (omap id cs) /\
              (length (omap id cs) <= length items)%nat).
Proof.
  induction items as [|item items IH].
  { right. split; [done|]. exists []. by repeat split. }
  cbn [mapCoordinates existsb]. unfold bind.
  destruct (asCoordinates_cases item st) as [[-> ->]|(-> & c & -> & _ & Hvalid)];
    [by left|].
  cbn [orb].
  destruct IH as [[-> ->]|(-> & cs & -> & Hcs & Hlen)]; [by left|].
  right. split; [done|]. exists (c :: cs). split; [done|].
  destruct c as [c'|]; cbn.
  - split; [|lia]. constructor; [by apply Hvalid | done].
  - split; [done | lia].
Qed.

Lemma asCoordinates_shapeless (junk : Json) (st : state) :
  shapeless junk = true -> asCoordinates junk st = (Return None, st).
Proof.
  destruct junk as [| | | |[|? [|? ?]]|entries]; try done.
  cbn. destruct (property "lat" entries); [|done].
  by destruct (property "lng" entries).
Qed.

Lemma mapCoordinates_shapeless (before after : list Json) (junk : Json) (st : state) :
  shapeless junk = true ->
  (cs <- mapCoordinates (before ++ junk :: after) ;; ret (omap id cs)) st
  = (cs <- mapCoordinates (before ++ after) ;; ret (omap id cs)) st.
Proof.
  intros Hjunk. revert st. induction before as [|item before IH]; intros st.
  - cbn [app mapCoordinates]. unfold bind.
    rewrite (asCoordinates_shapeless junk st Hjunk).
    by destruct (mapCoordinates after st) as [[cs| |] st1].
  - cbn [app mapCoordinates]. unfold bind in IH |- *.
    destruct (asCoordinates item st) as [[c| |] st1]; [|done..].
    specialize (IH st1).
    destruct (mapCoordinates (before ++ junk :: after) st1) as [[cs| |] st2],
             (mapCoordinates (before ++ after) st1) as [[cs'| |] st3];
      unfold ret in IH |- *; cbn in IH |- *; try congruence.
    injection IH as Hcs ->. destruct c; cbn; congruence.
Qed.

End MapFileBehaviour.

(** X18: [parseMapFile] gives either a non-empty list of coordinates that all
    pass the range check, leaving the state as it was, or ends the process
    with code 1 after writing exactly one of its five error messages. *)
Theorem parseMapFile_coordinates_or_one_error
    `{Host} `{World} `{Disk} (filePath : string) (st : state) :
  (exists coords,
      parseMapFile filePath st = (Return coords, st) /\
      coords <> [] /\ Forall validCoordinate coords)
  \/
  (exists message,
      message ∈ mapFileErrors filePath /\
      parseMapFile filePath st
        = (Exit 1, mkState (history st ++ [ConsoleError message]) (sharpModule st))).
Proof.
  assert (Hexit : forall message, message ∈ mapFileErrors filePath ->
            exists message',
              message' ∈ mapFileErrors filePath /\
              @exitWithError _ (list Coordinates) message st
              = (Exit 1, mkState (history st ++ [ConsoleError message'])
                                 (sharpModule st))).
  { intros message Hin. by exists message. }
  unfold parseMapFile.
  destruct (readFileSync filePath) as [content|?];
    [|right; apply Hexit; unfold mapFileErrors; repeat constructor].
  destruct (JSON_parse_text content) as [data|?];
    [|right; apply Hexit; unfold mapFileErrors; repeat constructor].
  destruct data as [| b | x | s | items | entries];
    try (right; apply Hexit; unfold mapFileErrors; repeat constructor).
  cbn [parseMapData]. unfold bind.
  destruct (mapCoordinates_cases items st) as [[_ ->]|(_ & cs & -> & Hvalid & _)].
  { right. exists invalidCoordinates. split; [unfold mapFileErrors; repeat constructor | done]. }
  destruct (omap id cs) as [|c coords] eqn:Hcoords.
  - right. cbn. apply Hexit. unfold mapFileErrors; repeat constructor.
  - left. cbn. exists (c :: coords). by repeat split.
Qed.

(** X19: one item whose latitude or longitude is out of range (or not a number)
    ends the whole run, however many valid items the file has: no item is
    skipped for being out of range. *)
Theorem one_invalid_item_rejects_the_map
    `{Host} `{World} (items : list Json) (st : state) :
  existsb refused items = true ->
  parseMapData (JArray items) st
    = (Exit 1, mkState (history st ++ [ConsoleError invalidCoordinates])
                       (sharpModule st)).
Proof.
  intros Hrefused. cbn [parseMapData]. unfold bind.
  destruct (mapCoordinates_cases items st) as [[_ ->]|[Hnone _]]; [done|].
  congruence.
Qed.

(** X20: an item that is neither an array of two or more elements nor an
    object with [lat] and [lng] is skipped: the file gives the same
    result with or without it. *)
Theorem shapeless_items_are_skipped
    `{Host} `{World} (before after : list Json) (junk : Json) (st : state) :
  shapeless junk = true ->
  parseMapData (JArray (before ++ junk :: after)) st
    = parseMapData (JArray (before ++ after)) st.
Proof.
  intros Hjunk. cbn [parseMapData].
  pose proof (mapCoordinates_shapeless before after junk st Hjunk) as Hsame.
  unfold bind in Hsame |- *.
  destruct (mapCoordinates (before ++ junk :: after) st) as [[cs| |] st1],
           (mapCoordinates (before ++ after) st) as [[cs'| |] st2];
    unfold ret in Hsame; cbn in Hsame; try congruence.
  injection Hsame as -> ->. done.
Qed.

(** ** The two capture modes do not mix *)

Section PipelineEvents.
Context `{Host} `{World}.
Variable cfg : Config.
Variable allCoords : list Coordinates.
Variable P : Event -> Prop.
Hypothesis Hpipeline : forall e, pipelineEvent e -> P e.
Hypothesis Hcapture : forall coords requested, behaves P (capture cfg coords requested).

Lemma attempt_in coords requested successes :
  behaves P (attempt cfg coords requested successes).
Proof.
  unfold attempt.
  apply behaves_bind; [apply Hcapture|]. intros image.
  apply behaves_bind.
  { unfold buildBaseName.
    assert (behaves P
              (t <- now ;;
               ret (String_of_number (lat coords) ++ "_" ++ String_of_number (lng coords)
                    ++ "_" ++ String_of_number t))).
    { apply behaves_bind; [by apply behaves_now, Hpipeline | intros; apply behaves_ret]. }
    destruct (namePrefix cfg) as [p|]; [destruct (Str.truthy p)|]; auto using behaves_ret. }
  intros baseName.
  apply behaves_bind; [by apply behaves_call, Hpipeline | intros; apply behaves_ret].
Qed.

Lemma sampleLoop_in indices successes outputs :
  behaves P (sampleLoop cfg allCoords indices successes outputs).
Proof.
  revert successes outputs.
  induction indices as [|idx rest IH]; intros s outs; cbn [sampleLoop].
  { apply behaves_ret. }
  destruct (_ >= _)%js; [apply behaves_ret|].
  destruct (idx ≫= _) as [coords|]; [|apply IH].
  apply behaves_bind.
  - apply behaves_try_catch.
    + apply behaves_bind; [apply attempt_in | intros; apply behaves_ret].
    + intros message. apply behaves_bind; [|intros; apply behaves_ret].
      unfold skip.
      destruct (verbose cfg); [by apply behaves_emit, Hpipeline | apply behaves_ret].
  - intros [path|]; apply IH.
Qed.

Lemma program_in : behaves P (program cfg allCoords).
Proof.
  unfold program. apply behaves_try_catch.
  - unfold main, ensureDir.
    apply behaves_bind; [by apply behaves_call, Hpipeline|]. intros _.
    apply behaves_bind; [apply sampleLoop_in|]. intros [successes outputs].
    destruct (Num.gt _ _); [by apply behaves_exitWithError, Hpipeline|].
    apply behaves_bind; [|intros; apply behaves_ret].
    intros st r st' Hrun. rewrite printAll_history in Hrun. injection Hrun as <- <-.
    exists (ConsoleLog <$> outputs). split; [done|]. split; [|done].
    apply Forall_forall. intros e [msg [-> _]]%list_elem_of_fmap. by apply Hpipeline.
  - intros message. by apply behaves_exitWithError, Hpipeline.
Qed.

End PipelineEvents.

(** X21: in browser mode the whole run never sends a request and never loads
    or calls the image library: besides the browser calls it only makes
    the output directory, reads the clock, writes files and prints.  In
    particular the metadata endpoint is not asked whether imagery
    exists. *)
Theorem browser_mode_never_uses_the_api `{Host} `{World}
    (cfg : Config) (allCoords : list Coordinates) (st : state) :
  mode cfg = "browser" ->
  exists r st' evs,
    program cfg allCoords st = (r, st') /\
    history st' = (history st ++ evs)%list /\
    Forall (fun e => pipelineEvent e \/ browserEvent e) evs /\
    requests evs = [].
Proof.
  intros Hmode.
  destruct (program cfg allCoords st) as [r st'] eqn:Hrun.
  assert (Hbehaves : behaves (fun e => pipelineEvent e \/ browserEvent e)
                       (program cfg allCoords)).
  { apply program_in; [by left|]. intros coords requested.
    unfold capture. rewrite Hmode. change (String.eqb "browser" "browser") with true.
    cbn iota. eapply behaves_mono; [|apply behaves_captureStreetViewWithBrowser].
    by right. }
  destruct (Hbehaves _ _ _ Hrun) as (evs & Hh & Hall & _).
  exists r, st', evs. split; [done|]. split; [done|]. split; [done|].
  clear Hh. induction Hall as [|e evs He _ IH]; [done|].
  cbn. unfold requests in IH. rewrite IH. by destruct He as [He|He], e.
Qed.

(** X22: in API mode the whole run never touches a browser: its events are
    requests, the image library, the output directory, the clock, file
    writes and the console. *)
Theorem api_mode_never_launches_a_browser `{Host} `{World}
    (cfg : Config) (allCoords : list Coordinates) (st : state) :
  mode cfg <> "browser" ->
  exists r st' evs,
    program cfg allCoords st = (r, st') /\
    history st' = (history st ++ evs)%list /\
    Forall (fun e => pipelineEvent e \/ apiEvent e) evs.
Proof.
  intros Hmode.
  destruct (program cfg allCoords st) as [r st'] eqn:Hrun.
  assert (Hbehaves : behaves (fun e => pipelineEvent e \/ apiEvent e)
                       (program cfg allCoords)).
  { apply program_in; [by left|]. intros coords requested.
    unfold capture. destruct (String.eqb_spec (mode cfg) "browser"); [done|].
    eapply behaves_mono; [|apply behaves_createImageWithApi]. by right. }
  destruct (Hbehaves _ _ _ Hrun) as (evs & Hh & Hall & _).
  by exists r, st', evs.
Qed.

Lemma browser_mode_never_uses_the_api_witness :
  let W := Sim.world Sim.outage 1000 Sim.half in
  let cfg := Sim.config 1 None "browser" in
  let allCoords := [Sim.point 1 1; Sim.point 2 2] in
  exists r st' evs,
    @program js_host W cfg allCoords Sim.start = (r, st') /\
    history st' = (history (@Sim.start W) ++ evs)%list /\
    Forall (fun e => pipelineEvent e \/ browserEvent e) evs /\
    requests evs = [].
Proof.
  intros W cfg allCoords.
  apply (@browser_mode_never_uses_the_api js_host W cfg allCoords Sim.start).
  reflexivity.
Defined.

Lemma api_mode_never_launches_a_browser_witness :
  let W := Sim.world (Sim.network Sim.allOK) 1000 Sim.half in
  let cfg := Sim.config 1 None "api" in
  let allCoords := [Sim.point 1 1; Sim.point 2 2] in
  exists r st' evs,
    @program js_host W cfg allCoords Sim.start = (r, st') /\
    history st' = (history (@Sim.start W) ++ evs)%list /\
    Forall (fun e => pipelineEvent e \/ apiEvent e) evs.
Proof.
  intros W cfg allCoords.
  apply (@api_mode_never_launches_a_browser js_host W cfg allCoords Sim.start).
  discriminate.
Defined.

(** ** The image library is loaded once *)

Section Cached.
Context `{Host} `{World}.

Lemma imports_app (h1 h2 : History) : imports (h1 ++ h2) = (imports h1 + imports h2)%nat.
Proof. unfold imports. by rewrite omap_app, length_app. Qed.

Lemma loadedOnce_nil st exited : loadedOnce st [] st exited.
Proof. unfold loadedOnce. destruct (sharpModule st) eqn:E; [by split | left; by split]. Qed.

Lemma loadedOnce_event st (e : Event) exited :
  imports [e] = 0%nat ->
  loadedOnce st [e] (mkState (history st ++ [e]) (sharpModule st)) exited.
Proof.
  intros He. unfold loadedOnce. cbn [sharpModule].
  destruct (sharpModule st) eqn:E; [by split | left; by split].
Qed.

Lemma loadedOnce_seq st evs1 st1 evs2 st2 exited :
  loadedOnce st evs1 st1 false -> loadedOnce st1 evs2 st2 exited ->
  loadedOnce st (evs1 ++ evs2) st2 exited.
Proof.
  unfold loadedOnce. rewrite imports_app.
  destruct (sharpModule st), (sharpModule st1); intros H1 H2;
    intuition (try congruence; try lia).
Qed.

Lemma cached_ret {A} (a : A) : cached (ret a).
Proof.
  intros st r st' [= <- <-]. exists []. split; [by rewrite app_nil_r|].
  apply loadedOnce_nil.
Qed.

Lemma cached_throw {A} (message : string) : cached (fun st => (@Throw A message, st)).
Proof.
  intros st r st' [= <- <-]. exists []. split; [by rewrite app_nil_r|].
  apply loadedOnce_nil.
Qed.

Lemma cached_emit (e : Event) : imports [e] = 0%nat -> cached (emit e).
Proof.
  intros He st r st' [= <- <-]. exists [e]. split; [done|]. by apply loadedOnce_event.
Qed.

Lemma cached_call {A} (e : Event) (oracle : History -> answer A) :
  imports [e] = 0%nat -> cached (call e oracle).
Proof.
  intros He st r st' Hrun. unfold call in Hrun. exists [e].
  destruct (oracle (history st)); injection Hrun as <- <-;
    (split; [done | by apply loadedOnce_event]).
Qed.

Lemma cached_exitWithError {A} (msg : string) : cached (@exitWithError _ A msg).
Proof.
  intros st r st' [= <- <-]. exists [ConsoleError msg]. split; [done|].
  by apply loadedOnce_event.
Qed.

Lemma cached_bind {A B} (m : M A) (k : A -> M B) :
  cached m -> (forall a, cached (k a)) -> cached (bind m k).
Proof.
  intros Hm Hk st r st' Hrun. unfold bind in Hrun.
  destruct (m st) as [[a|e|c] st1] eqn:E1;
    destruct (Hm _ _ _ E1) as (evs1 & Hh1 & H1).
  - destruct (Hk a _ _ _ Hrun) as (evs2 & Hh2 & H2).
    exists (evs1 ++ evs2)%list. split; [by rewrite Hh2, Hh1, <- app_assoc|].
    by eapply loadedOnce_seq.
  - injection Hrun as <- <-. by exists evs1.
  - injection Hrun as <- <-. by exists evs1.
Qed.

Lemma cached_try_catch {A} (m : M A) (handler : string -> M A) :
  cached m -> (forall e, cached (handler e)) -> cached (try_catch m handler).
Proof.
  intros Hm Hh st r st' Hrun. unfold try_catch in Hrun.
  destruct (m st) as [[a|e|c] st1] eqn:E1;
    destruct (Hm _ _ _ E1) as (evs1 & Hh1 & H1).
  - injection Hrun as <- <-. by exists evs1.
  - destruct (Hh e _ _ _ Hrun) as (evs2 & Hh2 & H2).
    exists (evs1 ++ evs2)%list. split; [by rewrite Hh2, Hh1, <- app_assoc|].
    by eapply loadedOnce_seq.
  - injection Hrun as <- <-. by exists evs1.
Qed.

Lemma cached_try_finally {A} (m : M A) (fin : M unit) :
  cached m -> cached fin -> cached (try_finally m fin).
Proof.
  intros Hm Hf st r st' Hrun. unfold try_finally in Hrun.
  destruct (m st) as [[a|e|c] st1] eqn:E1;
    destruct (Hm _ _ _ E1) as (evs1 & Hh1 & H1);
    try (injection Hrun as <- <-; by exists evs1).
  all: destruct (fin st1) as [[[]|e'|c'] st2] eqn:E2;
    destruct (Hf _ _ _ E2) as (evs2 & Hh2 & H2);
    injection Hrun as <- <-;
    exists (evs1 ++ evs2)%list; (split; [by rewrite Hh2, Hh1, <- app_assoc|]);
    eapply loadedOnce_seq; eauto.
  all: revert H2; unfold loadedOnce; cbn [is_exit];
    destruct (sharpModule st1); intuition congruence.
Qed.

Lemma cached_httpGet (url : Url) : cached (httpGet url).
Proof.
  intros st r st' Hrun. unfold httpGet in Hrun. exists [HttpsGet url].
  destruct (https_get _ _) as [?|[code|] ?]; [| destruct (_ <=? _)%nat |];
    injection Hrun as <- <-; (split; [done | by apply loadedOnce_event]).
Qed.

Lemma cached_now : cached now.
Proof.
  intros st r st' [= <- <-]. exists [DateNow]. split; [done|]. by apply loadedOnce_event.
Qed.

(** The import itself: skipped when the library is loaded; otherwise one
    import, after which the library is loaded or the process has ended. *)
Lemma cached_getSharpOrThrow : cached getSharpOrThrow.
Proof.
  intros st r st' Hrun. unfold getSharpOrThrow in Hrun.
  destruct (sharpModule st) eqn:Hloaded.
  { injection Hrun as <- <-. exists []. split; [by rewrite app_nil_r|].
    apply loadedOnce_nil. }
  destruct (import_sharp _).
  { injection Hrun as <- <-. exists [ImportSharp]. split; [done|].
    unfold loadedOnce. rewrite Hloaded. right. split; [done | by left]. }
  unfold exitWithError in Hrun. injection Hrun as <- <-. cbn.
  eexists [ImportSharp; ConsoleError _]. rewrite <- app_assoc. split; [done|].
  unfold loadedOnce. rewrite Hloaded. right. split; [done | by right].
Qed.

End Cached.

Ltac cached_auto :=
  repeat first
    [ apply cached_ret
    | apply cached_emit
    | apply cached_call
    | apply cached_exitWithError
    | apply cached_bind; [|intros ?]
    | apply cached_try_catch; [|intros ?]
    | apply cached_try_finally
    | match goal with
      | |- cached (if ?b then _ else _) => destruct b
      | |- cached (match ?x with _ => _ end) => destruct x
      end
    | done ].

Section CachedPipeline.
Context `{Host} `{World}.

Lemma cached_createImageWithApi coords options : cached (createImageWithApi coords options).
Proof.
  unfold createImageWithApi, downloadImage, ensureMetadataAvailable.
  apply cached_bind.
  { apply cached_bind; [apply cached_httpGet|]. intros buffer.
    apply cached_bind.
    { destruct (JSON_parse buffer); [apply cached_ret | apply cached_throw]. }
    intros data. cached_auto. }
  intros _.
  apply cached_bind; [cached_auto|]. intros _.
  apply cached_bind; [apply cached_httpGet|]. intros raw.
  destruct (_ && _); [|apply cached_ret].
  apply cached_bind; [apply cached_getSharpOrThrow|]. intros _.
  by apply cached_call.
Qed.

Lemma cached_probeAll candidates : cached (probeAll candidates).
Proof.
  induction candidates as [|sel rest IH]; cbn [probeAll]; [apply cached_ret|].
  apply cached_bind; [unfold probe, sleep; cached_auto|].
  intros []; [apply cached_ret | exact IH].
Qed.

Lemma cached_scanButtons buttons : cached (scanButtons buttons).
Proof.
  induction buttons as [|b rest IH]; cbn [scanButtons]; [apply cached_ret|].
  apply cached_bind; [by apply cached_call|]. intros content.
  destruct (consentText _); [|exact IH]. unfold sleep. cached_auto.
Qed.

Lemma cached_captureStreetViewWithBrowser lat lng params :
  cached (captureStreetViewWithBrowser lat lng params).
Proof.
  unfold captureStreetViewWithBrowser.
  apply cached_bind; [by apply cached_call|]. intros _.
  apply cached_try_finally; [|by apply cached_call].
  apply cached_bind; [by apply cached_call|]. intros _.
  apply cached_bind; [by apply cached_call|]. intros _.
  apply cached_bind; [by apply cached_call|]. intros _.
  apply cached_bind; [|intros _; by apply cached_call].
  unfold sleep. destruct (negb _); [|by apply cached_emit].
  apply cached_bind; [|intros _; cached_auto].
  unfold tryClickConsent.
  apply cached_bind; [apply cached_probeAll|]. intros []; [apply cached_ret|].
  apply cached_try_catch; [|intros; apply cached_ret].
  apply cached_bind; [by apply cached_call|]. intros. apply cached_scanButtons.
Qed.

Variable cfg : Config.
Variable allCoords : list Coordinates.

Lemma cached_attempt coords requested successes :
  cached (attempt cfg coords requested successes).
Proof.
  unfold attempt.
  apply cached_bind.
  { unfold capture. destruct (String.eqb _ _);
      [apply cached_captureStreetViewWithBrowser | apply cached_createImageWithApi]. }
  intros image.
  apply cached_bind.
  { unfold buildBaseName.
    assert (cached
              (t <- now ;;
               ret (String_of_number (lat coords) ++ "_" ++ String_of_number (lng coords)
                    ++ "_" ++ String_of_number t))).
    { apply cached_bind; [apply cached_now | intros; apply cached_ret]. }
    destruct (namePrefix cfg) as [p|]; [destruct (Str.truthy p)|]; auto using cached_ret. }
  intros baseName.
  apply cached_bind; [by apply cached_call | intros; apply cached_ret].
Qed.

Lemma cached_sampleLoop indices successes outputs :
  cached (sampleLoop cfg allCoords indices successes outputs).
Proof.
  revert successes outputs.
  induction indices as [|idx rest IH]; intros s outs; cbn [sampleLoop].
  { apply cached_ret. }
  destruct (_ >= _)%js; [apply cached_ret|].
  destruct (idx ≫= _) as [coords|]; [|apply IH].
  apply cached_bind.
  - apply cached_try_catch.
    + apply cached_bind; [apply cached_attempt | intros; apply cached_ret].
    + intros message. apply cached_bind; [|intros; apply cached_ret].
      unfold skip. destruct (verbose cfg); [by apply cached_emit | apply cached_ret].
  - intros [path|]; apply IH.
Qed.

Lemma cached_printAll outputs : cached (printAll outputs).
Proof.
  induction outputs as [|p outputs IH]; cbn [printAll]; [apply cached_ret|].
  apply cached_bind; [by apply cached_emit | intros; apply IH].
Qed.

Lemma cached_program : cached (program cfg allCoords).
Proof.
  unfold program. apply cached_try_catch; [|intros; apply cached_exitWithError].
  unfold main, ensureDir.
  apply cached_bind; [by apply cached_call|]. intros _.
  apply cached_bind; [apply cached_sampleLoop|]. intros [successes outputs].
  destruct (Num.gt _ _); [apply cached_exitWithError|].
  apply cached_bind; [apply cached_printAll | intros; apply cached_ret].
Qed.

End CachedPipeline.

(** X23: the image library is imported at most once in a run, and not at all
    when it is already loaded: a successful import is remembered and a
    failed one ends the process. *)
Theorem image_library_is_loaded_at_most_once `{Host} `{World}
    (cfg : Config) (allCoords : list Coordinates) (st : state) :
  exists r st' evs,
    program cfg allCoords st = (r, st') /\
    history st' = (history st ++ evs)%list /\
    (imports evs <= 1)%nat /\
    (sharpModule st = true -> imports evs = 0%nat).
Proof.
  destruct (program cfg allCoords st) as [r st'] eqn:Hrun.
  destruct (cached_program cfg allCoords _ _ _ Hrun) as (evs & Hh & Honce).
  exists r, st', evs. split; [done|]. split; [done|].
  unfold loadedOnce in Honce.
  destruct (sharpModule st), (is_exit r); intuition (try congruence; try lia).
Qed.

(** ** The properties at work in the simulated world *)

Lemma program_returns_count_when_whole_witness :
  let W := Sim.world (Sim.network Sim.allOK) 1000 Sim.half in
  let cfg := Sim.config 1 (Some "shot") "api" in
  let allCoords := [Sim.point 2 2; Sim.point 1 1] in
  exists outputs st',
    @program js_host W cfg allCoords Sim.start = (Return outputs, st') /\
    (Num.of_nat (length outputs) < count cfg)%js = false /\
    (forall K : nat,
       count cfg = Num.of_nat K -> Z.of_nat K < 2 ^ 53 -> length outputs = K) /\
    exists evs,
      history st' = (history (@Sim.start W) ++ evs ++ (ConsoleLog <$> outputs))%list /\
      outputs `sublist_of` written evs.
Proof.
  intros W cfg allCoords.
  assert (Hrun : exists outputs st',
            @program js_host W cfg allCoords Sim.start = (Return outputs, st')).
  { eexists _, _. vm_compute. reflexivity. }
  destruct Hrun as (outputs & st' & Hrun).
  exists outputs, st'. split; [exact Hrun|].
  exact (@program_returns_count_when_whole js_host W cfg allCoords Sim.start st' outputs Hrun).
Defined.

Lemma all_attempts_fail_reports_shortfall_witness :
  let W := Sim.world Sim.outage 1000 Sim.half in
  let cfg := Sim.config 2 None "api" in
  let allCoords := [Sim.point 1 1; Sim.point 2 2] in
  let order := @shuffleIndices W 2 in
  let st0 := mkState [Mkdir "/out"] false in
  exists st1 visited evs,
    @visits js_host W cfg allCoords order 0 [] st0 visited (Return (0%nat, [])) st1 /\
    Some <$> visited = order /\
    visited ≡ₚ seq 0 2 /\
    history st1 = (history st0 ++ evs)%list /\
    @program js_host W cfg allCoords Sim.start
      = (Exit 1, mkState (history st1 ++ [ConsoleError (@shortfallMessage js_host cfg 0)])
                         (sharpModule st1)).
Proof.
  intros W cfg allCoords.
  apply (@all_attempts_fail_reports_shortfall js_host W cfg allCoords Sim.start).
  - reflexivity.
  - intros k. reflexivity.
  - cbn. lia.
  - reflexivity.
  - intros coords s [h loaded] Hin.
    destruct (@attempt js_host W cfg coords (@requestedFor js_host cfg coords) s
                (mkState h loaded)) as [outcome st1] eqn:E.
    unfold allCoords in Hin.
    repeat (apply elem_of_cons in Hin as [-> | Hin]);
      [ .. | by apply elem_of_nil in Hin ];
      vm_compute in E; injection E as <- <-; eauto.
Defined.

Lemma metadata_request_failure_is_thrown_witness :
  let W := Sim.world Sim.outage 1000 Sim.half in
  let options := Sim.options (mkSize (Num.of_Z 640) (Num.of_Z 640)) in
  let url := @metadataRequest js_host (Sim.point 1 1) options in
  exists message,
    @createImageWithApi js_host W (Sim.point 1 1) options Sim.start
      = (Throw message,
         mkState (history (@Sim.start W) ++ [HttpsGet url]) (sharpModule (@Sim.start W))).
Proof.
  intros W options url.
  apply (@metadata_request_failure_is_thrown js_host W (Sim.point 1 1) options Sim.start).
  right. left. exists 500%nat, Sim.Garbage. split; [reflexivity | lia].
Defined.

Lemma unsized_request_returns_raw_image_witness :
  let W := Sim.world (Sim.network Sim.allOK) 1000 Sim.half in
  let options := Sim.options (mkSize n0 (Num.of_Z 640)) in
  let coords := Sim.point 1 1 in
  exists st' log,
    @createImageWithApi js_host W coords options Sim.start = (Return (Sim.Image "1,1"), st') /\
    sharpModule st' = sharpModule (@Sim.start W) /\
    history st'
      = (history (@Sim.start W) ++ [HttpsGet (@metadataRequest js_host coords options)]
         ++ log ++ [HttpsGet (@imageRequest js_host coords options)])%list /\
    Forall (fun e => exists msg, e = ConsoleLog msg) log.
Proof.
  intros W options coords.
  apply (@unsized_request_returns_raw_image js_host W coords options Sim.start
           (Some 200%nat) (Some 200%nat)
           (Sim.Json (mkMetadata (Some "OK") None)) (Sim.Image "1,1")
           (mkMetadata (Some "OK") None)).
  - reflexivity.
  - vm_compute. reflexivity.
  - intros code [= <-]. lia.
  - reflexivity.
  - reflexivity.
  - intros h. vm_compute. reflexivity.
  - intros code [= <-]. lia.
Defined.

Lemma capture_tolerates_consent_and_readiness_failures_witness :
  let params := mkBrowserParams (Num.of_Z 800) (Num.of_Z 600) None None None None None in
  exists st',
    @captureStreetViewWithBrowser js_host stubbornWorld (Num.of_Z 1) (Num.of_Z 1) params
      Sim.start
    = (Return (Sim.Image "screenshot"), st').
Proof.
  intros params.
  by apply (@capture_tolerates_consent_and_readiness_failures js_host stubbornWorld
              (Num.of_Z 1) (Num.of_Z 1) params Sim.start (Sim.Image "screenshot")).
Defined.

Lemma pipeline_browser_capture_uses_direct_viewer_witness :
  let W := Sim.world (Sim.network Sim.allOK) 1000 Sim.half in
  let cfg := Sim.config 1 None "browser" in
  let coords := Sim.point 1 1 in
  let requested := mkSize (Num.of_Z 800) (Num.of_Z 600) in
  let params := pipelineBrowserParams cfg coords requested in
  @navigationTarget js_host (lat coords) (lng coords) params
    = @buildEmbedStreetViewUrl js_host (lat coords) (lng coords) params /\
  exists r st' evs,
    @capture js_host W cfg coords requested Sim.start = (r, st') /\
    history st' = (history (@Sim.start W) ++ evs)%list /\
    Forall (fun e => e ∈ @directViewerCalls js_host W (lat coords) (lng coords) params) evs.
Proof.
  intros W cfg coords requested.
  apply (@pipeline_browser_capture_uses_direct_viewer js_host W cfg coords requested
           Sim.start); reflexivity.
Defined.

Lemma one_invalid_item_rejects_the_map_witness :
  let W := Sim.world Sim.outage 1000 Sim.half in
  let items := [ JArray [JNumber (Num.of_Z 10); JNumber (Num.of_Z 20)];
                 JArray [JString "91"; JNumber (Num.of_Z 0)];
                 JObject [("lat", JNumber (Num.of_Z 1)); ("lng", JNumber (Num.of_Z 2))] ] in
  @parseMapData js_host W (JArray items) Sim.start
    = (Exit 1, mkState (history (@Sim.start W) ++ [ConsoleError invalidCoordinates])
                       (sharpModule (@Sim.start W))).
Proof.
  intros W items.
  apply (@one_invalid_item_rejects_the_map js_host W items Sim.start).
  vm_compute. reflexivity.
Defined.

Lemma shapeless_items_are_skipped_witness :
  let W := Sim.world Sim.outage 1000 Sim.half in
  let first := JArray [JNumber (Num.of_Z 10); JNumber (Num.of_Z 20)] in
  let last := JObject [("lat", JString "1.5"); ("lng", JNumber (Num.of_Z 2))] in
  @parseMapData js_host W (JArray ([first] ++ JArray [JNumber (Num.of_Z 5)] :: [last]))
    Sim.start
  = @parseMapData js_host W (JArray ([first] ++ [last])) Sim.start.
Proof.
  intros W first last.
  apply (@shapeless_items_are_skipped js_host W [first] [last]
           (JArray [JNumber (Num.of_Z 5)]) Sim.start).
  reflexivity.
Defined.
